(* ===== verification/_CoqProject ===== *)
-Q . S2P
Prelude.v
Utf8.v
Snapshot.v
Json.v
Codec.v
ObjectMap.v
Store.v
Initialize.v
