(* ===== verification/Prelude.v ===== *)
(** * A verification library for the configuration core of wtftw

    The program is [src/src/config.rs] (101 lines) of the wtftw window
    manager.  It has three parts that interact as follows.

    - [Config] (lines 9-34): the configuration record, eleven fields,
      with derived [Encodable], [Decodable] and [Clone].
    - [ConfigLock] (lines 36-60): one [Config] behind a [RWLock].
      [current] takes the lock shared and clones the record;
      [Updatable::update] needs [&mut self] and installs a fresh lock
      holding the new record.
    - [Config::initialize] (lines 62-101): builds the default record,
      opens [$HOME/.wtftwrc] (read-write, created when absent), reads
      it, runs [json::decode] on it, and on failure logs a message,
      writes [json::encode(default)] at the current file position and
      fsyncs.  It returns the lock holding the decoded or the default
      record.

    The JSON codec ([serialize::json] of the Rust distribution of that
    time) is not under [src/]; it is modelled from the spec and from the
    library's documented behaviour.

    ** Files, in dependency order

    - [Prelude] (this file): the [result] type of fallible code (Rust's
      [Result]) with its bind notation [x <- c ;; k] in [result_scope];
      [result_map] (a fallible [map]); [countb] (counting the elements
      that satisfy a test); lemmas on strings; lemmas that turn bit
      fields of unsigned numbers into arithmetic ([lor_tag],
      [tag_field], [shiftl_lor]); the tactics [invc], [str_simpl],
      [str_len], [rbind_err], [rbind_ok] and [lia_div] ([lia] with
      [div] and [mod] by constants); and the [wtftw] hint database shared by the other
      files.
    - [Utf8] (modelled from the library): a Rust [String] is its UTF-8
      bytes, a model string of 8-bit characters.  [encode_utf8_raw] is
      [char::encode_utf8] with its shifts, masks and tags ([push_char]
      is [String::push]); [from_u32] is [char::from_u32];
      [utf16_items_next] is one step of [str::utf16_items], which joins
      a surrogate pair; [next_code_point] is one step of [str::Chars].
      The library's constants ([TAG_CONT], [MAX_TWO_B], ...) and its
      macros [utf8_first_byte!] and [utf8_acc_cont_byte!] are parsing
      notations, inlined as Rust inlines them.  The bit fields become arithmetic through the Prelude's lemmas
      ([tag_field], [shiftl_lor]) and [lia_div].  Lemmas:
      [encode_utf8_raw_bytes] (one to four bytes, non-ASCII bytes only
      for non-ASCII characters), [next_code_point_push_char] (the
      bytes decode back to the character) and [utf16_surrogate_pair]
      (a surrogate pair is one supplementary-plane scalar value).
    - [Snapshot]: the [Config] record (the spec's ConfigSnapshot) with
      the source's field names, the 32-bit bound [config_wf] on its four [u32] fields, and
      [default_config], the default record of [initialize] (lines 66-82).
      It also holds the field-by-field view of the record ([Field],
      [get_field], [set_field], [of_fields], [copy_prefix]) that the
      derived [Clone] and the struct copy follow.  The sequential
      [ConfigLock] has [current] and [update] (class [Updatable], as in
      the source).  The class [SnapshotStore] with its laws is the
      interface that the spec promises ([current] returns what the last
      [replace] installed); [ConfigLock] is an instance of it.
    - [Json] (modelled from the spec): the [Json] value type and a
      nested induction principle for it, the printer [to_string]
      ([escape_str], [show_N], [show_Z]), and the parser [parse_value]
      (strings with escapes, numbers, literals, lists and objects, all
      with the library's error codes), with [from_str].  A [\u] escape
      goes through [decode_hex_escape] and [unicode_escape], as the
      library's [parse_str] does.  A unit that is not a surrogate, or
      a leading surrogate followed by [\u] and a trailing one, is pushed
      as the UTF-8 bytes of its character ([spells_unicode_unit],
      [spells_surrogate_pair], [spells_code_point]).  The other
      surrogate cases are errors ([parse_str_surrogate_errors]), and
      the [InvalidUnicodeCodePoint] arm is dead
      ([parse_str_no_invalid_code_point]).  The relation [spelled j t]
      is the JSON grammar: blanks between tokens, strings and keys in
      any spelling the parser reads as their bytes ([spells]).  The
      parser reads every text of the grammar as its value
      ([spelled_parse], by mutual induction, with [Combined Scheme];
      [from_str_spelled]).  The encoder's output is one such text
      ([spelled_to_string]).  Theorem
      [from_str_print]: every canonical value (as the encoder emits it)
      prints to a text that parses back to it.  The proof goes through
      [parses_back_all], a round trip with trailing input.  Lemma
      [from_str_no_fuel_error]: on every text the parser returns without
      running out of fuel.  It is proved by induction on the fuel, in
      Section [FuelStep], using [advances]: every step fails with a
      syntax error or consumes input.  Lemma [parse_app]: text appended
      after a parsed value does not change the parse, unless it could
      continue a number ([ends_before]).  So [from_str_app_trailing]:
      a complete document followed by more text is rejected with
      [TrailingCharacters].  Integers go through [parse_digits], the
      digit loop of [parse_u64]: its accumulator is a [u64] that wraps
      ([u64_wrap]), and its overflow test compares with [last_accum],
      which the library initialises to [0] and never updates, so only a
      wrap to exactly [0] is an error ([parse_value_u64_wrap]).  Lemmas
      [from_str_object_text_error] and [from_str_object_text_ok]: in an
      object written as the encoder writes it except for the text of one
      member ([object_text]), that text decides the result, wherever
      the member is ([parse_object_rest_prefix] reads the members
      before it).
    - [Codec]: the derived [Decodable] ([config_from_json]: fields looked
      up by name, in declaration order, first error wins) and the derived
      [Encodable] ([config_to_json]), with [encode] and [decode].
      Every field reader satisfies [Reader]: it reports only errors of
      its own.  Theorems: [decode_encode] (the round trip),
      [encode_parses] (the encoding is JSON that parses back to the
      object), [decode_ok_iff] (what [decode] accepts, field by field:
      all or nothing, keys looked up by name, extra keys ignored),
      [decode_missing_field] (what a missing-field error means),
      [decode_total] ([decode] returns on every text),
      [decode_spelled] (every spelling of a record's JSON decodes to
      the record: whitespace anywhere between tokens, escapes of any
      kind in strings and keys, [\u] surrogate pairs included) and
      [decode_u32_string_fields] (a [u32] field written as a string of
      digits is accepted, against the spec's "a string where an
      integer is expected" error).  [decode_u32_field_width] puts one
      [u32] field at its width: with the rest of a valid record in
      place ([config_to_json_at], [config_from_json_at]), a number or a
      digit string [n] decodes to [n] exactly when [n < 2^32] and is
      rejected otherwise, and a negative number is always rejected.
      [decode_u64_wraps]: a number [n] from [2^64] up to ten times it
      is read modulo [2^64] ([2^64 + 2] decodes to [2]); it is a parse
      error only when [n mod 2^64 = 0].
    - [ObjectMap]: the library's [json::Object] as the [TreeMap] its
      builder fills, modelled as a [gmap string Json] ([object_map]).
      The list lookup of the model is the map lookup, member lists that
      build the same map are equivalent ([obj_equiv], with [Equivalence]
      and [Proper] instances), and the lemma [config_from_json_treemap]
      shows that decoding the member list equals decoding the map's
      entries, so the list model loses nothing on duplicate keys.
    - [Store]: the concurrent lock as a step relation [step] over
      [State] (slot, count of read guards, exclusive flag, threads, ghost
      history of installed snapshots).  Reads and writes copy one field
      per step, so every interleaving is a run.  The invariant [inv] is
      proved for every [reachable] state by rule induction
      ([reachable_inv]).  Theorems: no torn read
      ([current_returns_installed]), no stale read
      ([current_after_update]), concurrent reads agree: every
      [current] call that began under a snapshot and ended before the
      next [update] completed returned that snapshot
      ([concurrent_reads_agree], through [steps_history]: the ghost
      history only grows, one snapshot per completed [update]), mutual exclusion
      ([update_excludes_readers]), a [current] call runs to completion
      ([current_completes]), and refinement ([seq_calls_refine]): a call
      run alone moves the abstract [ConfigLock] exactly as the
      sequential [current] and [update] do.  No deadlock
      ([update_eventually], [current_eventually]): from every reachable
      state a pending call can be run to its end, by the steps of the
      threads in the lock and its own.
    - [Initialize]: [initialize] with the file system, a [File] with a
      cursor, the environment's I/O outcomes, the log and panics.
      Theorems: the valid, missing and corrupt file cases
      ([initialize_valid_file], [initialize_missing_file],
      [initialize_corrupt_file]).  The repair appends, so it never
      repairs: [repair_never_converges] covers any number of restarts
      ([restart]) on a file holding a JSON document that is not a
      configuration.  A blank file is repaired ([repair_blank_file]),
      and so is a missing file, for good: every start after the first
      loads the default silently ([missing_file_repaired]).  [unwrap]
      panics: exactly the failures of [homedir], [open_mode] and
      [read_to_string] make [initialize] panic ([initialize_panics_iff]).
      [write_str] may fail after part of its buffer reached the file
      ([write_at] of a prefix); the failure is swallowed without a log
      line and leaves those bytes appended
      ([initialize_write_error_swallowed]).  [Initialize] also composes the three
      parts: [startup_current_reads_file] runs [initialize] on a file
      holding any spelling of a record's JSON, and then the [Store]
      lock started on the installed record; every [current] call
      before the first completed [update] returns that record.

    ** Fuel and bounds

    [parse_value] takes fuel, and every nested value costs one unit.
    [from_str s] gives it [length s + 1].  A call with fuel [n] on fewer
    than [n] characters never reports [FuelExhausted], because each
    recursive call is made on a strictly shorter suffix
    ([parse_advances]).  So [from_str] and [decode] are total, and
    [from_str_print] shows that the result on an encoder's output is
    [Ok]: it is not a partial-correctness statement.  The [u32] fields
    are integers with the explicit bound [0 <= z < 2^32].  The encoder
    emits them as [U64].  [read_u32] rejects anything out of range,
    including a string of digits whose value overflows ([u32_digits]
    checks every multiplication and addition, as [checked_mul] and
    [checked_add] do; [u32_digits_str] shows that it fails exactly when
    the value does not fit).  The JSON parser's own integers are
    [u64]s that wrap: [parse_digits] reduces its accumulator modulo
    [2^64] at every digit, as the library's [u64] arithmetic does.

    ** What is not modelled

    Path resolution ([homedir]) is an input of the environment, and
    logging is a list of messages.  The parser reads its input byte by
    byte, where the library reads [char]s decoded from UTF-8.  On valid
    UTF-8 the two agree: the bytes of a non-ASCII character are all
    non-ASCII ([encode_utf8_raw_bytes]), so they never stand for a
    quote, a backslash or any other syntax character.  Inside a string
    they are copied either way, and elsewhere they are a syntax error
    either way.  A file that is not UTF-8 makes [read_to_string] fail;
    that is the [InvalidInput] error the environment can choose.  Error
    positions (line and column) are not kept.  [F64] numbers are kept as
    their text, not converted to [f64]: no field of [Config] is a float,
    and [read_u32] rejects an [F64] whatever its value.  The window
    manager that calls [current] is outside [src/src/config.rs]. *)

From Stdlib Require Export Ascii String ZArith NArith Lia.
From stdpp Require Export base list numbers sets.

Declare Scope result_scope.
Delimit Scope result_scope with result.

(** ** Results of fallible code (Rust's [Result]) *)

Inductive result (A E : Type) : Type :=
| Ok (a : A)
| Err (e : E).
Arguments Ok {A E} a.
Arguments Err {A E} e.

Definition rbind {A B E} (r : result A E) (f : A -> result B E) : result B E :=
  match r with
  | Ok a => f a
  | Err e => Err e
  end.

Definition rmap {A B E} (f : A -> B) (r : result A E) : result B E :=
  match r with
  | Ok a => Ok (f a)
  | Err e => Err e
  end.

Definition is_ok {A E} (r : result A E) : bool :=
  match r with Ok _ => true | Err _ => false end.

Notation "x <- c ;; k" := (rbind c (fun x => k))
  (at level 100, c at next level, right associativity) : result_scope.

#[export] Instance result_eq_dec {A E} `{EqDecision A, EqDecision E} :
  EqDecision (result A E).
Proof. solve_decision. Defined.

(** Apply a fallible function to every element, in order; the first
    error stops the loop (a [try!] per element). *)
Fixpoint result_map {A B E} (f : A -> result B E) (l : list A) : result (list B) E :=
  match l with
  | [] => Ok []
  | x :: xs => rbind (f x) (fun y => rbind (result_map f xs) (fun ys => Ok (y :: ys)))
  end.

Lemma rbind_Ok {A B E} (a : A) (f : A -> result B E) : rbind (Ok a) f = f a.
Proof. reflexivity. Qed.

Lemma rbind_Err {A B E} (e : E) (f : A -> result B E) : rbind (Err e) f = Err e.
Proof. reflexivity. Qed.

Lemma rbind_Ok_inv {A B E} (r : result A E) (f : A -> result B E) b :
  rbind r f = Ok b -> exists a, r = Ok a /\ f a = Ok b.
Proof. destruct r; simpl; [eauto | discriminate]. Qed.

Lemma rmap_Ok_inv {A B E} (f : A -> B) (r : result A E) b :
  rmap f r = Ok b -> exists a, r = Ok a /\ b = f a.
Proof. destruct r; simpl; [intros [= <-]; eauto | discriminate]. Qed.

Lemma rmap_Err_inv {A B E} (f : A -> B) (r : result A E) e :
  rmap f r = Err e -> r = Err e.
Proof. by destruct r as [a|e']; [|intros [= ->]]. Qed.

Lemma rbind_Err_inv {A B E} (r : result A E) (f : A -> result B E) e :
  rbind r f = Err e -> r = Err e \/ exists a, r = Ok a /\ f a = Err e.
Proof. destruct r; simpl; [eauto | intros [= ->]; auto]. Qed.

(** ** Lists *)

Lemma Forall_forallb_impl {A} (P : A -> Prop) (f : A -> bool) (l : list A) :
  Forall (fun x => f x = true -> P x) l -> forallb f l = true -> Forall P l.
Proof.
  induction 1 as [|x l Hx Hl IH]; simpl; [constructor|].
  intros [Hfx Hfl]%andb_prop. constructor; auto.
Qed.

Lemma result_map_Ok {A B E} (f : A -> result B E) (g : A -> B) (l : list A) :
  (forall x, x ∈ l -> f x = Ok (g x)) -> result_map f l = Ok (map g l).
Proof.
  induction l as [|x l IH]; intros H; simpl; [reflexivity|].
  rewrite H by set_solver. simpl. rewrite IH by set_solver. reflexivity.
Qed.

Lemma result_map_Err {A B E} (f : A -> result B E) (l : list A) e :
  result_map f l = Err e -> exists x, x ∈ l /\ f x = Err e.
Proof.
  induction l as [|x l IH]; simpl; [discriminate|].
  destruct (f x) eqn:Hx; simpl; [|intros [= ->]; exists x; split; [set_solver | done]].
  destruct (result_map f l) eqn:Hl; simpl; [discriminate|].
  intros [= ->]. destruct (IH eq_refl) as (y & Hy & Hfy). exists y. split; [set_solver | done].
Qed.

(** The number of elements of [l] that satisfy [p]. *)
Fixpoint countb {A} (p : A -> bool) (l : list A) : nat :=
  match l with
  | [] => 0
  | x :: l' => (if p x then 1 else 0) + countb p l'
  end.

Lemma countb_snoc {A} (p : A -> bool) l x :
  countb p (l ++ [x]) = countb p l + (if p x then 1 else 0).
Proof. induction l as [|y l IH]; simpl; lia. Qed.

Lemma countb_insert {A} (p : A -> bool) l i x y :
  l !! i = Some y ->
  countb p (<[i := x]> l) + (if p y then 1 else 0) = countb p l + (if p x then 1 else 0).
Proof.
  revert i. induction l as [|z l IH]; intros [|i]; simpl; try discriminate.
  - intros [= ->]. lia.
  - intros Hi. specialize (IH i Hi). lia.
Qed.

Lemma countb_zero {A} (p : A -> bool) l i x :
  countb p l = 0 -> l !! i = Some x -> p x = false.
Proof.
  revert i. induction l as [|z l IH]; intros [|i]; simpl; try discriminate.
  - intros H [= ->]. destruct (p x); [lia | done].
  - intros H Hi. apply (IH i); [lia | done].
Qed.

Lemma countb_all_false {A} (p : A -> bool) l :
  (forall i x, l !! i = Some x -> p x = false) -> countb p l = 0.
Proof.
  induction l as [|x l IH]; intros H; simpl; [done|].
  rewrite (H 0 x eq_refl). apply IH. intros i y Hi. exact (H (S i) y Hi).
Qed.

Lemma countb_pos {A} (p : A -> bool) l :
  countb p l <> 0 -> exists i x, l !! i = Some x /\ p x = true.
Proof.
  induction l as [|x l IH]; simpl; [done|]. destruct (p x) eqn:Hx.
  - intros _. by exists 0, x.
  - intros (i & y & ? & ?)%IH. by exists (S i), y.
Qed.

Lemma countb_one {A} (p : A -> bool) l i j x y :
  countb p l = 1 -> l !! i = Some x -> p x = true -> l !! j = Some y -> p y = true ->
  i = j.
Proof.
  revert i j. induction l as [|z l IH]; intros i j H Hi Hx Hj Hy; [done|].
  simpl in H. destruct i as [|i], j as [|j]; simpl in Hi, Hj; simplify_eq; [done| | |].
  - rewrite Hx in H. assert (p y = false) by (apply (countb_zero p l j); [lia | done]).
    congruence.
  - rewrite Hy in H. assert (p x = false) by (apply (countb_zero p l i); [lia | done]).
    congruence.
  - f_equal. destruct (p z) eqn:Hz.
    + assert (p x = false) by (apply (countb_zero p l i); [lia | done]). congruence.
    + apply (IH i j); [lia | done..].
Qed.

(** ** Strings *)

(** stdpp's [strings] makes [String.append] opaque to [simpl]; the
    development computes with strings, so it declares the two instances
    it needs itself. *)
#[export] Instance ascii_eq_dec : EqDecision ascii := ascii_dec.
#[export] Instance string_eq_dec : EqDecision string := string_dec.

Local Open Scope string_scope.

Lemma str_app_assoc (s1 s2 s3 : string) : (s1 ++ s2) ++ s3 = s1 ++ (s2 ++ s3).
Proof. induction s1; simpl; congruence. Qed.

Lemma str_app_nil_r (s : string) : s ++ EmptyString = s.
Proof. induction s; simpl; congruence. Qed.

Lemma str_app_nil_l (s : string) : EmptyString ++ s = s.
Proof. reflexivity. Qed.

Lemma str_app_cons (c : ascii) (s t : string) : String c s ++ t = String c (s ++ t).
Proof. reflexivity. Qed.

Lemma str_length_app (s t : string) : String.length (s ++ t) = String.length s + String.length t.
Proof. induction s; simpl; auto. Qed.

Lemma str_app_inj_l (s t u : string) : s ++ t = s ++ u -> t = u.
Proof. induction s; simpl; [auto | intros [= H]; auto]. Qed.

Lemma substring_full s : substring 0 (String.length s) s = s.
Proof. induction s; simpl; congruence. Qed.

(** The string without its first [n] characters. *)
Fixpoint str_drop (n : nat) (s : string) : string :=
  match n, s with
  | O, _ => s
  | S n', String _ s' => str_drop n' s'
  | S _, EmptyString => EmptyString
  end.

Lemma substring_prefix_long m s : String.length s <= m -> substring 0 m s = s.
Proof.
  revert m. induction s as [|c s IH]; intros [|m] H; simpl in *; try lia; try reflexivity.
  f_equal. apply IH. lia.
Qed.

(** [substring n m s] with [m] reaching the end of [s] is a drop. *)
Lemma substring_drop n m s : String.length s <= n + m -> substring n m s = str_drop n s.
Proof.
  revert n. induction s as [|c s IH]; intros [|n] H.
  - by destruct m.
  - done.
  - apply substring_prefix_long. simpl in *. lia.
  - cbn [substring str_drop String.length] in *. apply IH. lia.
Qed.

Lemma str_drop_app n s u : n <= String.length s -> str_drop n (s ++ u) = (str_drop n s ++ u)%string.
Proof.
  revert n. induction s as [|c s IH]; intros [|n] H; simpl in *; try lia; try done.
  apply IH. lia.
Qed.

Lemma str_drop_length n s : String.length (str_drop n s) <= String.length s.
Proof. revert n. induction s as [|c s IH]; intros [|n]; simpl; try lia. specialize (IH n). lia. Qed.

(** [k] copies of [s]. *)
Fixpoint str_repeat (k : nat) (s : string) : string :=
  match k with
  | O => EmptyString
  | S k' => (s ++ str_repeat k' s)%string
  end.

Lemma str_repeat_snoc k s : (str_repeat k s ++ s)%string = str_repeat (S k) s.
Proof.
  induction k as [|k IH]; simpl; [by rewrite str_app_nil_r|].
  by rewrite str_app_assoc, IH.
Qed.

(** ** Bit fields of unsigned numbers

    A byte that code assembles with [|] from a masked field and a tag is
    the sum of the two when their bits do not overlap; these lemmas turn
    [N.land], [N.lor] and the shifts into arithmetic for [lia_div]. *)

Lemma lor_disjoint a b : N.land a b = 0%N -> N.lor a b = (a + b)%N.
Proof. intros H. rewrite N.add_nocarry_lxor, N.lxor_lor; done. Qed.

Lemma mod_lt_pow a k : (a mod 2 ^ k < 2 ^ k)%N.
Proof. apply N.mod_lt, N.pow_nonzero. lia. Qed.

Lemma land_low_high a t k : (a < 2 ^ k)%N -> (t mod 2 ^ k = 0)%N -> N.land a t = 0%N.
Proof.
  intros Ha Ht. apply N.bits_inj_0. intros i. rewrite N.land_spec.
  destruct (N.lt_ge_cases i k).
  - rewrite <- (N.Div0.div_exact t (2 ^ k)) in * by (apply N.pow_nonzero; lia).
    rewrite Ht, N.mul_comm, <- N.shiftl_mul_pow2, N.shiftl_spec_low by done.
    apply andb_false_r.
  - rewrite <- (N.mod_small a (2 ^ k)), N.mod_pow2_bits_high by lia. done.
Qed.

(** A field below bit [k] or'ed with a tag whose low [k] bits are clear. *)
Lemma lor_tag a t k : (a < 2 ^ k)%N -> (t mod 2 ^ k = 0)%N -> N.lor a t = (a + t)%N.
Proof. intros. by apply lor_disjoint, (land_low_high _ _ k). Qed.

Lemma shiftl_lor a b k : (b < 2 ^ k)%N -> N.lor (N.shiftl a k) b = (a * 2 ^ k + b)%N.
Proof.
  intros Hb. rewrite N.lor_comm, (lor_tag _ _ k), N.shiftl_mul_pow2; [lia|done|].
  rewrite N.shiftl_mul_pow2. apply N.Div0.mod_mul.
Qed.

(** A mask of [k] ones or'ed with a tag: the field plus the tag. *)
Lemma tag_field a k m t :
  m = N.ones k -> (t mod 2 ^ k = 0)%N -> N.lor (N.land a m) t = (a mod 2 ^ k + t)%N.
Proof. intros -> Ht. rewrite N.land_ones. apply (lor_tag _ _ k); [apply mod_lt_pow|done]. Qed.

Lemma tag_mod a m t : (t mod m = 0)%N -> ((a mod m + t) mod m = a mod m)%N.
Proof. intros Ht. by rewrite N.Div0.add_mod, Ht, N.add_0_r, !N.Div0.mod_mod. Qed.

Create HintDb wtftw.
Create Rewrite HintDb wtftw_rw.
#[export] Hint Rewrite str_app_assoc str_app_nil_l str_app_nil_r str_app_cons : wtftw_rw.
#[export] Hint Rewrite @rbind_Ok @rbind_Err : wtftw_rw.

(** ** Tactics shared by the development *)

Ltac invc H := inversion H; subst; clear H.

(** Normalise string concatenations and result binds. *)
Ltac str_simpl := autorewrite with wtftw_rw in *.

(** Split a hypothesis [rbind r f = Err e]: the first step failed, or it
    succeeded and the rest failed. *)
Ltac rbind_err H := apply rbind_Err_inv in H as [H | (? & ? & H)].

(** Split a hypothesis [rbind r f = Ok b] into its two halves. *)
Ltac rbind_ok H :=
  let a := fresh "a" in
  let Ha := fresh "Ha" in
  apply rbind_Ok_inv in H; destruct H as (a & Ha & H).

(** Turn the length of a concatenation in [H] into a sum of lengths. *)
Ltac str_len H :=
  repeat progress (rewrite ?str_length_app in H; cbn [String.length String.append] in H).

(** [lia] after [div] and [mod] by constants are replaced by their
    Euclidean equations. *)
Ltac lia_div := zify; Z.to_euclidean_division_equations; lia.
