(* ===== verification/Utf8.v ===== *)
(** * Code points: UTF-8 and UTF-16 of Rust's [char] and [str]

    [serialize::json]'s parser reads its input through [str::chars] and
    pushes every character it decodes into a [String].  A Rust [String]
    is a vector of UTF-8 bytes; the strings of the model are strings of
    8-bit characters, so a [String] is modelled by its bytes.  The
    library routines that the [\u] escapes of the parser go through are
    not under [src/]; they are modelled here from the library's
    documented behaviour, with the bit operations of its code:
    - [encode_utf8_raw] ([char::encode_utf8], the bytes that
      [String::push] appends; [push_char]);
    - [from_u32] ([char::from_u32]: a scalar value, not a surrogate);
    - [utf16_items_next] (one step of [str::utf16_items]: a surrogate
      pair is combined into one supplementary-plane value);
    - [next_code_point] (one step of [str::Chars], the UTF-8 decoder).
    The lemmas show that the bytes pushed for a scalar value are
    well-formed UTF-8 that [next_code_point] reads back as the same
    value, and that a surrogate pair always yields a value of the
    supplementary planes, each one of them exactly once. *)

From S2P Require Import Prelude.
Local Open Scope N_scope.

(** ** [char::encode_utf8] *)

(** The library's [static] constants, inlined as Rust inlines them. *)
Notation MAX_ONE_B := 0x80%N (only parsing).
Notation MAX_TWO_B := 0x800%N (only parsing).
Notation MAX_THREE_B := 0x10000%N (only parsing).
Notation TAG_CONT := 0x80%N (only parsing).
Notation TAG_TWO_B := 0xC0%N (only parsing).
Notation TAG_THREE_B := 0xE0%N (only parsing).
Notation TAG_FOUR_B := 0xF0%N (only parsing).
Notation CONT_MASK := 0x3F%N (only parsing).

(** [encode_utf8_raw] into the four-byte buffer of [String::push], so the
    last case always has room. *)
Definition encode_utf8_raw (code : N) : list N :=
  if code <? MAX_ONE_B then [code]
  else if code <? MAX_TWO_B then
    [N.lor (N.land (N.shiftr code 6) 0x1F) TAG_TWO_B;
     N.lor (N.land code 0x3F) TAG_CONT]
  else if code <? MAX_THREE_B then
    [N.lor (N.land (N.shiftr code 12) 0x0F) TAG_THREE_B;
     N.lor (N.land (N.shiftr code 6) 0x3F) TAG_CONT;
     N.lor (N.land code 0x3F) TAG_CONT]
  else
    [N.lor (N.land (N.shiftr code 18) 0x07) TAG_FOUR_B;
     N.lor (N.land (N.shiftr code 12) 0x3F) TAG_CONT;
     N.lor (N.land (N.shiftr code 6) 0x3F) TAG_CONT;
     N.lor (N.land code 0x3F) TAG_CONT].

(** Bytes as the characters of a model string. *)
Definition bytes (l : list N) : string :=
  foldr (fun b s => String (ascii_of_N b) s) EmptyString l.

(** [String::push]: the bytes appended for a character. *)
Definition push_char (code : N) : string := bytes (encode_utf8_raw code).

(** ** [char::from_u32] *)

Notation char_MAX := 0x10FFFF%N (only parsing).

Definition from_u32 (i : N) : option N :=
  if (char_MAX <? i) || ((0xD800 <=? i) && (i <=? 0xDFFF)) then None else Some i.

(** ** [str::utf16_items] *)

Inductive Utf16Item :=
| ScalarValue (c : N)
| LoneSurrogate (u : N).

(** One step of the iterator over the 16-bit units [l]. *)
Definition utf16_items_next (l : list N) : option (Utf16Item * list N) :=
  match l with
  | [] => None
  | u :: rest =>
      if (u <? 0xD800) || (0xDFFF <? u) then Some (ScalarValue u, rest)
      else if 0xDC00 <=? u then Some (LoneSurrogate u, rest)
      else
        match rest with
        | [] => Some (LoneSurrogate u, rest)
        | u2 :: rest' =>
            if (u2 <? 0xDC00) || (0xDFFF <? u2) then Some (LoneSurrogate u, rest)
            else Some (ScalarValue (N.lor (N.shiftl (u - 0xD800) 10) (u2 - 0xDC00) + 0x10000),
                       rest')
        end
  end.

(** ** [str::Chars]: [next_code_point] *)

(** [unwrap_or_0(bytes.next())]: the next byte, or 0 past the end. *)
Notation next_byte s :=
  (match s with
   | String c r => (N_of_ascii c, r)
   | EmptyString => (0%N, EmptyString)
   end) (only parsing).

(** The macros [utf8_first_byte!] and [utf8_acc_cont_byte!]. *)
Notation utf8_first_byte x width := (N.land x (N.shiftr 0x7F width)) (only parsing).
Notation utf8_acc_cont_byte ch b := (N.lor (N.shiftl ch 6) (N.land b CONT_MASK)) (only parsing).

(** Decode one character from UTF-8 bytes: [[[x y] z] w]. *)
Definition next_code_point (s : string) : option (N * string) :=
  match s with
  | EmptyString => None
  | String c r =>
      let x := N_of_ascii c in
      if x <? 128 then Some (x, r) else
      let init := utf8_first_byte x 2 in
      let '(y, r1) := next_byte r in
      if x <? 0xE0 then Some (utf8_acc_cont_byte init y, r1) else
      let '(z, r2) := next_byte r1 in
      let y_z := utf8_acc_cont_byte (N.land y CONT_MASK) z in
      if x <? 0xF0 then Some (N.lor (N.shiftl init 12) y_z, r2) else
      let '(w, r3) := next_byte r2 in
      Some (N.lor (N.shiftl (N.land init 7) 18) (utf8_acc_cont_byte y_z w), r3)
  end.

(** * Lemmas *)

(** ** The bit fields as arithmetic *)

Lemma cont_byte a : N.lor (N.land a 0x3F) TAG_CONT = a mod 64 + 128.
Proof. exact (tag_field a 6 0x3F TAG_CONT eq_refl eq_refl). Qed.
Lemma lead2_byte a : N.lor (N.land a 0x1F) TAG_TWO_B = a mod 32 + 192.
Proof. exact (tag_field a 5 0x1F TAG_TWO_B eq_refl eq_refl). Qed.
Lemma lead3_byte a : N.lor (N.land a 0x0F) TAG_THREE_B = a mod 16 + 224.
Proof. exact (tag_field a 4 0x0F TAG_THREE_B eq_refl eq_refl). Qed.
Lemma lead4_byte a : N.lor (N.land a 0x07) TAG_FOUR_B = a mod 8 + 240.
Proof. exact (tag_field a 3 0x07 TAG_FOUR_B eq_refl eq_refl). Qed.

Lemma shiftr_6 a : N.shiftr a 6 = a / 64.
Proof. exact (N.shiftr_div_pow2 a 6). Qed.
Lemma shiftr_12 a : N.shiftr a 12 = a / 4096.
Proof. exact (N.shiftr_div_pow2 a 12). Qed.
Lemma shiftr_18 a : N.shiftr a 18 = a / 262144.
Proof. exact (N.shiftr_div_pow2 a 18). Qed.

Lemma first_byte_2 x : utf8_first_byte x 2 = x mod 32.
Proof. exact (N.land_ones x 5). Qed.
Lemma land_7 x : N.land x 7 = x mod 8.
Proof. exact (N.land_ones x 3). Qed.
Lemma cont_mask b : N.land b CONT_MASK = b mod 64.
Proof. exact (N.land_ones b 6). Qed.

Lemma acc_cont_byte ch b : N.lor (N.shiftl ch 6) (b mod 64) = ch * 64 + b mod 64.
Proof. apply (shiftl_lor _ _ 6), (mod_lt_pow _ 6). Qed.

Lemma shiftl_lor_10 a b : b < 1024 -> N.lor (N.shiftl a 10) b = a * 1024 + b.
Proof. exact (shiftl_lor a b 10). Qed.
Lemma shiftl_lor_12 a b : b < 4096 -> N.lor (N.shiftl a 12) b = a * 4096 + b.
Proof. exact (shiftl_lor a b 12). Qed.
Lemma shiftl_lor_18 a b : b < 262144 -> N.lor (N.shiftl a 18) b = a * 262144 + b.
Proof. exact (shiftl_lor a b 18). Qed.

(** The bytes of [encode_utf8_raw] as arithmetic; and the fields that
    [next_code_point] extracts. *)
Create Rewrite HintDb utf8_encode.
Create Rewrite HintDb utf8_decode.
#[export] Hint Rewrite shiftr_6 shiftr_12 shiftr_18 cont_byte lead2_byte lead3_byte
  lead4_byte : utf8_encode.
#[export] Hint Rewrite first_byte_2 land_7 cont_mask acc_cont_byte : utf8_decode.

(** Case analysis on the comparisons of the goal, dropping the
    impossible cases. *)
Ltac ltb_cases :=
  repeat match goal with
         | |- context [?a <? ?b] => destruct (N.ltb_spec a b); try lia_div
         | |- context [?a <=? ?b] => destruct (N.leb_spec a b); try lia_div
         end.

(** ** UTF-8 *)

(** [char::encode_utf8] of a code point up to [char::MAX] gives one
    to four bytes, each below 256 (so [bytes] keeps them all), and
    every byte of a non-ASCII character is itself non-ASCII: a
    multi-byte character never contains a quote, a backslash or any
    other byte of the JSON syntax. *)
Lemma encode_utf8_raw_bytes c :
  c <= char_MAX ->
  (1 <= length (encode_utf8_raw c) <= 4)%nat /\
  Forall (fun b => b < 256) (encode_utf8_raw c) /\
  (128 <= c -> Forall (fun b => 128 <= b) (encode_utf8_raw c)).
Proof.
  unfold encode_utf8_raw. intros Hc.
  autorewrite with utf8_encode. ltb_cases; cbn [length]; rewrite !Forall_cons, ?Forall_nil;
    (split; [lia | split; [|intros ?]]); repeat split; lia_div.
Qed.

(** [str::chars] ([next_code_point]) reads the bytes that
    [String::push] appended for a code point up to [char::MAX] back as
    that code point, and leaves what follows unread. *)
Lemma next_code_point_push_char c r :
  c <= char_MAX -> next_code_point (push_char c ++ r) = Some (c, r).
Proof.
  unfold push_char, encode_utf8_raw. intros Hc.
  autorewrite with utf8_encode. ltb_cases; cbn -[N.ltb N.modulo N.div N.mul N.add];
    rewrite !N_ascii_embedding by lia_div; autorewrite with utf8_decode;
    rewrite ?(tag_mod _ 64 128), ?(tag_mod _ 32 192) by done; ltb_cases;
    rewrite ?shiftl_lor_12, ?shiftl_lor_18 by lia_div; do 2 f_equal; lia_div.
Qed.

(** ** UTF-16 surrogate pairs *)

(** A leading surrogate followed by a trailing one is one scalar value
    of the supplementary planes. *)
Lemma utf16_surrogate_pair u u2 :
  0xD800 <= u <= 0xDBFF -> 0xDC00 <= u2 <= 0xDFFF ->
  exists c, utf16_items_next [u; u2] = Some (ScalarValue c, []) /\
    c = 0x10000 + (u - 0xD800) * 1024 + (u2 - 0xDC00) /\
    0x10000 <= c <= char_MAX /\ from_u32 c = Some c.
Proof.
  intros Hu Hu2. cbn [utf16_items_next]. unfold from_u32.
  rewrite shiftl_lor_10 by lia. ltb_cases; cbn. eexists; split; [done|]. ltb_cases; repeat split; lia.
Qed.
