(* ===== verification/Snapshot.v ===== *)
(** * The configuration record and the sequential [ConfigLock]

    [Config] is the struct of [src/src/config.rs] lines 9-34, field for
    field; its four [u32] fields are integers [Z] with the 32-bit bound
    [config_wf].  [default_config] is the record built at lines 66-82.
    The field view ([Field], [FieldValue], [get_field], [set_field],
    [of_fields]) lists the eleven fields in declaration order: the derived
    [Clone] copies them in that order, and the struct assignment of
    [update] overwrites them in that order; the concurrent model of
    [Store] steps through it.  [ConfigLock] with [current] and [update]
    (lines 36-60) is the sequential view of the lock. *)

From S2P Require Import Prelude.
Local Open Scope string_scope.

(** ** The record *)

(** A Rust [u32] is an integer in [0, 2^32). *)
Definition u32_ok (z : Z) : bool := (0 <=? z)%Z && (z <? 2 ^ 32)%Z.

Record Config := mkConfig {
  focus_follows_mouse : bool;
  focus_border_color : Z;
  border_color : Z;
  border_width : Z;
  spacing : Z;
  terminal : string * string;
  terminal_key : string;
  logfile : string;
  tags : list string;
  launcher : string;
  launch_key : string
}.

#[export] Instance Config_eq_dec : EqDecision Config.
Proof. solve_decision. Defined.

(** The type invariant Rust gives for free: every [u32] field fits. *)
Definition config_wf (c : Config) : bool :=
  u32_ok (focus_border_color c) && u32_ok (border_color c) &&
  u32_ok (border_width c) && u32_ok (spacing c).

(** The default record of [Config::initialize]; [home] is the result of
    [homedir()] (which the code unwraps). *)
Definition default_config (home : string) : Config := {|
  focus_follows_mouse := true;
  focus_border_color := 0x00B6FFB0;
  border_color := 0x00FFB6B0;
  border_width := 2;
  spacing := 10;
  terminal := ("xterm", "-fg White -bg Black");
  terminal_key := "Return";
  logfile := home ++ "/.wtftw.log";
  tags := ["1: term"; "2: web"; "3: code"; "4 media"];
  launcher := "gmrun";
  launch_key := "p"
|}.

(** ** The field view *)

Inductive Field :=
| FFocusFollowsMouse | FFocusBorderColor | FBorderColor | FBorderWidth
| FSpacing | FTerminal | FTerminalKey | FLogfile | FTags | FLauncher
| FLaunchKey.

#[export] Instance Field_eq_dec : EqDecision Field.
Proof. solve_decision. Defined.

(** The fields in declaration order. *)
Definition fields : list Field :=
  [FFocusFollowsMouse; FFocusBorderColor; FBorderColor; FBorderWidth;
   FSpacing; FTerminal; FTerminalKey; FLogfile; FTags; FLauncher; FLaunchKey].

(** The value held by one field, tagged by its Rust type. *)
Inductive FieldValue :=
| VBool (b : bool)
| VU32 (z : Z)
| VPair (a b : string)
| VStr (s : string)
| VStrs (l : list string).

#[export] Instance FieldValue_eq_dec : EqDecision FieldValue.
Proof. solve_decision. Defined.

Definition get_field (c : Config) (f : Field) : FieldValue :=
  match f with
  | FFocusFollowsMouse => VBool (focus_follows_mouse c)
  | FFocusBorderColor => VU32 (focus_border_color c)
  | FBorderColor => VU32 (border_color c)
  | FBorderWidth => VU32 (border_width c)
  | FSpacing => VU32 (spacing c)
  | FTerminal => VPair (fst (terminal c)) (snd (terminal c))
  | FTerminalKey => VStr (terminal_key c)
  | FLogfile => VStr (logfile c)
  | FTags => VStrs (tags c)
  | FLauncher => VStr (launcher c)
  | FLaunchKey => VStr (launch_key c)
  end.

(** Write one field; a value of the wrong shape leaves the record as it
    is (Rust's typing rules this case out). *)
Definition set_field (c : Config) (f : Field) (v : FieldValue) : Config :=
  let 'mkConfig ffm fbc bc bw sp te tk lf tg la lk := c in
  match f, v with
  | FFocusFollowsMouse, VBool b => mkConfig b fbc bc bw sp te tk lf tg la lk
  | FFocusBorderColor, VU32 z => mkConfig ffm z bc bw sp te tk lf tg la lk
  | FBorderColor, VU32 z => mkConfig ffm fbc z bw sp te tk lf tg la lk
  | FBorderWidth, VU32 z => mkConfig ffm fbc bc z sp te tk lf tg la lk
  | FSpacing, VU32 z => mkConfig ffm fbc bc bw z te tk lf tg la lk
  | FTerminal, VPair a b => mkConfig ffm fbc bc bw sp (a, b) tk lf tg la lk
  | FTerminalKey, VStr s => mkConfig ffm fbc bc bw sp te s lf tg la lk
  | FLogfile, VStr s => mkConfig ffm fbc bc bw sp te tk s tg la lk
  | FTags, VStrs l => mkConfig ffm fbc bc bw sp te tk lf l la lk
  | FLauncher, VStr s => mkConfig ffm fbc bc bw sp te tk lf tg s lk
  | FLaunchKey, VStr s => mkConfig ffm fbc bc bw sp te tk lf tg la s
  | _, _ => c
  end.

(** Assemble a record from the eleven values in declaration order: the
    struct literal that the derived [Clone] builds. *)
Definition of_fields (vs : list FieldValue) : option Config :=
  match vs with
  | [VBool ffm; VU32 fbc; VU32 bc; VU32 bw; VU32 sp; VPair ta tb; VStr tk;
     VStr lf; VStrs tg; VStr la; VStr lk] =>
      Some (mkConfig ffm fbc bc bw sp (ta, tb) tk lf tg la lk)
  | _ => None
  end.

(** The first [k] fields of [src] written over [dst], in declaration
    order: the state of a field-by-field struct copy after [k] steps. *)
Definition copy_prefix (k : nat) (src dst : Config) : Config :=
  foldl (fun c f => set_field c f (get_field src f)) dst (take k fields).

(** ** The sequential [ConfigLock] *)

Record ConfigLock := { conf : Config }.

(** [ConfigLock::current]: read the record and return a clone of it. *)
Definition current (l : ConfigLock) : Config := conf l.

(** The trait [Updatable] of the source and its implementation for
    [ConfigLock]: [self.conf = RWLock::new(new_conf)]. *)
Class Updatable (T : Type) := update : T -> Config -> T.

#[export] Instance ConfigLock_Updatable : Updatable ConfigLock :=
  fun _ new_conf => {| conf := new_conf |}.

(** The contract the spec states for a configuration store: [current]
    returns the whole snapshot last installed by [replace]. *)
Class SnapshotStore (T : Type) := {
  store_current : T -> Config;
  store_replace : T -> Config -> T
}.

Class SnapshotStoreLaws (T : Type) `{SnapshotStore T} := {
  store_current_replace : forall s c, store_current (store_replace s c) = c
}.

#[export] Instance ConfigLock_SnapshotStore : SnapshotStore ConfigLock := {
  store_current := current;
  store_replace := update
}.

#[export] Instance ConfigLock_SnapshotStoreLaws : SnapshotStoreLaws ConfigLock.
Proof. constructor. reflexivity. Qed.

(** ** Lemmas on the field view *)

Lemma length_fields : length fields = 11.
Proof. reflexivity. Qed.

Lemma get_set_field_eq c d f :
  get_field (set_field c f (get_field d f)) f = get_field d f.
Proof. destruct c, d, f; simpl; try destruct terminal0; reflexivity. Qed.

Lemma get_set_field_ne c f g v :
  f <> g -> get_field (set_field c f v) g = get_field c g.
Proof.
  intros Hne. destruct c, f, g, v; simpl; congruence.
Qed.

Lemma config_ext c d :
  (forall f, get_field c f = get_field d f) -> c = d.
Proof.
  destruct c as [? ? ? ? ? [? ?] ? ? ? ? ?], d as [? ? ? ? ? [? ?] ? ? ? ? ?].
  intros H.
  pose proof (H FFocusFollowsMouse); pose proof (H FFocusBorderColor);
  pose proof (H FBorderColor); pose proof (H FBorderWidth);
  pose proof (H FSpacing); pose proof (H FTerminal);
  pose proof (H FTerminalKey); pose proof (H FLogfile); pose proof (H FTags);
  pose proof (H FLauncher); pose proof (H FLaunchKey).
  simpl in *; simplify_eq; reflexivity.
Qed.

Lemma of_fields_get c : of_fields (map (get_field c) fields) = Some c.
Proof. destruct c as [? ? ? ? ? [? ?] ? ? ? ? ?]; reflexivity. Qed.

Lemma of_fields_fmap c : of_fields (get_field c <$> fields) = Some c.
Proof. destruct c as [? ? ? ? ? [? ?] ? ? ? ? ?]; reflexivity. Qed.

Lemma of_fields_length vs c : of_fields vs = Some c -> length vs = 11.
Proof. unfold of_fields. intros H. repeat case_match; simplify_eq; reflexivity. Qed.

(** A field outside the copied prefix still holds its old value; one
    inside holds the new value. *)
Lemma get_copy_prefix k src dst f :
  get_field (copy_prefix k src dst) f =
  if decide (f ∈ take k fields) then get_field src f else get_field dst f.
Proof.
  unfold copy_prefix. generalize (take k fields) as gs.
  induction gs as [|g gs IH] using rev_ind.
  - rewrite decide_False; [reflexivity | set_solver].
  - rewrite foldl_app; cbn [foldl].
    destruct (decide (g = f)) as [<-|Hne].
    + rewrite get_set_field_eq, decide_True; [reflexivity | set_solver].
    + rewrite get_set_field_ne, IH by done.
      destruct (decide (f ∈ gs)), (decide (f ∈ (gs ++ [g])%list));
        [reflexivity | set_solver | set_solver | reflexivity].
Qed.

Lemma copy_prefix_all src dst : copy_prefix 11 src dst = src.
Proof.
  apply config_ext. intros f. rewrite get_copy_prefix.
  rewrite decide_True; [reflexivity|]. destruct f; simpl; set_solver.
Qed.

Lemma copy_prefix_0 src dst : copy_prefix 0 src dst = dst.
Proof. reflexivity. Qed.

