(* ===== verification/Json.v ===== *)
(** * The JSON codec ([serialize::json]), modelled from the spec

    The Rust library that [config.rs] calls for [json::encode] and
    [json::decode] is not under [src/].  This file models the part of it
    that the configuration file goes through: the [Json] value type
    (the library's enum [Json]: I64, U64, F64, String, Boolean, List,
    Object, Null), the compact printer of the library's [Encoder]
    ([escape_str], numbers in decimal, [,] and [:] with no spaces), and
    the parser of [json::from_str] with its error codes.  Strings are
    their UTF-8 bytes; a [\u] escape is decoded as the library does it
    (surrogate pairs joined by [utf16_items_next], the character pushed
    as [push_char], both from [Utf8]), and the escape theorems at the end
    of the file cover every case of it.  The parser is
    a [Fixpoint] with fuel; [from_str] gives it [length s + 1], which
    never runs out ([from_str_no_fuel_error]).  The lemmas show that
    every canonical value prints to a text that parses back to it
    ([from_str_print]), and that text appended after a parsed value
    leaves the parse unchanged ([parse_app]). *)

From S2P Require Import Prelude Utf8.
Local Open Scope string_scope.

(** ** Characters *)

Definition quote : ascii := "034".
Definition backslash : ascii := "092".

(** [parse_whitespace]: space, newline, tab, carriage return. *)
Definition is_ws (c : ascii) : bool :=
  let n := N_of_ascii c in ((n =? 32) || (n =? 10) || (n =? 9) || (n =? 13))%N.

Definition digit_val (c : ascii) : option N :=
  let n := N_of_ascii c in
  if ((48 <=? n) && (n <=? 57))%N then Some (n - 48)%N else None.

Definition is_digit (c : ascii) : bool := match digit_val c with Some _ => true | None => false end.

Definition digit_char (d : N) : ascii := ascii_of_N (48 + d).

(** The head of [s] is not a digit: a decimal number printed before [s]
    ends where it should. *)
Definition no_digit_head (s : string) : bool :=
  match s with
  | String c _ => negb (is_digit c)
  | EmptyString => true
  end.

(** ** JSON values *)

#[local] Set Warnings "-register-all".

Inductive Json :=
| JI64 (z : Z)
| JU64 (n : N)
| JF64 (lexeme : string)
| JString (s : string)
| JBoolean (b : bool)
| JList (l : list Json)
| JObject (o : list (string * Json))
| JNull.

(** The induction principle Rocq derives does not descend into the lists
    of [JList] and [JObject]; this one does. *)
Section Json_ind_nested.
Variable P : Json -> Prop.
Hypothesis HI64 : forall z, P (JI64 z).
Hypothesis HU64 : forall n, P (JU64 n).
Hypothesis HF64 : forall s, P (JF64 s).
Hypothesis HString : forall s, P (JString s).
Hypothesis HBoolean : forall b, P (JBoolean b).
Hypothesis HList : forall l, Forall P l -> P (JList l).
Hypothesis HObject : forall o, Forall (fun kv => P (snd kv)) o -> P (JObject o).
Hypothesis HNull : P JNull.

Fixpoint Json_ind_nested (j : Json) : P j :=
  match j with
  | JI64 z => HI64 z
  | JU64 n => HU64 n
  | JF64 s => HF64 s
  | JString s => HString s
  | JBoolean b => HBoolean b
  | JList l =>
      HList l ((fix go (l : list Json) : Forall P l :=
                  match l with
                  | [] => @List.Forall_nil _ P
                  | x :: xs => @List.Forall_cons _ P x xs (Json_ind_nested x) (go xs)
                  end) l)
  | JObject o =>
      HObject o ((fix go (o : list (string * Json)) :
                    Forall (fun kv => P (snd kv)) o :=
                    match o with
                    | [] => @List.Forall_nil _ (fun kv => P (snd kv))
                    | kv :: kvs =>
                        @List.Forall_cons _ (fun kv => P (snd kv)) kv kvs
                          (Json_ind_nested (snd kv)) (go kvs)
                    end) o)
  | JNull => HNull
  end.
End Json_ind_nested.

(** ** Decimal numbers *)

(** The decimal digits of [n], most significant first; [fuel] bounds the
    number of divisions by ten ([N.size n] is enough). *)
Fixpoint dec_digits (fuel : nat) (n : N) : list N :=
  match fuel with
  | O => [n]
  | S f => if (n <? 10)%N then [n] else dec_digits f (n / 10) ++ [(n mod 10)%N]
  end.

Definition digits_str (ds : list N) : string :=
  string_of_list_ascii (map digit_char ds).

Definition show_N (n : N) : string := digits_str (dec_digits (N.to_nat (N.size n)) n).

(** Horner's rule: the value of a digit sequence read after [acc]. *)
Definition digits_value (acc : N) (ds : list N) : N :=
  foldl (fun a d => a * 10 + d)%N acc ds.

(** ** The printer of the library's [Encoder] *)

(** [escape_str]: the seven characters the encoder escapes. *)
Definition escape_char (c : ascii) : string :=
  if decide (c = quote) then String backslash (String quote EmptyString)
  else if decide (c = backslash) then String backslash (String backslash EmptyString)
  else if decide (c = "008"%char) then String backslash "b"
  else if decide (c = "012"%char) then String backslash "f"
  else if decide (c = "010"%char) then String backslash "n"
  else if decide (c = "013"%char) then String backslash "r"
  else if decide (c = "009"%char) then String backslash "t"
  else String c EmptyString.

Fixpoint escape_chars (s : string) : string :=
  match s with
  | EmptyString => EmptyString
  | String c r => escape_char c ++ escape_chars r
  end.

Definition escape_str (s : string) : string :=
  String quote (escape_chars s ++ String quote EmptyString).

Fixpoint join_with (sep : string) (l : list string) : string :=
  match l with
  | [] => EmptyString
  | [x] => x
  | x :: xs => x ++ sep ++ join_with sep xs
  end.

Definition show_Z (z : Z) : string :=
  if (z <? 0)%Z then "-" ++ show_N (Z.to_N (- z)) else show_N (Z.to_N z).

Fixpoint to_string (j : Json) : string :=
  match j with
  | JI64 z => show_Z z
  | JU64 n => show_N n
  | JF64 lx => lx
  | JString s => escape_str s
  | JBoolean b => if b then "true" else "false"
  | JList l => "[" ++ join_with "," (map to_string l) ++ "]"
  | JObject o =>
      "{" ++ join_with "," (map (fun kv => escape_str (fst kv) ++ ":" ++ to_string (snd kv)) o)
      ++ "}"
  | JNull => "null"
  end.

(** ** The parser of [json::from_str] *)

(** The library's [ErrorCode]s that the parser raises. *)
Inductive ErrorCode :=
| InvalidSyntax | InvalidNumber | EOFWhileParsingObject | EOFWhileParsingList
| EOFWhileParsingValue | EOFWhileParsingString | KeyMustBeAString
| ExpectedColon | TrailingCharacters | TrailingComma | InvalidEscape
| InvalidUnicodeCodePoint | LoneLeadingSurrogateInHexEscape | UnexpectedEndOfHexEscape.

(** [FuelExhausted] is the model's own: [from_str] never returns it
    ([from_str_fuel_enough]). *)
Inductive ParserError :=
| SyntaxError (code : ErrorCode)
| FuelExhausted.

#[export] Instance ErrorCode_eq_dec : EqDecision ErrorCode.
Proof. solve_decision. Defined.
#[export] Instance ParserError_eq_dec : EqDecision ParserError.
Proof. solve_decision. Defined.

Definition serr {A} (c : ErrorCode) : result A ParserError := Err (SyntaxError c).

Local Open Scope result_scope.

Fixpoint skip_ws (s : string) : string :=
  match s with
  | String c r => if is_ws c then skip_ws r else s
  | EmptyString => s
  end.

(** The escapes of [parse_str] other than [\u]. *)
Definition unescape (e : ascii) : option ascii :=
  match e with
  | "034" => Some quote
  | "092" => Some backslash
  | "/" => Some "/"
  | "b" => Some "008"
  | "f" => Some "012"
  | "n" => Some "010"
  | "r" => Some "013"
  | "t" => Some "009"
  | _ => None
  end%char.

Definition hex_val (c : ascii) : option N :=
  let n := N_of_ascii c in
  if ((48 <=? n) && (n <=? 57))%N then Some (n - 48)%N
  else if ((97 <=? n) && (n <=? 102))%N then Some (n - 87)%N
  else if ((65 <=? n) && (n <=? 70))%N then Some (n - 55)%N
  else None.

Definition hex4 (a b c d : ascii) : option N :=
  match hex_val a, hex_val b, hex_val c, hex_val d with
  | Some x, Some y, Some z, Some w => Some (((x * 16 + y) * 16 + z) * 16 + w)%N
  | _, _, _, _ => None
  end.

Definition cons_fst (c : ascii) (p : string * string) : string * string :=
  (String c (fst p), snd p).

Definition app_fst (pre : string) (p : string * string) : string * string :=
  (pre ++ fst p, snd p).

(** [try!(self.decode_hex_escape())], then [k]: the four hex digits
    after [\u] as a 16-bit unit, and [k] on the text after them. *)
Definition decode_hex_escape {A} (s : string) (k : N -> string -> result A ParserError)
  : result A ParserError :=
  match s with
  | String h1 (String h2 (String h3 (String h4 r))) =>
      match hex4 h1 h2 h3 h4 with
      | Some n => k n r
      | None => serr InvalidEscape
      end
  | _ => serr InvalidEscape
  end.

(** The [\u] arm of [parse_str], after the [u]: a unit that is not a
    surrogate is one character; a leading surrogate must be followed by
    [\u] and a trailing one, and the pair is one character.  The bytes
    [String::push] appends for the character come before what [k]
    parses of the rest of the string. *)
Definition unicode_escape (k : string -> result (string * string) ParserError)
  (s : string) : result (string * string) ParserError :=
  decode_hex_escape s (fun n1 r1 =>
    if ((0xDC00 <=? n1) && (n1 <=? 0xDFFF))%N then serr LoneLeadingSurrogateInHexEscape
    else if ((0xD800 <=? n1) && (n1 <=? 0xDBFF))%N then
      match r1 with
      | String b (String u r2) =>
          if bool_decide (b = backslash /\ u = "u"%char) then
            decode_hex_escape r2 (fun n2 r3 =>
              match utf16_items_next [n1; n2] with
              | Some (ScalarValue c, _) => rmap (app_fst (push_char c)) (k r3)
              | _ => serr LoneLeadingSurrogateInHexEscape
              end)
          else serr UnexpectedEndOfHexEscape
      | _ => serr UnexpectedEndOfHexEscape
      end
    else
      match from_u32 n1 with
      | Some c => rmap (app_fst (push_char c)) (k r1)
      | None => serr InvalidUnicodeCodePoint
      end).

(** [parse_str], after the opening quote: the bytes of the string up
    to the closing quote, and what follows it. *)
Fixpoint parse_str (s : string) : result (string * string) ParserError :=
  match s with
  | EmptyString => serr EOFWhileParsingString
  | String c r =>
      if decide (c = quote) then Ok (EmptyString, r)
      else if decide (c = backslash) then
        match r with
        | EmptyString => serr EOFWhileParsingString
        | String e r' =>
            match unescape e with
            | Some ch => rmap (cons_fst ch) (parse_str r')
            | None =>
                if decide (e = "u"%char) then unicode_escape parse_str r'
                else serr InvalidEscape
            end
        end
      else rmap (cons_fst c) (parse_str r)
  end.

(** The accumulator of [parse_u64] is a [u64]: [accum *= 10] and
    [accum += d] wrap around modulo [2^64]. *)
Notation u64_wrap n := (n mod 2 ^ 64)%N (only parsing).
(** [let last_accum = 0; // necessary to detect overflow.]: the loop
    never updates it. *)
Notation last_accum := 0%N (only parsing).

(** The digit loop of [parse_u64], from [accum] on: each digit is
    multiplied in with wrap-around, and the overflow test
    [accum <= last_accum] fails the number only when the accumulator
    has wrapped to exactly [0]. *)
Fixpoint parse_digits (acc : N) (s : string) : result (N * string) ParserError :=
  match s with
  | String c r =>
      match digit_val c with
      | Some d =>
          let acc' := u64_wrap (u64_wrap (acc * 10) + d) in
          if (acc' <=? last_accum)%N then serr InvalidNumber else parse_digits acc' r
      | None => Ok (acc, s)
      end
  | EmptyString => Ok (acc, s)
  end.

(** The digits at the head of [s] and the rest; a fraction or an exponent
    needs at least one. *)
Fixpoint span_digits (s : string) : nat :=
  match s with
  | String c r => if is_digit c then S (span_digits r) else 0
  | EmptyString => 0
  end.

Definition parse_exponent (s : string) : result string ParserError :=
  match s with
  | String e r =>
      if decide (e = "e"%char \/ e = "E"%char) then
        let r := match r with
                 | String sg r' => if decide (sg = "+"%char \/ sg = "-"%char) then r' else r
                 | EmptyString => r
                 end in
        match span_digits r with
        | O => serr InvalidNumber
        | k => Ok (substring k (String.length r) r)
        end
      else Ok s
  | EmptyString => Ok s
  end.

Definition parse_decimal (s : string) : result string ParserError :=
  match s with
  | String "." r =>
      match span_digits r with
      | O => serr InvalidNumber
      | k => Ok (substring k (String.length r) r)
      end
  | _ => Ok s
  end.

(** The text consumed between [s] and its suffix [rest]. *)
Definition consumed (s rest : string) : string :=
  substring 0 (String.length s - String.length rest) s.

Definition starts_float (s : string) : bool :=
  match s with
  | String c _ => bool_decide (c = "."%char \/ c = "e"%char \/ c = "E"%char)
  | EmptyString => false
  end.

(** After the [u64] integer part [n] of a number that starts at [s0]: a
    float, a negative [I64] ([-(res as i64)], an error when it is
    positive, that is when [n > 2^63]) or an [U64]. *)
Definition number_tail (s0 : string) (neg : bool) (n : N) (r : string)
  : result (Json * string) ParserError :=
  if starts_float r then
    r' <- (r1 <- parse_decimal r ;; parse_exponent r1) ;;
    Ok (JF64 (consumed s0 r'), r')
  else if neg then
    if (n <=? 2 ^ 63)%N then Ok (JI64 (- Z.of_N n)%Z, r) else serr InvalidNumber
  else Ok (JU64 n, r).

(** [parse_u64] and what follows it, for a number starting at [s0]. *)
Definition parse_unsigned (s0 : string) (neg : bool) (s1 : string)
  : result (Json * string) ParserError :=
  match s1 with
  | String c r =>
      match digit_val c with
      | Some 0%N => if no_digit_head r then number_tail s0 neg 0 r else serr InvalidNumber
      | Some _ => p <- parse_digits 0 s1 ;; number_tail s0 neg (fst p) (snd p)
      | None => serr InvalidNumber
      end
  | EmptyString => serr InvalidNumber
  end.

Definition parse_number (s : string) : result (Json * string) ParserError :=
  match s with
  | String c r =>
      if decide (c = "-"%char) then parse_unsigned s true r else parse_unsigned s false s
  | EmptyString => serr InvalidNumber
  end.

(** A key, the colon, and what follows; [s] has no leading whitespace. *)
Definition parse_key (s : string) : result (string * string) ParserError :=
  match s with
  | EmptyString => serr EOFWhileParsingObject
  | String c r =>
      if decide (c = quote) then
        kr <- parse_str r ;;
        match skip_ws (snd kr) with
        | EmptyString => serr EOFWhileParsingObject
        | String ":" r' => Ok (fst kr, r')
        | _ => serr ExpectedColon
        end
      else serr KeyMustBeAString
  end.

(** [word] at the head of [s], and what follows it. *)
Fixpoint strip_prefix (word s : string) : option string :=
  match word, s with
  | EmptyString, _ => Some s
  | String a w, String b r => if decide (a = b) then strip_prefix w r else None
  | String _ _, EmptyString => None
  end.

(** [parse_ident]: the rest of a literal [null], [true] or [false]. *)
Definition parse_ident (word : string) (v : Json) (s : string)
  : result (Json * string) ParserError :=
  match strip_prefix word s with
  | Some r => Ok (v, r)
  | None => serr InvalidSyntax
  end.

(** The value parser.  [parse_value] reads one value; an array or an
    object reads its first element itself and hands the rest to
    [parse_list_rest] or [parse_object_rest] (the states
    [ParseArrayComma] and [ParseObjectComma] of the library), which read
    [,] element or the closing bracket.  The accumulators are reversed. *)
Fixpoint parse_value (fuel : nat) (s : string) {struct fuel}
  : result (Json * string) ParserError :=
  match fuel with
  | O => Err FuelExhausted
  | S n =>
      match skip_ws s with
      | EmptyString => serr EOFWhileParsingValue
      | String c r as s' =>
          if decide (c = "n"%char) then parse_ident "ull" JNull r
          else if decide (c = "t"%char) then parse_ident "rue" (JBoolean true) r
          else if decide (c = "f"%char) then parse_ident "alse" (JBoolean false) r
          else if decide (c = quote) then
            rmap (fun p => (JString (fst p), snd p)) (parse_str r)
          else if decide (c = "["%char) then
            match skip_ws r with
            | String c' r' as r1 =>
                if decide (c' = "]"%char) then Ok (JList [], r')
                else p <- parse_value n r1 ;; parse_list_rest n (snd p) [fst p]
            | EmptyString => serr EOFWhileParsingValue
            end
          else if decide (c = "{"%char) then
            match skip_ws r with
            | String c' r' as r1 =>
                if decide (c' = "}"%char) then Ok (JObject [], r')
                else
                  kr <- parse_key r1 ;;
                  p <- parse_value n (snd kr) ;;
                  parse_object_rest n (snd p) [(fst kr, fst p)]
            | EmptyString => serr EOFWhileParsingObject
            end
          else if bool_decide (c = "-"%char) || is_digit c then parse_number s'
          else serr InvalidSyntax
      end
  end
with parse_list_rest (fuel : nat) (s : string) (acc : list Json) {struct fuel}
  : result (Json * string) ParserError :=
  match fuel with
  | O => Err FuelExhausted
  | S n =>
      match skip_ws s with
      | String "," r => p <- parse_value n r ;; parse_list_rest n (snd p) (fst p :: acc)
      | String "]" r => Ok (JList (rev acc), r)
      | EmptyString => serr EOFWhileParsingList
      | _ => serr InvalidSyntax
      end
  end
with parse_object_rest (fuel : nat) (s : string) (acc : list (string * Json))
  {struct fuel} : result (Json * string) ParserError :=
  match fuel with
  | O => Err FuelExhausted
  | S n =>
      match skip_ws s with
      | String "," r =>
          match skip_ws r with
          | String c' _ as r1 =>
              if decide (c' = "}"%char) then serr TrailingComma
              else
                kr <- parse_key r1 ;;
                p <- parse_value n (snd kr) ;;
                parse_object_rest n (snd p) ((fst kr, fst p) :: acc)
          | EmptyString => serr EOFWhileParsingObject
          end
      | String "}" r => Ok (JObject (rev acc), r)
      | EmptyString => serr EOFWhileParsingObject
      | _ => serr InvalidSyntax
      end
  end.

(** [json::from_str]: one value, then only whitespace. *)
Definition from_str (s : string) : result Json ParserError :=
  p <- parse_value (S (String.length s)) s ;;
  match skip_ws (snd p) with
  | EmptyString => Ok (fst p)
  | String _ _ => serr TrailingCharacters
  end.

(** ** Which values print back to themselves *)

(** Numbers in the form the parser produces (non-negative ones are [U64],
    negative ones [I64], both in range), no floats (their text is not
    modelled as a number); every string is printable. *)
Fixpoint json_canon (j : Json) : bool :=
  match j with
  | JI64 z => (z <? 0)%Z && (- 2 ^ 63 <=? z)%Z
  | JU64 n => (n <? 2 ^ 64)%N
  | JF64 _ => false
  | JString _ | JBoolean _ | JNull => true
  | JList l => forallb json_canon l
  | JObject o => forallb (fun kv => json_canon (snd kv)) o
  end.

(** What may follow a value in a document: a number stops there. *)
Definition value_end (s : string) : bool := no_digit_head s && negb (starts_float s).

(** The elements of a list after the first, each preceded by [sep]. *)
Fixpoint prefixed (sep : string) (l : list string) : string :=
  match l with
  | [] => EmptyString
  | x :: xs => sep ++ x ++ prefixed sep xs
  end.

Definition member_string (kv : string * Json) : string :=
  escape_str (fst kv) ++ ":" ++ to_string (snd kv).

(** The text of an object whose member [k] is written [T], after the
    members [kv0 :: o1] and before the members [o2], all as the encoder
    prints them. *)
Definition object_text (kv0 : string * Json) (o1 : list (string * Json)) (k T : string)
    (o2 : list (string * Json)) : string :=
  "{" ++ member_string kv0 ++ prefixed "," (map member_string o1) ++
  String "," (escape_str k ++ String ":" (T ++ prefixed "," (map member_string o2) ++ "}")).

(** A step of the parser that cannot run out of fuel by itself: it fails
    with a syntax error, or it succeeds and leaves fewer than [m]
    characters.  The fuel bound of [from_str] rests on it. *)
Definition advances {A} (m : nat) (x : result (A * string) ParserError) : Prop :=
  match x with
  | Ok (_, r) => String.length r < m
  | Err e => e <> FuelExhausted
  end.

(** A value that left [r] unread is still whole when [u] is appended:
    either something of [r] stopped it, or [u] cannot continue a number. *)
Definition ends_before (r u : string) : bool :=
  match r with
  | EmptyString => value_end u
  | String _ _ => true
  end.

(** The writer side of [\u] escapes, which the encoder never uses (it
    writes every byte of a string as it is): four lower-case hex digits
    of a 16-bit unit, and the escape of a scalar value, as one unit or
    as the surrogate pair of its high and low ten bits.  The lemmas use
    it to show that every character can be written as an escape. *)
Definition hex_digit (d : N) : ascii :=
  if (d <? 10)%N then ascii_of_N (48 + d) else ascii_of_N (87 + d).

Definition hex_escape (n : N) : string :=
  String backslash (String "u" (String (hex_digit (n / 4096 mod 16))
    (String (hex_digit (n / 256 mod 16)) (String (hex_digit (n / 16 mod 16))
      (String (hex_digit (n mod 16)) EmptyString))))).

Definition escape_code_point (c : N) : string :=
  if (c <? 0x10000)%N then hex_escape c
  else hex_escape (0xD800 + (c - 0x10000) / 1024) ++ hex_escape (0xDC00 + (c - 0x10000) mod 1024).

(** ** The texts the parser reads as a value

    [spelled j t]: [t] is one of the texts of the JSON grammar that
    [from_str] reads as [j].  Whitespace ([blank]) may come between any
    two tokens.  A string or a key may be spelled in any way that
    [parse_str] reads as its bytes ([spells]): raw bytes, the short
    escapes, [\u] escapes of single units or of surrogate pairs.  Numbers
    and literals are written as the encoder writes them.  The encoder's
    output is one spelling among many. *)

Definition spells (t s : string) : Prop :=
  forall u, parse_str (t ++ u) = rmap (app_fst s) (parse_str u).

Definition blank (w : string) : Prop := skip_ws w = EmptyString.

Definition is_atom (j : Json) : bool :=
  match j with
  | JString _ | JList _ | JObject _ => false
  | _ => true
  end.

Inductive spelled : Json -> string -> Prop :=
| sp_atom j : is_atom j = true -> json_canon j = true -> spelled j (to_string j)
| sp_string s t : spells t s -> spelled (JString s) (String quote (t ++ String quote EmptyString))
| sp_list_nil w : blank w -> spelled (JList []) ("[" ++ w ++ "]")
| sp_list x xs w1 t ts w2 :
    blank w1 -> spelled x t -> spelled_elems xs ts -> blank w2 ->
    spelled (JList (x :: xs)) ("[" ++ w1 ++ t ++ ts ++ w2 ++ "]")
| sp_object_nil w : blank w -> spelled (JObject []) ("{" ++ w ++ "}")
| sp_object k v o w1 m ts w2 :
    blank w1 -> spelled_member k v m -> spelled_members o ts -> blank w2 ->
    spelled (JObject ((k, v) :: o)) ("{" ++ w1 ++ m ++ ts ++ w2 ++ "}")
with spelled_member : string -> Json -> string -> Prop :=
| sp_member k v kt w1 w2 t :
    spells kt k -> blank w1 -> blank w2 -> spelled v t ->
    spelled_member k v (String quote (kt ++ String quote (w1 ++ ":" ++ w2 ++ t)))
with spelled_elems : list Json -> string -> Prop :=
| se_nil : spelled_elems [] EmptyString
| se_cons x xs w1 w2 t ts :
    blank w1 -> blank w2 -> spelled x t -> spelled_elems xs ts ->
    spelled_elems (x :: xs) (w1 ++ "," ++ w2 ++ t ++ ts)
with spelled_members : list (string * Json) -> string -> Prop :=
| sm_nil : spelled_members [] EmptyString
| sm_cons k v o w1 w2 m ts :
    blank w1 -> blank w2 -> spelled_member k v m -> spelled_members o ts ->
    spelled_members ((k, v) :: o) (w1 ++ "," ++ w2 ++ m ++ ts).

Scheme spelled_ind' := Induction for spelled Sort Prop
with spelled_member_ind' := Induction for spelled_member Sort Prop
with spelled_elems_ind' := Induction for spelled_elems Sort Prop
with spelled_members_ind' := Induction for spelled_members Sort Prop.
Combined Scheme spelled_mutind from spelled_ind', spelled_member_ind', spelled_elems_ind',
  spelled_members_ind'.

(** * Lemmas *)

(** ** Characters and digits *)

Lemma digit_val_char d : (d < 10)%N -> digit_val (digit_char d) = Some d.
Proof.
  intros Hd. unfold digit_val, digit_char.
  rewrite N_ascii_embedding by lia.
  replace ((48 <=? 48 + d)%N && (48 + d <=? 57)%N) with true
    by (symmetry; apply andb_true_intro; split; apply N.leb_le; lia).
  f_equal. lia.
Qed.

Lemma is_digit_char d : (d < 10)%N -> is_digit (digit_char d) = true.
Proof. intros Hd. unfold is_digit. by rewrite digit_val_char. Qed.

Lemma skip_ws_nonws c r : is_ws c = false -> skip_ws (String c r) = String c r.
Proof. intros H. simpl. by rewrite H. Qed.

Lemma digits_str_cons d ds : digits_str (d :: ds) = String (digit_char d) (digits_str ds).
Proof. reflexivity. Qed.

Lemma digits_str_app ds1 ds2 :
  digits_str (ds1 ++ ds2) = (digits_str ds1 ++ digits_str ds2)%string.
Proof.
  induction ds1 as [|d ds IH]; [reflexivity|].
  rewrite <- app_comm_cons, !digits_str_cons, IH. reflexivity.
Qed.

Lemma digits_value_ge acc ds : (acc <= digits_value acc ds)%N.
Proof.
  revert acc. induction ds as [|d ds IH]; intros acc; [done|]. cbn. specialize (IH (acc * 10 + d)%N).
  unfold digits_value in *. lia.
Qed.

Lemma u64_wrap_step acc d : u64_wrap (u64_wrap (acc * 10) + d) = u64_wrap (acc * 10 + d).
Proof. apply N.Div0.add_mod_idemp_l. Qed.

(** One digit of the loop. *)
Lemma parse_digits_digit acc c r d :
  digit_val c = Some d ->
  parse_digits acc (String c r) =
    if (u64_wrap (acc * 10 + d) =? 0)%N then serr InvalidNumber
    else parse_digits (u64_wrap (acc * 10 + d)) r.
Proof.
  intros Hc. cbn [parse_digits]. rewrite Hc, u64_wrap_step.
  generalize (u64_wrap (acc * 10 + d)). intros [|p]; reflexivity.
Qed.

Lemma parse_digits_stop acc rest : no_digit_head rest = true -> parse_digits acc rest = Ok (acc, rest).
Proof.
  destruct rest as [|c r]; [done|]. unfold no_digit_head, is_digit. simpl.
  by destruct (digit_val c).
Qed.

(** Below [2^64] the accumulator never wraps: from a positive [acc], the
    loop reads digits as Horner's rule does. *)
Lemma parse_digits_str ds acc rest :
  Forall (fun d => d < 10)%N ds -> (0 < acc)%N -> (digits_value acc ds < 2 ^ 64)%N ->
  parse_digits acc (digits_str ds ++ rest) = parse_digits (digits_value acc ds) rest.
Proof.
  intros Hds. revert acc.
  induction Hds as [|d ds Hd Hds IH]; intros acc Hacc Hv; [reflexivity|].
  rewrite digits_str_cons. cbn [String.append]. rewrite (parse_digits_digit _ _ _ d) by
    (apply digit_val_char; done).
  change (digits_value acc (d :: ds)) with (digits_value (acc * 10 + d) ds) in *.
  pose proof (digits_value_ge (acc * 10 + d) ds).
  rewrite N.mod_small by lia. destruct (N.eqb_spec (acc * 10 + d) 0); [lia|].
  apply IH; lia.
Qed.

(** ** Decimal printing *)

Section DecDigits.
Local Open Scope N_scope.

Lemma dec_digits_spec f n :
  n < 2 ^ N.of_nat f ->
  Forall (fun d => d < 10) (dec_digits f n) /\
  digits_value 0 (dec_digits f n) = n /\
  exists d ds, dec_digits f n = d :: ds /\ (d = 0 -> n = 0 /\ ds = []).
Proof.
  revert n. induction f as [|f IH]; intros n Hn; simpl.
  - assert (n = 0) as -> by (simpl in Hn; lia).
    split; [repeat constructor; lia|]. split; [reflexivity|]. eauto.
  - destruct (N.ltb_spec n 10) as [Hlt|Hge].
    + split; [repeat constructor; lia|]. split; [reflexivity|].
      exists n, []. auto.
    + rewrite Nat2N.inj_succ, N.pow_succ_r' in Hn.
      destruct (IH (n / 10)) as (Hall & Hval & d & ds & Heq & Hd).
      { apply N.Div0.div_lt_upper_bound. lia. }
      split; [apply Forall_app; split; [done | repeat constructor; apply N.mod_lt; lia]|].
      split.
      * unfold digits_value in *. rewrite foldl_app, Hval. simpl.
        pose proof (N.div_mod n 10). lia.
      * rewrite Heq. exists d, (ds ++ [n mod 10])%list. split; [reflexivity|].
        intros ->. exfalso. destruct (Hd eq_refl) as [Hz _].
        pose proof (N.div_mod n 10). pose proof (N.mod_lt n 10). lia.
Qed.
End DecDigits.

Lemma show_N_spec n :
  Forall (fun d => d < 10)%N (dec_digits (N.to_nat (N.size n)) n) /\
  digits_value 0 (dec_digits (N.to_nat (N.size n)) n) = n /\
  exists d ds, dec_digits (N.to_nat (N.size n)) n = d :: ds /\
               (d = 0%N -> n = 0%N /\ ds = []).
Proof. apply dec_digits_spec. rewrite N2Nat.id. apply N.size_gt. Qed.

(** ** Numbers *)

Lemma digit_char_code d : (d < 10)%N -> N_of_ascii (digit_char d) = (48 + d)%N.
Proof. intros Hd. unfold digit_char. apply N_ascii_embedding. lia. Qed.

Lemma show_N_shape n :
  exists d ds, show_N n = String (digit_char d) (digits_str ds) /\ (d < 10)%N /\
    Forall (fun d => d < 10)%N ds /\ digits_value d ds = n /\
    (d = 0%N -> n = 0%N /\ ds = []).
Proof.
  destruct (show_N_spec n) as (Hall & Hval & d & ds & Heq & Hd).
  unfold show_N. rewrite Heq in Hall, Hval |- *.
  apply Forall_cons in Hall as [Hd10 Hds].
  exists d, ds. split; [reflexivity|]. split; [done|]. split; [done|].
  split; [exact Hval | exact Hd].
Qed.

Lemma parse_unsigned_show_N s0 neg n rest :
  (n < 2 ^ 64)%N -> value_end rest = true ->
  parse_unsigned s0 neg (show_N n ++ rest) = number_tail s0 neg n rest.
Proof.
  intros Hn Hend. apply andb_prop in Hend as [Hnd _].
  destruct (show_N_shape n) as (d & ds & -> & Hd & Hds & Hval & H0).
  cbn [String.append parse_unsigned]. rewrite digit_val_char by done.
  destruct d as [|p].
  - destruct (H0 eq_refl) as [-> ->]. simpl. by rewrite Hnd.
  - rewrite (parse_digits_digit 0 _ _ (N.pos p)) by (apply digit_val_char; done).
    rewrite N.mod_small by lia. change (0 * 10 + N.pos p)%N with (N.pos p).
    change (N.pos p =? 0)%N with false. cbv iota.
    rewrite parse_digits_str, Hval, parse_digits_stop by (done || lia). reflexivity.
Qed.

Lemma number_tail_U64 s0 n rest :
  value_end rest = true -> number_tail s0 false n rest = Ok (JU64 n, rest).
Proof.
  intros Hend. apply andb_prop in Hend as [_ Hf]. apply negb_true_iff in Hf.
  unfold number_tail. by rewrite Hf.
Qed.

Lemma number_tail_I64 s0 n rest :
  (n <= 2 ^ 63)%N -> value_end rest = true ->
  number_tail s0 true n rest = Ok (JI64 (- Z.of_N n)%Z, rest).
Proof.
  intros Hn Hend. apply andb_prop in Hend as [_ Hf]. apply negb_true_iff in Hf.
  unfold number_tail. rewrite Hf.
  destruct (N.leb_spec n (2 ^ 63)); [reflexivity | lia].
Qed.

Lemma parse_number_U64 n rest :
  (n < 2 ^ 64)%N -> value_end rest = true ->
  parse_number (show_N n ++ rest) = Ok (JU64 n, rest).
Proof.
  intros Hn Hend.
  destruct (show_N_shape n) as (d & ds & Hshow & Hd & _).
  rewrite <- (number_tail_U64 (show_N n ++ rest) n rest) by done.
  rewrite <- parse_unsigned_show_N by done.
  rewrite Hshow. simpl. rewrite decide_False; [reflexivity|].
  intros Heq. apply (f_equal N_of_ascii) in Heq.
  rewrite digit_char_code in Heq by done. simpl in Heq. lia.
Qed.

Lemma parse_number_I64 z rest :
  (z < 0)%Z -> (- 2 ^ 63 <= z)%Z -> value_end rest = true ->
  parse_number (show_Z z ++ rest) = Ok (JI64 z, rest).
Proof.
  intros Hneg Hlo Hend. unfold show_Z.
  destruct (Z.ltb_spec z 0); [|lia]. cbn [String.append parse_number].
  rewrite decide_True by done.
  rewrite parse_unsigned_show_N by (done || lia).
  rewrite number_tail_I64 by (done || lia).
  repeat f_equal. lia.
Qed.

(** ** Strings *)

Lemma parse_str_escape s rest :
  parse_str (escape_chars s ++ String quote rest) = Ok (s, rest).
Proof.
  induction s as [|c s IH]; [reflexivity|].
  cbn [escape_chars]. rewrite str_app_assoc. unfold escape_char.
  repeat case_decide; subst; simpl; rewrite ?IH; try reflexivity.
  by rewrite !decide_False.
Qed.

Lemma escape_str_app s rest :
  (escape_str s ++ rest)%string = String quote (escape_chars s ++ String quote rest).
Proof. unfold escape_str. simpl. by rewrite str_app_assoc. Qed.

(** ** The value parser on printed text *)

Lemma strip_prefix_app w s : strip_prefix w (w ++ s) = Some s.
Proof. induction w; simpl; [reflexivity|]. by rewrite decide_True. Qed.

Lemma join_with_cons sep x xs : join_with sep (x :: xs) = x ++ prefixed sep xs.
Proof.
  revert x. induction xs as [|y ys IH]; intros x.
  - simpl. by rewrite str_app_nil_r.
  - change (join_with sep (x :: y :: ys)) with (x ++ sep ++ join_with sep (y :: ys)).
    by rewrite IH.
Qed.

Lemma is_ws_false c :
  (14 <= N_of_ascii c)%N -> N_of_ascii c <> 32%N -> is_ws c = false.
Proof.
  intros H1 H2. unfold is_ws.
  destruct (N.eqb_spec (N_of_ascii c) 32), (N.eqb_spec (N_of_ascii c) 10),
    (N.eqb_spec (N_of_ascii c) 9), (N.eqb_spec (N_of_ascii c) 13);
    simpl; lia || reflexivity.
Qed.

Lemma digit_val_code c d : digit_val c = Some d -> (48 <= N_of_ascii c <= 57)%N.
Proof.
  unfold digit_val. destruct (N.leb_spec 48 (N_of_ascii c)),
    (N.leb_spec (N_of_ascii c) 57); simpl; intros; done || lia.
Qed.

(** A value that starts with a digit goes to [parse_number]. *)
Lemma parse_value_digit k c r :
  (48 <= N_of_ascii c <= 57)%N ->
  parse_value (S k) (String c r) = parse_number (String c r).
Proof.
  intros Hc. cbn [parse_value]. rewrite skip_ws_nonws by (apply is_ws_false; lia).
  rewrite !decide_False by (intros ->; simpl in Hc; lia).
  replace (is_digit c) with true; [by rewrite orb_true_r|].
  unfold is_digit, digit_val. destruct (N.leb_spec 48 (N_of_ascii c)),
    (N.leb_spec (N_of_ascii c) 57); simpl; done || lia.
Qed.

(** Every canonical value prints to a text whose first character is not
    whitespace and closes no bracket. *)
Lemma to_string_head j :
  json_canon j = true ->
  exists c t, to_string j = String c t /\ (14 <= N_of_ascii c)%N /\
    N_of_ascii c <> 32%N /\ c <> "]"%char /\ c <> "}"%char.
Proof.
  intros Hc. destruct j; simpl in Hc |- *; try discriminate.
  - unfold show_Z. destruct (Z.ltb_spec z 0); [|lia].
    eexists _, _; split; [reflexivity|]. simpl. repeat split; (lia || discriminate).
  - destruct (show_N_shape n) as (d & ds & -> & Hd & _).
    exists (digit_char d), (digits_str ds). rewrite digit_char_code by done.
    repeat split; try lia; intros Heq; apply (f_equal N_of_ascii) in Heq;
      rewrite digit_char_code in Heq by done; simpl in Heq; lia.
  - eexists _, _; split; [reflexivity|]. simpl. repeat split; (lia || discriminate).
  - destruct b; (eexists _, _; split; [reflexivity|]); simpl;
      repeat split; (lia || discriminate).
  - eexists _, _; split; [reflexivity|]. simpl. repeat split; (lia || discriminate).
  - eexists _, _; split; [reflexivity|]. simpl. repeat split; (lia || discriminate).
  - eexists _, _; split; [reflexivity|]. simpl. repeat split; (lia || discriminate).
Qed.

Lemma value_end_close_list xs rest :
  value_end (prefixed "," xs ++ String "]" rest) = true.
Proof. by destruct xs. Qed.

Lemma value_end_close_object xs rest :
  value_end (prefixed "," xs ++ String "}" rest) = true.
Proof. by destruct xs. Qed.

Lemma length_prefixed_cons sep x xs :
  String.length (prefixed sep (x :: xs)) =
  String.length sep + String.length x + String.length (prefixed sep xs).
Proof. simpl. rewrite !str_length_app. lia. Qed.

(** The property proved of every canonical value. *)
Definition parses_back (j : Json) : Prop :=
  forall k rest, String.length (to_string j) <= k -> value_end rest = true ->
  parse_value k (to_string j ++ rest) = Ok (j, rest).

Lemma parse_key_member k rest :
  parse_key (escape_str k ++ String ":" rest) = Ok (k, rest).
Proof.
  rewrite escape_str_app. cbn [parse_key]. rewrite decide_True by done.
  rewrite parse_str_escape. reflexivity.
Qed.

Lemma parse_list_rest_elems xs :
  Forall parses_back xs ->
  forall k acc rest,
  String.length (prefixed "," (map to_string xs)) < k ->
  parse_list_rest k (prefixed "," (map to_string xs) ++ String "]" rest) acc
  = Ok (JList (rev acc ++ xs), rest).
Proof.
  induction 1 as [|x xs Hx Hxs IH]; intros k acc rest Hk;
    (destruct k as [|k]; [simpl in Hk; lia|]).
  - simpl. by rewrite app_nil_r.
  - rewrite map_cons, length_prefixed_cons in Hk. simpl in Hk.
    cbn [map prefixed]. rewrite !str_app_assoc. simpl.
    rewrite Hx by (lia || apply value_end_close_list). simpl.
    rewrite IH by lia. cbn [rev]. by rewrite <- app_assoc.
Qed.

Lemma parse_object_rest_members o :
  Forall (fun kv => parses_back (snd kv)) o ->
  forall k acc rest,
  String.length (prefixed "," (map member_string o)) < k ->
  parse_object_rest k (prefixed "," (map member_string o) ++ String "}" rest) acc
  = Ok (JObject (rev acc ++ o), rest).
Proof.
  induction 1 as [|[key v] o Hv Ho IH]; intros k acc rest Hk;
    (destruct k as [|k]; [simpl in Hk; lia|]).
  - simpl. by rewrite app_nil_r.
  - rewrite map_cons, length_prefixed_cons in Hk.
    unfold member_string in Hk at 1. simpl in Hk. rewrite !str_length_app in Hk.
    cbn [map prefixed]. unfold member_string at 1. simpl fst; simpl snd.
    rewrite !str_app_assoc. cbn [String.append parse_object_rest].
    rewrite escape_str_app, !skip_ws_nonws by reflexivity. cbv beta iota.
    rewrite decide_False by (unfold quote; discriminate).
    rewrite <- escape_str_app, parse_key_member. simpl.
    rewrite Hv by (simpl in Hk |- *; lia || apply value_end_close_object). simpl.
    rewrite IH by lia. cbn [rev]. by rewrite <- app_assoc.
Qed.

Lemma parse_value_minus k r :
  parse_value (S k) (String "-" r) = parse_number (String "-" r).
Proof. reflexivity. Qed.

Lemma parse_value_quote k r :
  parse_value (S k) (String quote r) = rmap (fun p => (JString (fst p), snd p)) (parse_str r).
Proof. reflexivity. Qed.

Lemma show_Z_neg z : (z < 0)%Z -> show_Z z = String "-" (show_N (Z.to_N (- z))).
Proof. intros Hz. unfold show_Z. by destruct (Z.ltb_spec z 0); [|lia]. Qed.

Lemma to_string_object o :
  to_string (JObject o) = ("{" ++ join_with "," (map member_string o) ++ "}")%string.
Proof. reflexivity. Qed.

(** Opening bracket, a first element that does not start with [\]], the
    remaining elements. *)
Lemma parse_value_open_list k x r :
  json_canon x = true ->
  parse_value (S k) (String "[" (to_string x ++ r)) =
  (p <- parse_value k (to_string x ++ r) ;; parse_list_rest k (snd p) [fst p]).
Proof.
  intros Hx. destruct (to_string_head x Hx) as (c & t & Ht & H14 & H32 & Hc & _).
  cbn [parse_value]. rewrite skip_ws_nonws by reflexivity. simpl.
  rewrite Ht. cbn [String.append]. rewrite skip_ws_nonws by (apply is_ws_false; lia).
  by rewrite decide_False.
Qed.

Lemma parses_back_all j : json_canon j = true -> parses_back j.
Proof.
  induction j as [z|n|lx|s|b|l IH|o IH|] using Json_ind_nested;
    intros Hc k rest Hk Hend;
    (destruct k as [|k];
     [destruct (to_string_head _ Hc) as (c & t & Ht & _); rewrite Ht in Hk;
      simpl in Hk; lia|]);
    simpl in Hc.
  - apply andb_prop in Hc as [Hneg Hlo]. apply Z.ltb_lt in Hneg. apply Z.leb_le in Hlo.
    cbn [to_string]. rewrite show_Z_neg, str_app_cons, parse_value_minus by done.
    rewrite <- str_app_cons, <- show_Z_neg by done. by apply parse_number_I64.
  - apply N.ltb_lt in Hc. cbn [to_string].
    destruct (show_N_shape n) as (d & ds & Hs & Hd & _).
    rewrite Hs, str_app_cons, parse_value_digit by (rewrite digit_char_code; lia).
    rewrite <- str_app_cons, <- Hs. by apply parse_number_U64.
  - discriminate.
  - cbn [to_string]. rewrite escape_str_app, parse_value_quote, parse_str_escape.
    reflexivity.
  - by destruct b.
  - destruct l as [|x xs]; [reflexivity|].
    apply Forall_forallb_impl in IH; [|done]. apply Forall_cons in IH as [Hx Hxs].
    simpl in Hc. apply andb_prop in Hc as [Hcx _].
    cbn [to_string map] in Hk |- *. rewrite join_with_cons in Hk |- *.
    rewrite !str_length_app in Hk. simpl in Hk.
    rewrite !str_app_assoc. cbn [String.append].
    rewrite parse_value_open_list by done.
    rewrite Hx by (lia || apply value_end_close_list). simpl.
    rewrite parse_list_rest_elems by (done || lia). reflexivity.
  - destruct o as [|[key v] o]; [reflexivity|].
    apply Forall_forallb_impl in IH; [|done]. apply Forall_cons in IH as [Hv Ho].
    simpl in Hv.
    rewrite to_string_object, map_cons, join_with_cons in Hk |- *.
    unfold member_string at 1 in Hk. unfold member_string at 1.
    simpl in Hk. rewrite !str_length_app in Hk. simpl in Hk.
    rewrite !str_app_assoc. cbn [String.append parse_value].
    rewrite skip_ws_nonws by reflexivity. simpl.
    rewrite str_app_assoc. cbn [String.append]. rewrite parse_str_escape. simpl.
    rewrite Hv by (lia || apply value_end_close_object). simpl.
    rewrite parse_object_rest_members by (done || lia). reflexivity.
  - reflexivity.
Qed.

Lemma from_str_print j : json_canon j = true -> from_str (to_string j) = Ok j.
Proof.
  intros Hc. unfold from_str.
  pose proof (parses_back_all j Hc (S (String.length (to_string j))) EmptyString) as H.
  rewrite str_app_nil_r in H. rewrite H by (lia || reflexivity). reflexivity.
Qed.

(** ** Termination: the fuel of [from_str] is always enough *)

Lemma advances_serr {A} m c : @advances A m (serr c).
Proof. discriminate. Qed.

Lemma advances_mono {A} m m' (x : result (A * string) ParserError) :
  m <= m' -> advances m x -> advances m' x.
Proof. destruct x as [[? ?]|?]; simpl; [lia | done]. Qed.

Lemma advances_rbind {A B} m m' (x : result (A * string) ParserError)
    (f : A * string -> result (B * string) ParserError) :
  advances m x -> (forall a r, String.length r < m -> advances m' (f (a, r))) ->
  advances m' (rbind x f).
Proof. destruct x as [[? ?]|?]; simpl; auto. Qed.

Lemma advances_rmap {A B} m (f : A * string -> B * string) x :
  (forall p, snd (f p) = snd p) -> advances m x -> advances m (rmap f x).
Proof. intros Hf. destruct x as [[a r]|?]; simpl; [|done]. specialize (Hf (a, r)). destruct (f (a, r)); simpl in *; congruence. Qed.

#[local] Hint Resolve advances_serr : wtftw.

Lemma skip_ws_length s : String.length (skip_ws s) <= String.length s.
Proof. induction s as [|c r IH]; simpl; [lia|]. destruct (is_ws c); simpl; lia. Qed.

Lemma substring_length_le n m s : String.length (substring n m s) <= String.length s.
Proof.
  revert n m. induction s as [|c r IH]; intros [|n] [|m]; simpl; try lia;
    match goal with |- context [substring ?a ?b r] => specialize (IH a b); lia end.
Qed.

Lemma parse_digits_advances acc s : advances (S (String.length s)) (parse_digits acc s).
Proof.
  revert acc. induction s as [|c r IH]; intros acc; simpl; [lia|].
  destruct (digit_val c) as [d|]; simpl; [|lia]. case_match; [done|].
  eapply advances_mono; [|apply IH]. lia.
Qed.

Lemma skip_ws_cons_length s c r : skip_ws s = String c r -> String.length r < String.length s.
Proof. intros H. pose proof (skip_ws_length s) as Hl. rewrite H in Hl. simpl in Hl. lia. Qed.

Lemma strip_prefix_length w s r : strip_prefix w s = Some r -> String.length r <= String.length s.
Proof.
  revert s. induction w as [|a w IH]; intros [|b s] H; simpl in H; try discriminate.
  - injection H as <-. lia.
  - injection H as <-. simpl. lia.
  - case_decide; [apply IH in H; simpl; lia | discriminate].
Qed.

Lemma parse_ident_advances w v s : advances (S (String.length s)) (parse_ident w v s).
Proof.
  unfold parse_ident. destruct (strip_prefix w s) eqn:H; [|done].
  apply strip_prefix_length in H. simpl. lia.
Qed.

(** A recursive call of [parse_str] on a shorter suffix, under [rmap]. *)
Ltac advances_rmap IH :=
  apply advances_rmap; [intros; reflexivity|];
  eapply advances_mono; [|apply IH]; simpl; lia.

(** ** Hex digits of [\u] escapes *)

Lemma hex_val_lt c d : hex_val c = Some d -> (d < 16)%N.
Proof. unfold hex_val. cbv zeta. ltb_cases; cbn; intros; simplify_eq; lia. Qed.

(** [decode_hex_escape] computes in [u16]: four digits never overflow. *)
Lemma hex4_lt a b c d n : hex4 a b c d = Some n -> (n < 65536)%N.
Proof.
  unfold hex4.
  destruct (hex_val a) eqn:Ha, (hex_val b) eqn:Hb, (hex_val c) eqn:Hc, (hex_val d) eqn:Hd; try done.
  intros [= <-]. apply hex_val_lt in Ha, Hb, Hc, Hd. lia.
Qed.

Lemma hex_val_digit d : (d < 16)%N -> hex_val (hex_digit d) = Some d.
Proof.
  intros Hd. unfold hex_digit, hex_val. cbv zeta.
  destruct (N.ltb_spec d 10); rewrite N_ascii_embedding by lia; ltb_cases; cbn; f_equal; lia.
Qed.

Lemma hex4_digits n : (n < 65536)%N ->
  hex4 (hex_digit (n / 4096 mod 16)) (hex_digit (n / 256 mod 16))
       (hex_digit (n / 16 mod 16)) (hex_digit (n mod 16)) = Some n.
Proof. intros Hn. unfold hex4. rewrite !hex_val_digit by (apply N.mod_lt; lia). f_equal. lia_div. Qed.

(** ** The [\u] escape, for any continuation [k] *)

Section UnicodeEscape.
Variable k : string -> result (string * string) ParserError.

(** [unicode_escape] fails with a syntax error or calls [k] on a strict
    suffix, so it advances when [k] does on shorter text. *)
Lemma unicode_escape_advances m s :
  (forall s', String.length s' < String.length s -> advances m (k s')) ->
  advances m (unicode_escape k s).
Proof.
  intros Hk. unfold unicode_escape, decode_hex_escape.
  destruct s as [|h1 [|h2 [|h3 [|h4 r1]]]]; try done. destruct (hex4 h1 h2 h3 h4); [|done].
  repeat (case_match; subst; try done);
    (apply advances_rmap; [done|]); apply Hk; simpl; lia.
Qed.

(** Text appended after an escape that [k] completes goes to [k]. *)
Lemma unicode_escape_app s u p :
  (forall s' q, String.length s' < String.length s -> k s' = Ok q ->
     k (s' ++ u) = Ok (fst q, snd q ++ u)) ->
  unicode_escape k s = Ok p -> unicode_escape k (s ++ u) = Ok (fst p, snd p ++ u).
Proof.
  intros Hk. unfold unicode_escape, decode_hex_escape.
  destruct s as [|h1 [|h2 [|h3 [|h4 r1]]]]; try done. cbn [String.append].
  destruct (hex4 h1 h2 h3 h4); [|done]. case_match; [done|]. case_match.
  - destruct r1 as [|b [|c r2]]; try done. cbn [String.append]. case_match; [|done].
    destruct r2 as [|g1 [|g2 [|g3 [|g4 r3]]]]; try done. cbn [String.append].
    destruct (hex4 g1 g2 g3 g4); [|done]. case_match; [|done].
    destruct p0 as [[c'|?] ?]; [|done].
    intros ([q1 q2] & Hq & ->)%rmap_Ok_inv. erewrite (Hk _ (q1, q2)); [reflexivity | simpl; lia | exact Hq].
  - destruct (from_u32 _); [|done].
    intros ([q1 q2] & Hq & ->)%rmap_Ok_inv. erewrite (Hk _ (q1, q2)); [reflexivity | simpl; lia | exact Hq].
Qed.

(** A unit that is not a surrogate is one character. *)
Lemma unicode_escape_unit h1 h2 h3 h4 r n :
  hex4 h1 h2 h3 h4 = Some n -> (n < 0xD800 \/ 0xDFFF < n)%N ->
  unicode_escape k (String h1 (String h2 (String h3 (String h4 r)))) =
  rmap (app_fst (push_char n)) (k r).
Proof.
  intros Hh Hn. pose proof (hex4_lt _ _ _ _ _ Hh).
  unfold unicode_escape, decode_hex_escape, from_u32. rewrite Hh. by ltb_cases.
Qed.

(** A leading and a trailing surrogate are one character of the
    supplementary planes. *)
Lemma unicode_escape_pair h1 h2 h3 h4 g1 g2 g3 g4 r hi lo :
  hex4 h1 h2 h3 h4 = Some hi -> hex4 g1 g2 g3 g4 = Some lo ->
  (0xD800 <= hi <= 0xDBFF)%N -> (0xDC00 <= lo <= 0xDFFF)%N ->
  unicode_escape k (String h1 (String h2 (String h3 (String h4 (String backslash
    (String "u" (String g1 (String g2 (String g3 (String g4 r)))))))))) =
  rmap (app_fst (push_char (0x10000 + (hi - 0xD800) * 1024 + (lo - 0xDC00)))) (k r).
Proof.
  intros Hh Hg Hhi Hlo. destruct (utf16_surrogate_pair hi lo Hhi Hlo) as (c & Hc & -> & _).
  unfold unicode_escape, decode_hex_escape. rewrite Hh. ltb_cases. cbn -[utf16_items_next push_char].
  by rewrite Hg, Hc.
Qed.

(** The three ways a surrogate escape is malformed. *)
Lemma unicode_escape_trail_first h1 h2 h3 h4 r n :
  hex4 h1 h2 h3 h4 = Some n -> (0xDC00 <= n <= 0xDFFF)%N ->
  unicode_escape k (String h1 (String h2 (String h3 (String h4 r)))) =
  serr LoneLeadingSurrogateInHexEscape.
Proof. intros Hh Hn. unfold unicode_escape, decode_hex_escape. rewrite Hh. by ltb_cases. Qed.

Lemma unicode_escape_lead_alone h1 h2 h3 h4 r n :
  hex4 h1 h2 h3 h4 = Some n -> (0xD800 <= n <= 0xDBFF)%N ->
  (forall t, r <> String backslash (String "u" t)) ->
  unicode_escape k (String h1 (String h2 (String h3 (String h4 r)))) =
  serr UnexpectedEndOfHexEscape.
Proof.
  intros Hh Hn Hr. unfold unicode_escape, decode_hex_escape. rewrite Hh. ltb_cases. cbn.
  destruct r as [|b [|c t]]; try done. case_bool_decide as Hbc; [|done].
  destruct Hbc as [-> ->]. by destruct (Hr t).
Qed.

Lemma unicode_escape_lead_no_trail h1 h2 h3 h4 g1 g2 g3 g4 r hi lo :
  hex4 h1 h2 h3 h4 = Some hi -> hex4 g1 g2 g3 g4 = Some lo ->
  (0xD800 <= hi <= 0xDBFF)%N -> ~ (0xDC00 <= lo <= 0xDFFF)%N ->
  unicode_escape k (String h1 (String h2 (String h3 (String h4 (String backslash
    (String "u" (String g1 (String g2 (String g3 (String g4 r)))))))))) =
  serr LoneLeadingSurrogateInHexEscape.
Proof.
  intros Hh Hg Hhi Hlo. unfold unicode_escape, decode_hex_escape. rewrite Hh. ltb_cases.
  cbn -[utf16_items_next]. rewrite Hg. cbn. by ltb_cases.
Qed.

(** [InvalidUnicodeCodePoint] is never raised: a 16-bit unit that is not a
    surrogate is always a scalar value. *)
Lemma unicode_escape_not_invalid s :
  (forall s', String.length s' < String.length s -> k s' <> serr InvalidUnicodeCodePoint) ->
  unicode_escape k s <> serr InvalidUnicodeCodePoint.
Proof.
  intros Hk. unfold unicode_escape, decode_hex_escape.
  destruct s as [|h1 [|h2 [|h3 [|h4 r1]]]]; try done.
  destruct (hex4 h1 h2 h3 h4) as [n|] eqn:Hh; [|done]. pose proof (hex4_lt _ _ _ _ _ Hh).
  repeat (case_match; subst; try done);
    try (let E := fresh in intros E; apply rmap_Err_inv in E; revert E; apply Hk; simpl; lia).
  unfold from_u32 in *.
  repeat match goal with H : context [N.leb] |- _ => revert H end.
  ltb_cases; cbn; intros; congruence.
Qed.

End UnicodeEscape.

Lemma parse_str_advances s : advances (String.length s) (parse_str s).
Proof.
  induction s as [s IH] using (induction_ltof1 _ String.length). unfold ltof in IH.
  destruct s as [|c r]; [done|]. cbn [parse_str].
  case_decide; [simpl; lia|]. case_decide; [|advances_rmap IH].
  destruct r as [|e r']; [done|].
  destruct (unescape e); [advances_rmap IH|]. case_decide; [|done].
  apply unicode_escape_advances. intros s' Hs'. eapply advances_mono; [|apply IH]; simpl in *; lia.
Qed.

Lemma parse_decimal_shape s :
  (exists r, parse_decimal s = Ok r /\ String.length r <= String.length s) \/
  exists c, parse_decimal s = serr c.
Proof.
  unfold parse_decimal. destruct s as [|[[] [] [] [] [] [] [] []] r]; eauto;
    destruct (span_digits r); eauto;
    left; eexists; split; [reflexivity|]; pose proof (substring_length_le (S n) (String.length r) r); simpl; lia.
Qed.

Lemma parse_exponent_shape s :
  (exists r, parse_exponent s = Ok r /\ String.length r <= String.length s) \/
  exists c, parse_exponent s = serr c.
Proof.
  unfold parse_exponent. destruct s as [|e r]; [eauto|]. case_decide; [|left; eauto].
  match goal with |- context [span_digits ?r1] => set (r0 := r1) end.
  assert (Hr0 : String.length r0 <= String.length r).
  { subst r0. destruct r as [|sg r']; [done|]. case_decide; simpl; lia. }
  destruct (span_digits r0) as [|k]; [eauto|]. left. eexists; split; [reflexivity|].
  pose proof (substring_length_le (S k) (String.length r0) r0). simpl. lia.
Qed.

Lemma number_tail_advances s0 neg n r m :
  String.length r < m -> advances m (number_tail s0 neg n r).
Proof.
  intros Hr. unfold number_tail. case_match.
  - destruct (parse_decimal_shape r) as [(r1 & -> & H1) | (c & ->)]; [|done]. simpl.
    destruct (parse_exponent_shape r1) as [(r2 & -> & H2) | (c & ->)]; [|done].
    simpl. lia.
  - destruct neg; [case_match|]; simpl; done || lia.
Qed.

Lemma parse_unsigned_advances s0 neg s1 : advances (String.length s1) (parse_unsigned s0 neg s1).
Proof.
  destruct s1 as [|c r]; [done|]. cbn [parse_unsigned].
  destruct (digit_val c) as [[|d]|] eqn:Hc; [| |done].
  - case_match; [apply number_tail_advances; simpl; lia | done].
  - rewrite (parse_digits_digit _ _ _ (N.pos d) Hc). case_match; [done|].
    eapply advances_rbind; [apply parse_digits_advances|]. intros. apply number_tail_advances.
    simpl. lia.
Qed.

Lemma parse_number_advances s : advances (String.length s) (parse_number s).
Proof.
  destruct s as [|c r]; [done|]. cbn [parse_number]. case_decide.
  - eapply advances_mono; [|apply parse_unsigned_advances]. simpl. lia.
  - apply parse_unsigned_advances.
Qed.

Lemma parse_key_advances s : advances (String.length s) (parse_key s).
Proof.
  destruct s as [|c r]; [done|]. cbn [parse_key]. case_decide; [|done].
  eapply advances_rbind; [apply parse_str_advances|]. intros k r0 Hr0. cbn [snd fst].
  destruct (skip_ws r0) as [|c' r'] eqn:E; [done|].
  pose proof (skip_ws_cons_length _ _ _ E).
  destruct c' as [[] [] [] [] [] [] [] []]; simpl; done || lia.
Qed.

(** One unit of fuel more: if every call with fuel [n] on fewer than [n]
    characters advances, so does every call with fuel [S n]. *)
Section FuelStep.
Variable n : nat.
Hypothesis IHv : forall s, String.length s < n -> advances (String.length s) (parse_value n s).
Hypothesis IHl : forall s acc, String.length s < n ->
  advances (String.length s) (parse_list_rest n s acc).
Hypothesis IHo : forall s acc, String.length s < n ->
  advances (String.length s) (parse_object_rest n s acc).

Lemma advances_elem r1 acc m :
  String.length r1 < n -> String.length r1 < m ->
  advances m (p <- parse_value n r1 ;; parse_list_rest n (snd p) (fst p :: acc)).
Proof.
  intros Hn Hm. eapply advances_rbind; [apply IHv, Hn|]. intros a r0 Hr0.
  eapply advances_mono; [|apply IHl]; simpl; lia.
Qed.

Lemma advances_member r1 acc m :
  String.length r1 < n -> String.length r1 < m ->
  advances m (kr <- parse_key r1 ;; p <- parse_value n (snd kr) ;;
              parse_object_rest n (snd p) ((fst kr, fst p) :: acc)).
Proof.
  intros Hn Hm. eapply advances_rbind; [apply parse_key_advances|]. intros k r0 Hr0.
  eapply advances_rbind; [apply IHv; simpl; lia|]. intros a r2 Hr2.
  eapply advances_mono; [|apply IHo]; simpl in *; lia.
Qed.

Lemma parse_value_advances_S s :
  String.length s < S n -> advances (String.length s) (parse_value (S n) s).
Proof.
  intros Hs. cbn [parse_value]. pose proof (skip_ws_length s) as Hw.
  destruct (skip_ws s) as [|c r] eqn:E; [done|]. simpl in Hw.
  case_decide; [eapply advances_mono; [|apply parse_ident_advances]; lia|].
  case_decide; [eapply advances_mono; [|apply parse_ident_advances]; lia|].
  case_decide; [eapply advances_mono; [|apply parse_ident_advances]; lia|].
  case_decide; [apply advances_rmap; [done|];
                eapply advances_mono; [|apply parse_str_advances]; lia|].
  pose proof (skip_ws_length r) as Hr.
  case_decide; [destruct (skip_ws r) as [|c' r'] eqn:E'; [done|]; simpl in Hr;
                case_decide; [simpl; lia | apply advances_elem; simpl; lia]|].
  case_decide; [destruct (skip_ws r) as [|c' r'] eqn:E'; [done|]; simpl in Hr;
                case_decide; [simpl; lia | apply advances_member; simpl; lia]|].
  case_match; [|done]. eapply advances_mono; [|apply parse_number_advances]. simpl. lia.
Qed.

Lemma parse_list_rest_advances_S s acc :
  String.length s < S n -> advances (String.length s) (parse_list_rest (S n) s acc).
Proof.
  intros Hs. cbn [parse_list_rest].
  destruct (skip_ws s) as [|c r] eqn:E; [done|]. pose proof (skip_ws_cons_length _ _ _ E).
  destruct c as [[] [] [] [] [] [] [] []]; simpl; try done; try lia; apply advances_elem; lia.
Qed.

Lemma parse_object_rest_advances_S s acc :
  String.length s < S n -> advances (String.length s) (parse_object_rest (S n) s acc).
Proof.
  intros Hs. cbn [parse_object_rest].
  destruct (skip_ws s) as [|c r] eqn:E; [done|]. pose proof (skip_ws_cons_length _ _ _ E).
  pose proof (skip_ws_length r).
  destruct c as [[] [] [] [] [] [] [] []]; cbn -[parse_key]; try done; try lia.
  destruct (skip_ws r) as [|c' r'] eqn:E'; [done|]. cbn [String.length] in *.
  case_decide; [done|]. apply advances_member; simpl; lia.
Qed.
End FuelStep.

Lemma parse_advances n :
  (forall s, String.length s < n -> advances (String.length s) (parse_value n s)) /\
  (forall s acc, String.length s < n -> advances (String.length s) (parse_list_rest n s acc)) /\
  (forall s acc, String.length s < n -> advances (String.length s) (parse_object_rest n s acc)).
Proof.
  induction n as [|n (IHv & IHl & IHo)]; [repeat split; intros; lia|].
  split; [|split]; intros.
  - by apply parse_value_advances_S.
  - by apply parse_list_rest_advances_S.
  - by apply parse_object_rest_advances_S.
Qed.

(** [from_str] never runs out of fuel: it succeeds or fails with one of
    the library's syntax errors. *)
Lemma from_str_no_fuel_error s : from_str s <> Err FuelExhausted.
Proof.
  unfold from_str.
  assert (H : advances (String.length s) (parse_value (S (String.length s)) s))
    by (apply (proj1 (parse_advances (S (String.length s)))); lia).
  destruct (parse_value _ s) as [[j r]|e]; simpl; [|congruence].
  destruct (skip_ws r); discriminate.
Qed.

(** ** Appending text after a value *)

Lemma ends_before_cons c r u : ends_before (String c r) u = true.
Proof. reflexivity. Qed.

Lemma ends_before_no_digit r u :
  ends_before r u = true -> no_digit_head (r ++ u) = no_digit_head r.
Proof. destruct r; simpl; [unfold value_end; intros [-> _]%andb_prop|]; reflexivity. Qed.

Lemma ends_before_starts_float r u :
  ends_before r u = true -> starts_float (r ++ u) = starts_float r.
Proof.
  destruct r; simpl; [unfold value_end; intros [_ ?%negb_true_iff]%andb_prop|]; done.
Qed.

#[local] Hint Resolve ends_before_cons : wtftw.

Lemma skip_ws_app s u c r : skip_ws s = String c r -> skip_ws (s ++ u) = String c (r ++ u).
Proof.
  induction s as [|c' s IH]; simpl; [discriminate|].
  destruct (is_ws c'); [apply IH | intros [= -> ->]; reflexivity].
Qed.

Lemma skip_ws_app_empty s u : skip_ws s = EmptyString -> skip_ws (s ++ u) = skip_ws u.
Proof.
  induction s as [|c s IH]; simpl; [done|]. destruct (is_ws c); [apply IH | discriminate].
Qed.

Lemma strip_prefix_app_rest w s u r :
  strip_prefix w s = Some r -> strip_prefix w (s ++ u) = Some (r ++ u).
Proof.
  revert s. induction w as [|a w IH]; intros [|b s] H;
    cbn [strip_prefix] in H |- *; try congruence.
  cbn [String.append strip_prefix].
  destruct (decide (a = b)); [by apply IH | discriminate].
Qed.

Lemma parse_digits_app acc t u n r :
  parse_digits acc t = Ok (n, r) -> ends_before r u = true ->
  parse_digits acc (t ++ u) = Ok (n, r ++ u).
Proof.
  revert acc. induction t as [|c t IH]; intros acc H Hr; simpl in H |- *.
  - injection H as <- <-. destruct u as [|c u]; [done|]. cbn [String.append parse_digits].
    unfold ends_before, value_end, no_digit_head, is_digit in Hr.
    destruct (digit_val c); [discriminate | reflexivity].
  - destruct (digit_val c); [case_match; [done | by apply IH] | by injection H as <- <-].
Qed.

Lemma span_digits_le t : span_digits t <= String.length t.
Proof. induction t as [|c t IH]; simpl; [lia|]. destruct (is_digit c); lia. Qed.

(** The digits at the head of [t ++ u] are those of [t] when something
    stops them before [u]. *)
Lemma span_digits_app t u :
  ends_before (str_drop (span_digits t) t) u = true -> span_digits (t ++ u) = span_digits t.
Proof.
  induction t as [|c t IH]; intros H.
  - destruct u as [|c u]; [reflexivity|]. unfold ends_before, value_end, no_digit_head in H.
    cbn [span_digits String.append]. destruct (is_digit c); [by simpl in H | reflexivity].
  - cbn [span_digits String.append] in *.
    destruct (is_digit c); [cbn [str_drop] in H; by rewrite IH | reflexivity].
Qed.


(** A run of at least one digit, then what follows it. *)
Lemma digits_tail_app t u k :
  span_digits t = S k ->
  ends_before (substring (S k) (String.length t) t) u = true ->
  match span_digits (t ++ u) with
  | O => serr InvalidNumber
  | k' => Ok (substring k' (String.length (t ++ u)) (t ++ u))
  end = Ok (substring (S k) (String.length t) t ++ u).
Proof.
  intros Hk Hr. pose proof (span_digits_le t) as Hle.
  rewrite span_digits_app, Hk.
  - f_equal. rewrite !substring_drop by (rewrite ?str_length_app; lia).
    apply str_drop_app. lia.
  - rewrite Hk, <- (substring_drop _ (String.length t)) by lia. done.
Qed.

Lemma parse_decimal_other c t : c <> "."%char -> parse_decimal (String c t) = Ok (String c t).
Proof. intros H. destruct c as [[] [] [] [] [] [] [] []]; reflexivity || congruence. Qed.

Lemma parse_decimal_plain u : starts_float u = false -> parse_decimal u = Ok u.
Proof.
  destruct u as [|c u]; [done|]. unfold starts_float. intros H.
  apply parse_decimal_other. intros ->. by rewrite bool_decide_true in H by auto.
Qed.

Lemma parse_exponent_plain u : starts_float u = false -> parse_exponent u = Ok u.
Proof.
  destruct u as [|c u]; [done|]. unfold starts_float. intros H.
  cbn [parse_exponent]. rewrite decide_False; [done|].
  intros Hc. rewrite bool_decide_true in H by tauto. discriminate.
Qed.

Lemma value_end_starts_float u : value_end u = true -> starts_float u = false.
Proof. unfold value_end. intros [_ ?%negb_true_iff]%andb_prop. done. Qed.

Lemma parse_decimal_app t u r :
  parse_decimal t = Ok r -> ends_before r u = true -> parse_decimal (t ++ u) = Ok (r ++ u).
Proof.
  destruct t as [|c t].
  - intros [= <-] Hr. by apply parse_decimal_plain, value_end_starts_float.
  - destruct (decide (c = "."%char)) as [->|Hne].
    2:{ cbn [String.append]. rewrite !parse_decimal_other by done. by intros [= <-] _. }
    cbn [parse_decimal String.append]. destruct (span_digits t) as [|k] eqn:Hk; [done|].
    intros [= <-] Hr. by apply digits_tail_app.
Qed.

Lemma parse_exponent_app t u r :
  parse_exponent t = Ok r -> ends_before r u = true -> parse_exponent (t ++ u) = Ok (r ++ u).
Proof.
  destruct t as [|e t].
  - intros [= <-] Hr. by apply parse_exponent_plain, value_end_starts_float.
  - cbn [parse_exponent String.append]. case_decide; [|by intros [= <-] _].
    destruct t as [|sg t]; [done|]. cbn [String.append].
    case_decide; cbn [String.append].
    + destruct (span_digits t) as [|k] eqn:Hk; [done|]. intros [= <-] Hr. by apply digits_tail_app.
    + destruct (span_digits (String sg t)) as [|k] eqn:Hk; [done|]. intros [= <-] Hr.
      by apply (digits_tail_app (String sg t)).
Qed.

Lemma parse_decimal_length s r : parse_decimal s = Ok r -> String.length r <= String.length s.
Proof.
  intros H. destruct (parse_decimal_shape s) as [(r' & H' & ?) | (c & H')]; rewrite H in H';
    [by injection H' as -> | discriminate].
Qed.

Lemma parse_exponent_length s r : parse_exponent s = Ok r -> String.length r <= String.length s.
Proof.
  intros H. destruct (parse_exponent_shape s) as [(r' & H' & ?) | (c & H')]; rewrite H in H';
    [by injection H' as -> | discriminate].
Qed.

Lemma substring_app_prefix k s u :
  k <= String.length s -> substring 0 k (s ++ u) = substring 0 k s.
Proof.
  revert k. induction s as [|c s IH]; intros [|k] Hk; simpl in *; try lia.
  - by destruct u.
  - done.
  - f_equal. apply IH. lia.
Qed.

Lemma consumed_app s0 r u :
  String.length r <= String.length s0 -> consumed (s0 ++ u) (r ++ u) = consumed s0 r.
Proof.
  intros H. unfold consumed. rewrite !str_length_app.
  replace (String.length s0 + String.length u - (String.length r + String.length u))
    with (String.length s0 - String.length r) by lia.
  apply substring_app_prefix. lia.
Qed.

Lemma number_tail_app s0 neg n r u j r' :
  String.length r <= String.length s0 ->
  number_tail s0 neg n r = Ok (j, r') -> ends_before r' u = true ->
  number_tail (s0 ++ u) neg n (r ++ u) = Ok (j, r' ++ u).
Proof.
  intros Hlen. unfold number_tail.
  destruct (starts_float r) eqn:Hf.
  - assert (Hr : ends_before r u = true) by (destruct r; [discriminate | reflexivity]).
    rewrite ends_before_starts_float, Hf by done.
    destruct (parse_decimal r) as [r1|] eqn:H1; [|done]. simpl.
    destruct (parse_exponent r1) as [r2|] eqn:H2; [|done]. simpl. intros [= <- <-] Hr2.
    assert (Hr1 : ends_before r1 u = true)
      by (destruct r1; [injection H2 as <-; exact Hr2 | reflexivity]).
    rewrite (parse_decimal_app _ _ _ H1 Hr1). simpl.
    rewrite (parse_exponent_app _ _ _ H2 Hr2). simpl.
    pose proof (parse_decimal_length _ _ H1). pose proof (parse_exponent_length _ _ H2).
    rewrite consumed_app by lia. reflexivity.
  - destruct neg; [destruct (n <=? 2 ^ 63)%N|]; intros Ht Hr'; simplify_eq;
      rewrite ends_before_starts_float, Hf by done; reflexivity.
Qed.

(** A number that ends at the end of its text left nothing after it. *)
Lemma number_tail_ends s0 neg n r0 j r u :
  number_tail s0 neg n r0 = Ok (j, r) -> ends_before r u = true -> ends_before r0 u = true.
Proof. destruct r0; [|done]. unfold number_tail. simpl. repeat case_match; intros; simplify_eq; done. Qed.

Lemma parse_unsigned_app s0 neg s1 u j r :
  String.length s1 <= String.length s0 ->
  parse_unsigned s0 neg s1 = Ok (j, r) -> ends_before r u = true ->
  parse_unsigned (s0 ++ u) neg (s1 ++ u) = Ok (j, r ++ u).
Proof.
  destruct s1 as [|c r1]; [done|]. cbn [parse_unsigned String.append String.length].
  intros Hlen. destruct (digit_val c) as [[|d]|] eqn:Hc; [| |done].
  - destruct (no_digit_head r1) eqn:Hn; [|done]. intros Ht Hr.
    pose proof (number_tail_ends _ _ _ _ _ _ _ Ht Hr).
    rewrite ends_before_no_digit, Hn by done. apply number_tail_app; [lia | done | done].
  - destruct (parse_digits 0 (String c r1)) as [[n r0]|] eqn:Hd; [|done]. cbn [rbind fst snd].
    intros Ht Hr. pose proof (number_tail_ends _ _ _ _ _ _ _ Ht Hr).
    pose proof (parse_digits_advances 0 (String c r1)) as Hl. rewrite Hd in Hl. simpl in Hl.
    rewrite <- str_app_cons, (parse_digits_app _ _ _ _ _ Hd) by done. cbn [rbind fst snd].
    apply number_tail_app; [simpl in *; lia | done | done].
Qed.

Lemma parse_number_app s u j r :
  parse_number s = Ok (j, r) -> ends_before r u = true -> parse_number (s ++ u) = Ok (j, r ++ u).
Proof.
  destruct s as [|c s]; [done|]. cbn [parse_number String.append]. case_decide.
  - apply (parse_unsigned_app (String c s)). simpl. lia.
  - apply (parse_unsigned_app (String c s) false (String c s)). lia.
Qed.

(** One step of [parse_str] under [rmap], on a shorter suffix. *)
Ltac parse_str_app_step IH :=
  intros ([k' r0] & Hp & Heq)%rmap_Ok_inv; unfold cons_fst in Heq; simplify_eq/=;
  erewrite IH; cycle 1; [simpl; lia | exact Hp | reflexivity].

Lemma parse_str_app s u k r : parse_str s = Ok (k, r) -> parse_str (s ++ u) = Ok (k, r ++ u).
Proof.
  revert k r. induction s as [s IH] using (induction_ltof1 _ String.length). unfold ltof in IH.
  intros k r. destruct s as [|c s]; [done|]. cbn [parse_str String.append].
  case_decide; [by intros [= <- <-]|]. case_decide; [|parse_str_app_step IH].
  destruct s as [|e r']; [done|]. cbn [String.append].
  destruct (unescape e); [parse_str_app_step IH|]. case_decide; [|done].
  intros Hu. apply (unicode_escape_app _ _ _ (k, r)); [|done].
  intros s' [k' r0] Hs' Hp. apply IH; [simpl in *; lia | done].
Qed.

Lemma parse_ident_app w v s u j r :
  parse_ident w v s = Ok (j, r) -> parse_ident w v (s ++ u) = Ok (j, r ++ u).
Proof.
  unfold parse_ident. destruct (strip_prefix w s) eqn:H; [|done].
  intros [= <- <-]. by rewrite (strip_prefix_app_rest _ _ _ _ H).
Qed.

Lemma parse_key_app s u k r : parse_key s = Ok (k, r) -> parse_key (s ++ u) = Ok (k, r ++ u).
Proof.
  destruct s as [|c s]; [done|]. cbn [parse_key String.append]. case_decide; [|done].
  intros ([k0 r0] & Hp & Hk)%rbind_Ok_inv. rewrite (parse_str_app _ _ _ _ Hp). simpl in *.
  destruct (skip_ws r0) as [|c' r1] eqn:E; [done|]. rewrite (skip_ws_app _ _ _ _ E).
  destruct c' as [[] [] [] [] [] [] [] []]; simplify_eq; reflexivity.
Qed.

Lemma list_rest_ends k s acc x u : parse_list_rest k s acc = Ok x -> ends_before s u = true.
Proof. destruct k, s; done. Qed.

Lemma object_rest_ends k s acc x u : parse_object_rest k s acc = Ok x -> ends_before s u = true.
Proof. destruct k, s; done. Qed.

(** One unit of fuel more for the append property: with fuel [n] a
    parse is unchanged by text appended after it, and by more fuel. *)
Section AppStep.
Variable n : nat.
Hypothesis IHv : forall m s u j r, n <= m -> parse_value n s = Ok (j, r) ->
  ends_before r u = true -> parse_value m (s ++ u) = Ok (j, r ++ u).
Hypothesis IHl : forall m s u acc j r, n <= m -> parse_list_rest n s acc = Ok (j, r) ->
  parse_list_rest m (s ++ u) acc = Ok (j, r ++ u).
Hypothesis IHo : forall m s u acc j r, n <= m -> parse_object_rest n s acc = Ok (j, r) ->
  parse_object_rest m (s ++ u) acc = Ok (j, r ++ u).

Lemma elem_app m r1 u acc j r : n <= m ->
  (p <- parse_value n r1 ;; parse_list_rest n (snd p) (fst p :: acc)) = Ok (j, r) ->
  (p <- parse_value m (r1 ++ u) ;; parse_list_rest m (snd p) (fst p :: acc)) = Ok (j, r ++ u).
Proof.
  intros Hm ([x r2] & Hv & Hl)%rbind_Ok_inv. simpl in Hl.
  rewrite (IHv m _ u _ _ Hm Hv (list_rest_ends _ _ _ _ _ Hl)). simpl. by apply IHl.
Qed.

Lemma member_app m r1 u acc j r : n <= m ->
  (kr <- parse_key r1 ;; p <- parse_value n (snd kr) ;;
   parse_object_rest n (snd p) ((fst kr, fst p) :: acc)) = Ok (j, r) ->
  (kr <- parse_key (r1 ++ u) ;; p <- parse_value m (snd kr) ;;
   parse_object_rest m (snd p) ((fst kr, fst p) :: acc)) = Ok (j, r ++ u).
Proof.
  intros Hm ([k r0] & Hk & H)%rbind_Ok_inv. rewrite (parse_key_app _ _ _ _ Hk). simpl in *.
  apply rbind_Ok_inv in H as ([x r2] & Hv & Hl). simpl in Hl.
  rewrite (IHv m _ u _ _ Hm Hv (object_rest_ends _ _ _ _ _ Hl)). simpl. by apply IHo.
Qed.

Lemma parse_value_app_S m s u j r : n <= m ->
  parse_value (S n) s = Ok (j, r) -> ends_before r u = true ->
  parse_value (S m) (s ++ u) = Ok (j, r ++ u).
Proof.
  intros Hm. cbn [parse_value]. destruct (skip_ws s) as [|c r0] eqn:E; [done|].
  rewrite (skip_ws_app _ _ _ _ E).
  case_decide; [intros Hp _; by apply parse_ident_app|].
  case_decide; [intros Hp _; by apply parse_ident_app|].
  case_decide; [intros Hp _; by apply parse_ident_app|].
  case_decide.
  { intros ([k r1] & Hp & Heq)%rmap_Ok_inv _. simplify_eq/=.
    by rewrite (parse_str_app _ _ _ _ Hp). }
  case_decide.
  { destruct (skip_ws r0) as [|c' r'] eqn:E'; [done|]. rewrite (skip_ws_app _ _ _ _ E').
    case_decide; [by intros [= <- <-] | intros Hp _; by apply (elem_app m (String c' r'))]. }
  case_decide.
  { destruct (skip_ws r0) as [|c' r'] eqn:E'; [done|]. rewrite (skip_ws_app _ _ _ _ E').
    case_decide; [by intros [= <- <-] | intros Hp _; by apply (member_app m (String c' r'))]. }
  case_match; [|done]. apply (parse_number_app (String c r0)).
Qed.

Lemma parse_list_rest_app_S m s u acc j r : n <= m ->
  parse_list_rest (S n) s acc = Ok (j, r) -> parse_list_rest (S m) (s ++ u) acc = Ok (j, r ++ u).
Proof.
  intros Hm. cbn [parse_list_rest]. destruct (skip_ws s) as [|c r0] eqn:E; [done|].
  rewrite (skip_ws_app _ _ _ _ E).
  destruct c as [[] [] [] [] [] [] [] []]; cbn -[parse_value parse_list_rest];
    first [done | by intros [= <- <-] | by apply elem_app].
Qed.

Lemma parse_object_rest_app_S m s u acc j r : n <= m ->
  parse_object_rest (S n) s acc = Ok (j, r) ->
  parse_object_rest (S m) (s ++ u) acc = Ok (j, r ++ u).
Proof.
  intros Hm. cbn [parse_object_rest]. destruct (skip_ws s) as [|c r0] eqn:E; [done|].
  rewrite (skip_ws_app _ _ _ _ E).
  destruct c as [[] [] [] [] [] [] [] []]; cbn -[parse_value parse_object_rest parse_key];
    try done; try by intros [= <- <-].
  destruct (skip_ws r0) as [|c' r'] eqn:E'; [done|]. rewrite (skip_ws_app _ _ _ _ E').
  case_decide; [done|]. by apply (member_app m (String c' r')).
Qed.
End AppStep.

Lemma parse_app n :
  (forall m s u j r, n <= m -> parse_value n s = Ok (j, r) ->
     ends_before r u = true -> parse_value m (s ++ u) = Ok (j, r ++ u)) /\
  (forall m s u acc j r, n <= m -> parse_list_rest n s acc = Ok (j, r) ->
     parse_list_rest m (s ++ u) acc = Ok (j, r ++ u)) /\
  (forall m s u acc j r, n <= m -> parse_object_rest n s acc = Ok (j, r) ->
     parse_object_rest m (s ++ u) acc = Ok (j, r ++ u)).
Proof.
  induction n as [|n (IHv & IHl & IHo)]; [repeat split; done|].
  split; [|split]; intros [|m] **; try lia.
  - eapply parse_value_app_S; (eassumption || lia).
  - eapply parse_list_rest_app_S; (eassumption || lia).
  - eapply parse_object_rest_app_S; (eassumption || lia).
Qed.

Lemma ends_before_value_end r u : value_end u = true -> ends_before r u = true.
Proof. by destruct r. Qed.

(** A complete document followed by more text that is not blank: the
    parser reads the same value and then rejects the rest. *)
Lemma from_str_app_trailing t u j :
  from_str t = Ok j -> value_end u = true -> skip_ws u <> EmptyString ->
  from_str (t ++ u) = serr TrailingCharacters.
Proof.
  unfold from_str. intros H Hu Hne. rbind_ok H. destruct a as [j' r]. simpl in H.
  destruct (skip_ws r) eqn:Er; [|discriminate].
  rewrite (proj1 (parse_app (S (String.length t))) (S (String.length (t ++ u))) t u j' r)
    by (rewrite ?str_length_app; (lia || done || by apply ends_before_value_end)).
  simpl. rewrite (skip_ws_app_empty _ _ Er). by destruct (skip_ws u).
Qed.

Lemma to_string_object_head o : exists r, to_string (JObject o) = String "{" r.
Proof. eexists. reflexivity. Qed.

(** ** Blank text before a document *)

Lemma parse_value_blank n t s :
  skip_ws t = EmptyString -> parse_value n (t ++ s) = parse_value n s.
Proof. intros Ht. destruct n; [done|]. cbn [parse_value]. by rewrite skip_ws_app_empty. Qed.

Lemma ends_before_nil r : ends_before r EmptyString = true.
Proof. by destruct r. Qed.

(** Whitespace before a document does not change what it parses to. *)
Lemma from_str_blank_prefix t s j :
  skip_ws t = EmptyString -> from_str s = Ok j -> from_str (t ++ s) = Ok j.
Proof.
  unfold from_str. intros Ht H. rbind_ok H. destruct a as [j' r]. rewrite parse_value_blank by done.
  pose proof (proj1 (parse_app (S (String.length s))) (S (String.length (t ++ s))) s EmptyString
                j' r ltac:(rewrite str_length_app; lia) Ha (ends_before_nil r)) as Hp.
  rewrite !str_app_nil_r in Hp. by rewrite Hp.
Qed.

Lemma from_str_blank t : skip_ws t = EmptyString -> from_str t = serr EOFWhileParsingValue.
Proof. intros Ht. unfold from_str. destruct t; cbn [parse_value]; by rewrite Ht. Qed.

(** ** [\u] escapes in strings *)

Lemma parse_str_u r : parse_str (String backslash (String "u" r)) = unicode_escape parse_str r.
Proof. reflexivity. Qed.

Lemma from_u32_inv c : from_u32 c = Some c -> (c <= char_MAX /\ (c < 0xD800 \/ 0xDFFF < c))%N.
Proof. unfold from_u32. ltb_cases; cbn; intros; simplify_eq; lia. Qed.

(** A surrogate escape that is not a leading surrogate followed by
    [\u] and a trailing one is rejected: a trailing surrogate first or a
    leading one followed by another unit with
    [LoneLeadingSurrogateInHexEscape], a leading one not followed by
    [\u] with [UnexpectedEndOfHexEscape]. *)
Lemma parse_str_surrogate_errors h1 h2 h3 h4 r n :
  hex4 h1 h2 h3 h4 = Some n ->
  let esc := String backslash (String "u" (String h1 (String h2 (String h3 (String h4 r))))) in
  ((0xDC00 <= n <= 0xDFFF)%N -> parse_str esc = serr LoneLeadingSurrogateInHexEscape) /\
  ((0xD800 <= n <= 0xDBFF)%N -> (forall t, r <> String backslash (String "u" t)) ->
     parse_str esc = serr UnexpectedEndOfHexEscape) /\
  (forall g1 g2 g3 g4 t lo, (0xD800 <= n <= 0xDBFF)%N ->
     r = String backslash (String "u" (String g1 (String g2 (String g3 (String g4 t))))) ->
     hex4 g1 g2 g3 g4 = Some lo -> ~ (0xDC00 <= lo <= 0xDFFF)%N ->
     parse_str esc = serr LoneLeadingSurrogateInHexEscape).
Proof.
  intros Hh esc. subst esc. rewrite parse_str_u. split; [|split].
  - by apply unicode_escape_trail_first.
  - by apply unicode_escape_lead_alone.
  - intros * ? -> ? ?. by eapply unicode_escape_lead_no_trail.
Qed.

(** The string reader of the parser never reports
    [InvalidUnicodeCodePoint]: the error arm after [char::from_u32] is
    dead, because a 16-bit unit that is not a surrogate is always a
    scalar value. *)
Lemma parse_str_no_invalid_code_point s : parse_str s <> serr InvalidUnicodeCodePoint.
Proof.
  induction s as [s IH] using (induction_ltof1 _ String.length). unfold ltof in IH.
  destruct s as [|c r]; [done|]. cbn [parse_str].
  assert (Hr : forall s', String.length s' < String.length (String c r) -> forall (f : string * string -> string * string),
             rmap f (parse_str s') <> serr InvalidUnicodeCodePoint).
  { intros s' Hs' f E. apply rmap_Err_inv in E. by apply (IH s'). }
  case_decide; [done|]. case_decide; [|apply Hr; simpl; lia].
  destruct r as [|e r']; [done|]. destruct (unescape e); [apply Hr; simpl; lia|].
  case_decide; [|done]. apply unicode_escape_not_invalid. intros s' Hs'. apply IH. simpl in *. lia.
Qed.

(** Every character, written as a [\u] escape (one unit, or the
    surrogate pair of a supplementary-plane character), is read as the
    UTF-8 bytes of that character. *)
Lemma parse_str_escape_code_point c r :
  from_u32 c = Some c ->
  parse_str (escape_code_point c ++ r) = rmap (app_fst (push_char c)) (parse_str r).
Proof.
  intros [Hmax Hs]%from_u32_inv. unfold escape_code_point.
  destruct (N.ltb_spec c 0x10000).
  - cbn [hex_escape String.append]. rewrite parse_str_u.
    apply unicode_escape_unit; [apply hex4_digits|]; lia.
  - cbn [hex_escape String.append]. rewrite parse_str_u.
    rewrite (unicode_escape_pair _ _ _ _ _ _ _ _ _ _ (0xD800 + (c - 0x10000) / 1024)
               (0xDC00 + (c - 0x10000) mod 1024)); try apply hex4_digits; try lia_div.
    do 3 f_equal. lia_div.
Qed.

(** ** The parser reads every text of the grammar *)

Lemma is_ws_cases a :
  is_ws a = true -> a = " "%char \/ a = "010"%char \/ a = "009"%char \/ a = "013"%char.
Proof.
  unfold is_ws. cbv zeta. rewrite !orb_true_iff, !N.eqb_eq.
  intros [[[H|H]|H]|H]; rewrite <- (ascii_N_embedding a), H; auto.
Qed.

Lemma value_end_blank w u : blank w -> value_end u = true -> value_end (w ++ u) = true.
Proof.
  unfold blank. destruct w as [|a w]; [done|]. cbn [skip_ws String.append].
  destruct (is_ws a) eqn:Ha; [|discriminate]. intros _ _.
  by destruct (is_ws_cases a Ha) as [-> | [-> | [-> | ->]]].
Qed.

Lemma value_end_sep w c r :
  blank w -> c = ","%char \/ c = "]"%char \/ c = "}"%char -> value_end (w ++ String c r) = true.
Proof. intros Hw Hc. apply value_end_blank; [done|]. by destruct Hc as [-> | [-> | ->]]. Qed.

Lemma skip_ws_blank w c r : blank w -> is_ws c = false -> skip_ws (w ++ String c r) = String c r.
Proof. intros Hw Hc. rewrite skip_ws_app_empty by done. by apply skip_ws_nonws. Qed.

Lemma blank_nil : blank EmptyString.
Proof. reflexivity. Qed.

#[local] Hint Resolve blank_nil : wtftw.

(** A text of the grammar starts with a token that is not whitespace
    and does not close a list or an object. *)
Lemma spelled_head j t :
  spelled j t -> exists c r, t = String c r /\ is_ws c = false /\ c <> "]"%char /\ c <> "}"%char.
Proof.
  destruct 1;
    [|eexists _, _; split; [reflexivity|]; repeat split; (reflexivity || discriminate)..].
  destruct (to_string_head j) as (c & r & -> & H14 & H32 & Hc1 & Hc2); [done|].
  exists c, r. repeat split; [by apply is_ws_false | done | done].
Qed.

Lemma spelled_member_head k v m : spelled_member k v m -> exists r, m = String quote r.
Proof. destruct 1. by eexists. Qed.

Lemma spelled_elems_value_end xs ts w c rest :
  spelled_elems xs ts -> blank w -> c = "]"%char \/ c = "}"%char ->
  value_end (ts ++ w ++ String c rest) = true.
Proof.
  destruct 1; intros Hw Hc; [apply value_end_sep; tauto|].
  str_simpl. apply value_end_sep; auto.
Qed.

Lemma spelled_members_value_end o ts w c rest :
  spelled_members o ts -> blank w -> c = "]"%char \/ c = "}"%char ->
  value_end (ts ++ w ++ String c rest) = true.
Proof.
  destruct 1; intros Hw Hc; [apply value_end_sep; tauto|].
  str_simpl. apply value_end_sep; auto.
Qed.

Lemma parse_str_close rest : parse_str (String quote rest) = Ok (EmptyString, rest).
Proof. cbn. by rewrite decide_True. Qed.

Lemma parse_value_list k r :
  parse_value (S k) (String "[" r) =
  match skip_ws r with
  | String c' r' as r1 =>
      if decide (c' = "]"%char) then Ok (JList [], r')
      else p <- parse_value k r1 ;; parse_list_rest k (snd p) [fst p]
  | EmptyString => serr EOFWhileParsingValue
  end.
Proof. reflexivity. Qed.

Lemma parse_value_object k r :
  parse_value (S k) (String "{" r) =
  match skip_ws r with
  | String c' r' as r1 =>
      if decide (c' = "}"%char) then Ok (JObject [], r')
      else kr <- parse_key r1 ;; p <- parse_value k (snd kr) ;;
           parse_object_rest k (snd p) [(fst kr, fst p)]
  | EmptyString => serr EOFWhileParsingObject
  end.
Proof. reflexivity. Qed.

(** The parser reads every text of the grammar, followed by anything
    that cannot continue a number, as its value; the fuel it needs is
    the length of the text. *)
Lemma spelled_parse :
  (forall j t, spelled j t -> forall k rest, String.length t <= k -> value_end rest = true ->
     parse_value k (t ++ rest) = Ok (j, rest)) /\
  (forall key v m, spelled_member key v m -> forall n rest,
     String.length m <= n -> value_end rest = true ->
     exists r0, parse_key (m ++ rest) = Ok (key, r0) /\ parse_value n r0 = Ok (v, rest)) /\
  (forall xs ts, spelled_elems xs ts -> forall k acc w rest, blank w -> String.length ts < k ->
     parse_list_rest k (ts ++ w ++ String "]" rest) acc = Ok (JList (rev acc ++ xs), rest)) /\
  (forall o ts, spelled_members o ts -> forall k acc w rest, blank w -> String.length ts < k ->
     parse_object_rest k (ts ++ w ++ String "}" rest) acc = Ok (JObject (rev acc ++ o), rest)).
Proof.
  apply spelled_mutind.
  - intros j _ Hc k rest Hk Hend. by apply parses_back_all.
  - intros s t Hs [|k] rest Hk _; [simpl in Hk; lia|]. str_simpl. cbn [String.append].
    rewrite parse_value_quote, Hs, parse_str_close. cbn. by rewrite str_app_nil_r.
  - intros w Hw [|k] rest Hk _; [simpl in Hk; lia|]. str_simpl. cbn [String.append].
    rewrite parse_value_list, skip_ws_blank by done. by rewrite decide_True.
  - intros x xs w1 t ts w2 Hw1 Hx IHx Hts IHts Hw2 [|k] rest Hk _; [simpl in Hk; lia|].
    cbn [String.length] in Hk. rewrite !str_length_app in Hk. simpl in Hk. str_simpl.
    cbn [String.append].
    destruct (spelled_head _ _ Hx) as (c & r & -> & Hc & Hc1 & _). rewrite str_app_cons.
    rewrite parse_value_list, skip_ws_blank by done. rewrite decide_False by done.
    rewrite <- (str_app_cons c r), IHx;
      [|simpl in Hk |- *; lia | eauto using spelled_elems_value_end].
    cbn [rbind fst snd]. rewrite IHts by (done || lia). done.
  - intros w Hw [|k] rest Hk _; [simpl in Hk; lia|]. str_simpl. cbn [String.append].
    rewrite parse_value_object, skip_ws_blank by done. by rewrite decide_True.
  - intros key v o w1 m ts w2 Hw1 Hm IHm Hts IHts Hw2 [|k] rest Hk _; [simpl in Hk; lia|].
    cbn [String.length] in Hk. rewrite !str_length_app in Hk. simpl in Hk. str_simpl.
    cbn [String.append].
    destruct (spelled_member_head _ _ _ Hm) as (r & ->). rewrite str_app_cons.
    rewrite parse_value_object, skip_ws_blank by done. rewrite decide_False by done.
    rewrite <- (str_app_cons quote r).
    destruct (IHm k (ts ++ w2 ++ String "}" rest)) as (r0 & Hkey & Hv);
      [simpl in *; lia | eauto using spelled_members_value_end|].
    rewrite Hkey. cbn [rbind fst snd]. rewrite Hv. cbn [rbind fst snd].
    rewrite IHts by (done || lia). done.
  - intros key v kt w1 w2 t Hk Hw1 Hw2 Ht IHt n rest Hn Hend.
    exists (w2 ++ t ++ rest). split.
    + str_simpl. cbn [String.append parse_key]. rewrite decide_True by done.
      rewrite Hk, parse_str_close. cbn [rmap rbind app_fst fst snd].
      rewrite skip_ws_blank by done. by rewrite str_app_nil_r.
    + rewrite parse_value_blank by done. apply IHt; [|done].
      str_len Hn. lia.
  - intros [|k] acc w rest Hw Hk; [simpl in Hk; lia|]. cbn [String.append parse_list_rest].
    rewrite skip_ws_blank by done. by rewrite app_nil_r.
  - intros x xs w1 w2 t ts Hw1 Hw2 Hx IHx Hts IHts [|k] acc w rest Hw Hk; [simpl in Hk; lia|].
    rewrite !str_length_app in Hk. simpl in Hk. str_simpl. cbn [parse_list_rest].
    rewrite skip_ws_blank by done. cbn [String.append].
    rewrite parse_value_blank by done.
    rewrite IHx by (lia || eauto using spelled_elems_value_end). cbn [rbind fst snd].
    rewrite IHts by (done || lia). cbn [rev]. by rewrite <- app_assoc.
  - intros [|k] acc w rest Hw Hk; [simpl in Hk; lia|]. cbn [String.append parse_object_rest].
    rewrite skip_ws_blank by done. by rewrite app_nil_r.
  - intros key v o w1 w2 m ts Hw1 Hw2 Hm IHm Hts IHts [|k] acc w rest Hw Hk;
      [simpl in Hk; lia|].
    rewrite !str_length_app in Hk. simpl in Hk. str_simpl. cbn [parse_object_rest].
    rewrite skip_ws_blank by done. cbn [String.append].
    destruct (spelled_member_head _ _ _ Hm) as (r & ->). rewrite str_app_cons.
    rewrite skip_ws_blank by done. rewrite decide_False by done.
    rewrite <- (str_app_cons quote r).
    destruct (IHm k (ts ++ w ++ String "}" rest)) as (r0 & Hkey & Hv);
      [simpl in *; lia | eauto using spelled_members_value_end|].
    rewrite Hkey. cbn [rbind fst snd]. rewrite Hv. cbn [rbind fst snd].
    rewrite IHts by (done || lia). cbn [rev]. by rewrite <- app_assoc.
Qed.

(** A document is a text of the grammar with blanks around it. *)
Lemma from_str_spelled j t w1 w2 :
  spelled j t -> blank w1 -> blank w2 -> from_str (w1 ++ t ++ w2) = Ok j.
Proof.
  intros Ht Hw1 Hw2. unfold from_str. rewrite parse_value_blank by done.
  rewrite (proj1 spelled_parse j t Ht); [|rewrite !str_length_app; lia|].
  - cbn [rbind fst snd]. by rewrite Hw2.
  - rewrite <- (str_app_nil_r w2). by apply value_end_blank.
Qed.

(** ** Spellings of a string *)

Lemma rmap_app_fst s1 s2 (x : result (string * string) ParserError) :
  rmap (app_fst s1) (rmap (app_fst s2) x) = rmap (app_fst (s1 ++ s2)) x.
Proof. destruct x as [[a b]|e]; [|done]. cbn [rmap]. unfold app_fst. cbn [fst snd]. by rewrite str_app_assoc. Qed.

Lemma spells_nil : spells EmptyString EmptyString.
Proof. intros u. cbn [String.append]. destruct (parse_str u) as [[a b]|e]; reflexivity. Qed.

Lemma spells_app t1 s1 t2 s2 : spells t1 s1 -> spells t2 s2 -> spells (t1 ++ t2) (s1 ++ s2).
Proof. intros H1 H2 u. by rewrite str_app_assoc, H1, H2, rmap_app_fst. Qed.

(** What the encoder writes for one byte spells that byte. *)
Lemma spells_escape_char c : spells (escape_char c) (String c EmptyString).
Proof.
  intros u. unfold escape_char.
  repeat case_decide; subst; cbn; repeat (rewrite decide_False by done); rewrite ?decide_True by done;
    destruct (parse_str u) as [[a b]|e]; reflexivity.
Qed.

Lemma spells_escape_chars s : spells (escape_chars s) s.
Proof.
  induction s as [|c s IH]; [apply spells_nil|].
  apply (spells_app _ (String c EmptyString) _ s); [apply spells_escape_char | exact IH].
Qed.

Lemma spells_unicode_unit h1 h2 h3 h4 n :
  hex4 h1 h2 h3 h4 = Some n -> (n < 0xD800 \/ 0xDFFF < n)%N ->
  spells (String backslash (String "u" (String h1 (String h2 (String h3 (String h4 EmptyString))))))
    (push_char n).
Proof. intros Hh Hn u. cbn [String.append]. rewrite parse_str_u. by apply unicode_escape_unit. Qed.

Lemma spells_surrogate_pair h1 h2 h3 h4 g1 g2 g3 g4 hi lo :
  hex4 h1 h2 h3 h4 = Some hi -> hex4 g1 g2 g3 g4 = Some lo ->
  (0xD800 <= hi <= 0xDBFF)%N -> (0xDC00 <= lo <= 0xDFFF)%N ->
  spells (String backslash (String "u" (String h1 (String h2 (String h3 (String h4
    (String backslash (String "u" (String g1 (String g2 (String g3 (String g4 EmptyString))))))))))))
    (push_char (0x10000 + (hi - 0xD800) * 1024 + (lo - 0xDC00))).
Proof. intros Hh Hg Hhi Hlo u. cbn [String.append]. rewrite parse_str_u. by apply unicode_escape_pair. Qed.

Lemma spells_code_point c : from_u32 c = Some c -> spells (escape_code_point c) (push_char c).
Proof. intros Hc u. by apply parse_str_escape_code_point. Qed.

(** ** The encoder's output is a spelling *)

Lemma spelled_elems_prefixed xs :
  Forall (fun x => spelled x (to_string x)) xs -> spelled_elems xs (prefixed "," (map to_string xs)).
Proof.
  induction 1 as [|x xs Hx _ IH]; [constructor|].
  apply (se_cons _ _ EmptyString EmptyString); auto with wtftw.
Qed.

Lemma spelled_members_prefixed o :
  Forall (fun kv => spelled (snd kv) (to_string (snd kv))) o ->
  spelled_members o (prefixed "," (map member_string o)).
Proof.
  induction 1 as [|[k v] o Hv _ IH]; [constructor|].
  apply (sm_cons _ _ _ EmptyString EmptyString); auto with wtftw.
  unfold member_string, escape_str. simpl fst; simpl snd. rewrite str_app_cons, str_app_assoc.
  apply (sp_member _ _ _ EmptyString EmptyString); auto using spells_escape_chars with wtftw.
Qed.

Lemma spelled_to_string j : json_canon j = true -> spelled j (to_string j).
Proof.
  induction j as [z|n|lx|s|b|l IH|o IH|] using Json_ind_nested; intros Hc;
    try (apply sp_atom; done).
  - apply sp_string, spells_escape_chars.
  - destruct l as [|x xs]; [apply (sp_list_nil EmptyString); reflexivity|].
    simpl in Hc. apply Forall_forallb_impl in IH; [|done]. apply Forall_cons in IH as [Hx Hxs].
    cbn [to_string map]. rewrite join_with_cons. str_simpl.
    apply (sp_list _ _ EmptyString _ _ EmptyString); auto using spelled_elems_prefixed with wtftw.
  - destruct o as [|[k v] o]; [apply (sp_object_nil EmptyString); reflexivity|].
    simpl in Hc. apply Forall_forallb_impl in IH; [|done]. apply Forall_cons in IH as [Hv Ho].
    rewrite to_string_object, map_cons, join_with_cons. str_simpl.
    apply (sp_object _ _ _ EmptyString _ _ EmptyString); auto using spelled_members_prefixed with wtftw.
    unfold member_string, escape_str. simpl fst; simpl snd. rewrite str_app_cons, str_app_assoc.
    apply (sp_member _ _ _ EmptyString EmptyString); auto using spells_escape_chars with wtftw.
Qed.

Lemma spells_code_point_eq c s :
  from_u32 c = Some c -> push_char c = s -> spells (escape_code_point c) s.
Proof. intros Hc <-. by apply spells_code_point. Qed.

(** ** Errors inside an object *)

Lemma length_prefixed_ge sep l :
  sep <> EmptyString -> length l <= String.length (prefixed sep l).
Proof.
  intros Hs. induction l as [|x l IH]; [simpl; lia|].
  rewrite length_prefixed_cons. destruct sep; [done|]. simpl. lia.
Qed.

Lemma value_end_prefixed xs X :
  value_end X = true -> value_end (prefixed "," xs ++ X) = true.
Proof. by destruct xs. Qed.

(** Members that parse back, followed by more text: the parser reads
    them all, one unit of fuel each, and goes on with the rest. *)
Lemma parse_object_rest_prefix o :
  Forall (fun kv => parses_back (snd kv)) o ->
  forall k acc X, value_end X = true ->
  String.length (prefixed "," (map member_string o)) < k ->
  parse_object_rest k (prefixed "," (map member_string o) ++ X) acc =
  parse_object_rest (k - length o) X (rev o ++ acc).
Proof.
  induction 1 as [|[key v] o Hv Ho IH]; intros k acc X HX Hk.
  - simpl. by rewrite Nat.sub_0_r.
  - destruct k as [|k]; [simpl in Hk; lia|].
    rewrite map_cons, length_prefixed_cons in Hk.
    unfold member_string in Hk at 1. simpl in Hk. rewrite !str_length_app in Hk.
    cbn [map prefixed]. unfold member_string at 1. simpl fst; simpl snd.
    rewrite !str_app_assoc. cbn [String.append parse_object_rest].
    rewrite escape_str_app, !skip_ws_nonws by reflexivity. cbv beta iota.
    rewrite decide_False by (unfold quote; discriminate).
    rewrite <- escape_str_app, parse_key_member. simpl.
    rewrite Hv by (simpl in Hk |- *; lia || by apply value_end_prefixed). simpl.
    rewrite IH by (done || lia). cbn [rev length]. rewrite <- app_assoc. reflexivity.
Qed.

Lemma prefixed_app sep l1 l2 : prefixed sep (l1 ++ l2) = prefixed sep l1 ++ prefixed sep l2.
Proof.
  induction l1 as [|x l1 IH]; [done|]. cbn [app prefixed]. by rewrite IH, !str_app_assoc.
Qed.

Lemma to_string_object_text kv0 o1 k v o2 :
  to_string (JObject (kv0 :: o1 ++ (k, v) :: o2)) = object_text kv0 o1 k (to_string v) o2.
Proof.
  rewrite to_string_object, map_cons, join_with_cons, map_app, prefixed_app.
  unfold object_text. cbn [map prefixed]. unfold member_string at 3. simpl fst; simpl snd.
  rewrite !str_app_assoc. reflexivity.
Qed.

Lemma object_text_length kv0 o1 k T o2 :
  length o1 <= String.length (prefixed "," (map member_string o1)) /\
  String.length (to_string (snd kv0)) + String.length (prefixed "," (map member_string o1))
    + String.length (prefixed "," (map member_string o2)) + 5
  <= String.length (object_text kv0 o1 k T o2).
Proof.
  pose proof (length_prefixed_ge "," (map member_string o1) ltac:(discriminate)) as Hl.
  rewrite length_map in Hl. destruct kv0 as [k0 v0]. unfold object_text.
  change (member_string (k0, v0)) with (escape_str k0 ++ ":" ++ to_string v0).
  cbn [fst snd]. split; [done|]. do 4 (rewrite ?str_length_app; cbn [String.length]). lia.
Qed.

(** The members before [k] are read back; what follows depends on the
    text [T] of [k]'s value. *)
Lemma parse_object_text kv0 o1 k T o2 m :
  json_canon (snd kv0) = true -> Forall (fun kv => json_canon (snd kv) = true) o1 ->
  String.length (object_text kv0 o1 k T o2) <= m ->
  parse_value (S m) (object_text kv0 o1 k T o2) =
    (p <- parse_value (m - length o1 - 1) (T ++ prefixed "," (map member_string o2) ++ "}") ;;
     parse_object_rest (m - length o1 - 1) (snd p) ((k, fst p) :: rev o1 ++ [kv0])).
Proof.
  intros H0 H1 Hm. pose proof (object_text_length kv0 o1 k T o2) as [Hl1 Hl].
  destruct kv0 as [k0 v0]. unfold object_text in *. unfold member_string at 1. cbn [fst snd] in *.
  rewrite !str_app_assoc. cbn [String.append parse_value].
  rewrite skip_ws_nonws by reflexivity. simpl.
  rewrite !str_app_assoc. cbn [String.append]. rewrite parse_str_escape. simpl.
  rewrite (parses_back_all v0 H0) by (lia || apply value_end_prefixed; reflexivity). simpl.
  rewrite parse_object_rest_prefix; [| apply Forall_impl with (1 := H1); intros; by apply parses_back_all
                                     | reflexivity | lia].
  destruct (m - length o1) as [|m'] eqn:Hfuel; [lia|]. rewrite Nat.sub_succ, Nat.sub_0_r.
  cbn [parse_object_rest]. rewrite !skip_ws_nonws by reflexivity. cbv beta iota.
  rewrite decide_False by (unfold quote; discriminate).
  rewrite <- escape_str_app, parse_key_member. reflexivity.
Qed.

(** A member whose value is a parse error, wherever it is, stops the
    object with that error. *)
Lemma from_str_object_text_error kv0 o1 k T o2 e :
  json_canon (snd kv0) = true -> Forall (fun kv => json_canon (snd kv) = true) o1 ->
  (forall m Y, value_end Y = true -> parse_value (S m) (T ++ Y) = Err e) ->
  from_str (object_text kv0 o1 k T o2) = Err e.
Proof.
  intros H0 H1 HT. pose proof (object_text_length kv0 o1 k T o2) as [? ?]. unfold from_str.
  rewrite parse_object_text by (done || lia).
  destruct (String.length (object_text kv0 o1 k T o2) - length o1 - 1) as [|m'] eqn:Hf; [lia|].
  rewrite HT by apply value_end_close_object. reflexivity.
Qed.

(** A member whose text reads as the value [v] gives the object with [v]
    in its place. *)
Lemma from_str_object_text_ok kv0 o1 k T v o2 :
  json_canon (snd kv0) = true -> Forall (fun kv => json_canon (snd kv) = true) o1 ->
  Forall (fun kv => json_canon (snd kv) = true) o2 ->
  (forall m Y, value_end Y = true -> parse_value (S m) (T ++ Y) = Ok (v, Y)) ->
  from_str (object_text kv0 o1 k T o2) = Ok (JObject (kv0 :: o1 ++ (k, v) :: o2)).
Proof.
  intros H0 H1 H2 HT. pose proof (object_text_length kv0 o1 k T o2) as [? ?]. unfold from_str.
  rewrite parse_object_text by (done || lia).
  destruct (String.length (object_text kv0 o1 k T o2) - length o1 - 1) as [|m'] eqn:Hf; [lia|].
  rewrite HT by apply value_end_close_object. cbn [rbind fst snd].
  rewrite parse_object_rest_members; [| apply Forall_impl with (1 := H2); intros; by apply parses_back_all | lia].
  cbn [rbind fst snd skip_ws]. do 2 f_equal. cbn [rev]. rewrite rev_app_distr, rev_involutive.
  simpl. by rewrite <- app_assoc.
Qed.

(** Past [u64::MAX], up to ten times it: every proper prefix of the
    digits is below [2^64], so [parse_u64]'s accumulator wraps once, at
    the last digit.  The number reads as its value modulo [2^64], and
    the overflow test rejects it only when that is [0]. *)
Lemma parse_digits_wrap p ds e rest :
  (N.pos p < 10)%N -> Forall (fun d => d < 10)%N ds -> (e < 10)%N -> no_digit_head rest = true ->
  (digits_value (N.pos p) ds < 2 ^ 64)%N ->
  parse_digits 0 (digits_str (N.pos p :: ds ++ [e]) ++ rest) =
    let w := u64_wrap (digits_value (N.pos p) ds * 10 + e) in
    if (w =? 0)%N then serr InvalidNumber else Ok (w, rest).
Proof.
  intros Hp Hds He Hr Hv. rewrite digits_str_cons. cbn [String.append].
  rewrite (parse_digits_digit 0 _ _ (N.pos p)) by (apply digit_val_char; done).
  rewrite N.mod_small by lia. change (0 * 10 + N.pos p)%N with (N.pos p).
  change (N.pos p =? 0)%N with false. cbv iota.
  rewrite digits_str_app, str_app_assoc, parse_digits_str by (done || lia). cbn [String.append digits_str
    string_of_list_ascii map].
  rewrite (parse_digits_digit _ _ _ e) by (apply digit_val_char; done).
  case_match; [done|]. by rewrite parse_digits_stop.
Qed.

Lemma parse_value_u64_wrap m n Y :
  (2 ^ 64 <= n < 10 * 2 ^ 64)%N -> value_end Y = true ->
  parse_value (S m) (show_N n ++ Y) =
    if (u64_wrap n =? 0)%N then serr InvalidNumber else Ok (JU64 (u64_wrap n), Y).
Proof.
  intros Hn HY. pose proof HY as [Hnd _]%andb_prop.
  destruct (show_N_shape n) as (d & ds & Hs & Hd & Hds & Hval & H0).
  rewrite Hs, str_app_cons, parse_value_digit by (rewrite digit_char_code; lia).
  rewrite <- str_app_cons, <- Hs. unfold parse_number. rewrite Hs. cbn [String.append].
  rewrite decide_False by (intros Heq; apply (f_equal N_of_ascii) in Heq;
                           rewrite digit_char_code in Heq by done; simpl in Heq; lia).
  cbn [parse_unsigned]. rewrite digit_val_char by done.
  destruct d as [|p]; [destruct (H0 eq_refl); lia|].
  destruct ds as [|e ds _] using rev_ind; [simpl in Hval; lia|].
  apply Forall_app in Hds as [Hds [He _]%Forall_cons].
  unfold digits_value in Hval. rewrite foldl_app in Hval. cbn [foldl] in Hval.
  fold (digits_value (N.pos p) ds) in Hval.
  rewrite <- str_app_cons, <- digits_str_cons, parse_digits_wrap by (done || lia).
  rewrite Hval. cbv zeta. case_match; [done|]. cbn [rbind fst snd].
  by apply number_tail_U64.
Qed.
