(* ===== verification/Codec.v ===== *)
(** * The derived [Encodable] / [Decodable] of [Config]

    [#[deriving(Encodable,Decodable,Clone)]] (config.rs line 9) gives
    [Config] an encoding as a JSON object with one member per field, in
    declaration order ([emit_struct] / [emit_struct_field]), and a
    decoder that looks every field up by name ([read_struct]
    / [read_struct_field]) and decodes it with the reader of its type:
    [read_bool], [read_u32], [read_str], [read_tuple] for the
    [(String, String)] pair and [read_seq] for [Vec<String>].
    [read_u32] is the library's [read_primitive!]: besides numbers it
    accepts a string that [from_str::<u32>] reads ([u32_digits]).
    [encode] and [decode] are [json::encode::<Config>] and
    [json::decode] as [initialize] calls them (lines 86 and 92). *)

From S2P Require Import Prelude Snapshot Json.
Local Open Scope string_scope.
Local Open Scope result_scope.

(** The library's [DecoderError]; the [found] half of [ExpectedError] is
    not kept. *)
Inductive DecoderError :=
| ParseError (e : ParserError)
| ExpectedError (expected : string)
| MissingFieldError (field : string)
| ApplicationError (msg : string).

#[export] Instance DecoderError_eq_dec : EqDecision DecoderError.
Proof. solve_decision. Defined.

(** ** Readers *)

(** Lookup in the object the parser builds: a [TreeMap] filled in text
    order, so a later member overrides an earlier one with the same key. *)
Fixpoint obj_lookup (k : string) (o : list (string * Json)) : option Json :=
  match o with
  | [] => None
  | (k', v) :: o' =>
      match obj_lookup k o' with
      | Some w => Some w
      | None => if decide (k = k') then Some v else None
      end
  end.

Definition read_bool (j : Json) : result bool DecoderError :=
  match j with
  | JBoolean b => Ok b
  | _ => Err (ExpectedError "Boolean")
  end.

(** The digit loop of [from_str::<u32>] ([strconv::from_str_radix_int]
    in base 10): every character must be an ASCII digit, and the
    [checked_mul] by 10 and the [checked_add] of the digit must stay in
    [u32]. *)
Fixpoint u32_digits (acc : Z) (s : string) : option Z :=
  match s with
  | EmptyString => Some acc
  | String c r =>
      match digit_val c with
      | Some d =>
          if u32_ok (acc * 10) then
            if u32_ok (acc * 10 + Z.of_N d) then u32_digits (acc * 10 + Z.of_N d) r else None
          else None
      | None => None
      end
  end.

(** [read_u32], the library's [read_primitive!] at [u32]: an integer
    that [num::cast] fits in 32 bits, or a string that [from_str] reads
    as one (the arm the library keeps for numeric map keys, #12967); an
    empty string has no first character and is rejected. *)
Definition read_u32 (j : Json) : result Z DecoderError :=
  match j with
  | JU64 n => if (n <? 2 ^ 32)%N then Ok (Z.of_N n) else Err (ExpectedError "Number")
  | JI64 z => if u32_ok z then Ok z else Err (ExpectedError "Number")
  | JF64 _ => Err (ExpectedError "Integer")
  | JString EmptyString => Err (ExpectedError "Number")
  | JString s =>
      match u32_digits 0 s with
      | Some z => Ok z
      | None => Err (ExpectedError "Number")
      end
  | _ => Err (ExpectedError "Number")
  end.

Definition read_str (j : Json) : result string DecoderError :=
  match j with
  | JString s => Ok s
  | _ => Err (ExpectedError "String")
  end.

(** The [Decodable] impl of a pair: [read_tuple] checks the length
    before it decodes the two elements. *)
Definition read_pair_str (j : Json) : result (string * string) DecoderError :=
  match j with
  | JList [a; b] => x <- read_str a ;; y <- read_str b ;; Ok (x, y)
  | JList _ => Err (ApplicationError "Wrong tuple length")
  | _ => Err (ExpectedError "List")
  end.

(** The [Decodable] impl of [Vec<String>]: [read_seq]. *)
Definition read_seq_str (j : Json) : result (list string) DecoderError :=
  match j with
  | JList l => result_map read_str l
  | _ => Err (ExpectedError "List")
  end.

Definition read_struct_field {A} (name : string) (f : Json -> result A DecoderError)
  (j : Json) : result A DecoderError :=
  match j with
  | JObject o =>
      match obj_lookup name o with
      | Some v => f v
      | None => Err (MissingFieldError name)
      end
  | _ => Err (ExpectedError "Object")
  end.

(** The errors a reader reports itself: a value of the wrong shape. *)
Definition reader_error (e : DecoderError) : bool :=
  match e with
  | ExpectedError _ | ApplicationError _ => true
  | ParseError _ | MissingFieldError _ => false
  end.

(** A reader of one JSON value: every error it reports is its own. *)
Definition Reader {A} (r : Json -> result A DecoderError) : Prop :=
  forall v e, r v = Err e -> reader_error e = true.

(** ** The derived impls *)

Definition field_name (f : Field) : string :=
  match f with
  | FFocusFollowsMouse => "focus_follows_mouse"
  | FFocusBorderColor => "focus_border_color"
  | FBorderColor => "border_color"
  | FBorderWidth => "border_width"
  | FSpacing => "spacing"
  | FTerminal => "terminal"
  | FTerminalKey => "terminal_key"
  | FLogfile => "logfile"
  | FTags => "tags"
  | FLauncher => "launcher"
  | FLaunchKey => "launch_key"
  end.

(** [Decodable::decode] for [Config]: the fields in declaration order,
    the first error wins. *)
Definition config_from_json (j : Json) : result Config DecoderError :=
  ffm <- read_struct_field (field_name FFocusFollowsMouse) read_bool j ;;
  fbc <- read_struct_field (field_name FFocusBorderColor) read_u32 j ;;
  bc <- read_struct_field (field_name FBorderColor) read_u32 j ;;
  bw <- read_struct_field (field_name FBorderWidth) read_u32 j ;;
  sp <- read_struct_field (field_name FSpacing) read_u32 j ;;
  te <- read_struct_field (field_name FTerminal) read_pair_str j ;;
  tk <- read_struct_field (field_name FTerminalKey) read_str j ;;
  lf <- read_struct_field (field_name FLogfile) read_str j ;;
  tg <- read_struct_field (field_name FTags) read_seq_str j ;;
  la <- read_struct_field (field_name FLauncher) read_str j ;;
  lk <- read_struct_field (field_name FLaunchKey) read_str j ;;
  Ok {| focus_follows_mouse := ffm; focus_border_color := fbc; border_color := bc;
        border_width := bw; spacing := sp; terminal := te; terminal_key := tk;
        logfile := lf; tags := tg; launcher := la; launch_key := lk |}.

(** The JSON value of one field, as its [Encodable] impl emits it. *)
Definition field_json (v : FieldValue) : Json :=
  match v with
  | VBool b => JBoolean b
  | VU32 z => JU64 (Z.to_N z)
  | VPair a b => JList [JString a; JString b]
  | VStr s => JString s
  | VStrs l => JList (map JString l)
  end.

(** [Encodable::encode] for [Config]: one member per field, in
    declaration order. *)
Definition config_to_json (c : Config) : Json :=
  JObject (map (fun f => (field_name f, field_json (get_field c f))) fields).

(** [json::encode::<Config>]. *)
Definition encode (c : Config) : string := to_string (config_to_json c).

(** [json::decode]: parse, then decode; a parse error is [ParseError]. *)
Definition decode (s : string) : result Config DecoderError :=
  match from_str s with
  | Ok j => config_from_json j
  | Err e => Err (ParseError e)
  end.

(** The reader the derived [Decodable] applies to one field, by the
    field's Rust type, with its result as a [FieldValue]. *)
Definition read_field (f : Field) (v : Json) : result FieldValue DecoderError :=
  match f with
  | FFocusFollowsMouse => rmap VBool (read_bool v)
  | FFocusBorderColor | FBorderColor | FBorderWidth | FSpacing => rmap VU32 (read_u32 v)
  | FTerminal => rmap (fun p => VPair (fst p) (snd p)) (read_pair_str v)
  | FTerminalKey | FLogfile | FLauncher | FLaunchKey => rmap VStr (read_str v)
  | FTags => rmap VStrs (read_seq_str v)
  end.

(** What an object must hold for [config_from_json] to return [c]: every
    field, looked up by name, reads as [c]'s value. *)
Definition object_holds (o : list (string * Json)) (c : Config) : Prop :=
  Forall (fun f => exists v, obj_lookup (field_name f) o = Some v /\
                             read_field f v = Ok (get_field c f)) fields.

(** The record's JSON with every [u32] field written as a string of its
    decimal digits (["border_width": "2"]) instead of a number. *)
Definition u32_as_string (v : FieldValue) : Json :=
  match v with
  | VU32 z => JString (show_Z z)
  | _ => field_json v
  end.

Definition config_to_json_u32_strings (c : Config) : Json :=
  JObject (map (fun f => (field_name f, u32_as_string (get_field c f))) fields).

(** The record's JSON with the member of field [f] holding [v] instead
    of the field's value. *)
Definition config_to_json_at (c : Config) (f : Field) (v : Json) : Json :=
  JObject (map (fun g => (field_name g, if decide (g = f) then v else field_json (get_field c g)))
               fields).

(** * Lemmas *)

Lemma u32_ok_range z : u32_ok z = true <-> (0 <= z < 2 ^ 32)%Z.
Proof.
  unfold u32_ok. rewrite andb_true_iff, Z.leb_le, Z.ltb_lt. lia.
Qed.

Lemma config_wf_iff c :
  config_wf c = true <->
  u32_ok (focus_border_color c) = true /\ u32_ok (border_color c) = true /\
  u32_ok (border_width c) = true /\ u32_ok (spacing c) = true.
Proof. unfold config_wf. rewrite !andb_true_iff. tauto. Qed.

Lemma read_u32_to_N z : u32_ok z = true -> read_u32 (JU64 (Z.to_N z)) = Ok z.
Proof.
  intros Hz. apply u32_ok_range in Hz. simpl.
  destruct (N.ltb_spec (Z.to_N z) (2 ^ 32)); [|lia]. f_equal. lia.
Qed.

Lemma u32_ok_false z : (z < 0 \/ 2 ^ 32 <= z)%Z -> u32_ok z = false.
Proof. intros Hz. apply not_true_iff_false. rewrite u32_ok_range. lia. Qed.

(** The digit loop on decimal digits: the value, when it fits in [u32];
    [None] as soon as the [checked_mul] or the [checked_add] overflows,
    and it does overflow when the value of all the digits does not fit. *)
Lemma u32_digits_str acc ds :
  Forall (fun d => d < 10)%N ds -> (acc < 2 ^ 32)%N ->
  u32_digits (Z.of_N acc) (digits_str ds) =
    if (digits_value acc ds <? 2 ^ 32)%N then Some (Z.of_N (digits_value acc ds)) else None.
Proof.
  revert acc. induction ds as [|d ds IH]; intros acc Hds Hacc.
  { cbn. by rewrite (proj2 (N.ltb_lt _ _) Hacc). }
  apply Forall_cons in Hds as [Hd Hds]. rewrite digits_str_cons. cbn [u32_digits].
  rewrite digit_val_char by done. pose proof (digits_value_ge (acc * 10 + d) ds).
  change (digits_value acc (d :: ds)) with (digits_value (acc * 10 + d) ds) in *.
  destruct (N.ltb_spec (acc * 10 + d) (2 ^ 32)).
  - rewrite !(proj2 (u32_ok_range _)) by lia.
    replace (Z.of_N acc * 10 + Z.of_N d)%Z with (Z.of_N (acc * 10 + d)) by lia. by apply IH.
  - rewrite (u32_ok_false (Z.of_N acc * 10 + Z.of_N d)) by lia.
    rewrite (proj2 (N.ltb_ge _ _)) by lia. by destruct (u32_ok _).
Qed.

(** [from_str::<u32>] on the decimal text of a natural number: the
    number when it fits in [u32], an error when it overflows. *)
Lemma read_u32_show_N n :
  read_u32 (JString (show_N n)) =
    if (n <? 2 ^ 32)%N then Ok (Z.of_N n) else Err (ExpectedError "Number").
Proof.
  destruct (show_N_shape n) as (d & ds & Hs & Hd & Hds & Hv & _).
  rewrite Hs. cbn [read_u32]. rewrite <- digits_str_cons.
  change 0%Z with (Z.of_N 0). rewrite u32_digits_str by (try constructor; done || lia).
  change (digits_value 0 (d :: ds)) with (digits_value d ds). rewrite Hv.
  by destruct (n <? 2 ^ 32)%N.
Qed.

(** [from_str::<u32>] reads the decimal text of every [u32] back. *)
Lemma read_u32_show z : u32_ok z = true -> read_u32 (JString (show_Z z)) = Ok z.
Proof.
  intros Hz%u32_ok_range. unfold show_Z. destruct (Z.ltb_spec z 0); [lia|].
  rewrite read_u32_show_N, (proj2 (N.ltb_lt _ _)) by lia. f_equal. lia.
Qed.

Lemma read_seq_str_map l : read_seq_str (JList (map JString l)) = Ok l.
Proof.
  simpl. induction l as [|s l IH]; simpl; [reflexivity|]. by rewrite IH.
Qed.

Lemma config_to_json_canon c : config_wf c = true -> json_canon (config_to_json c) = true.
Proof.
  intros (H1 & H2 & H3 & H4)%config_wf_iff.
  apply u32_ok_range in H1, H2, H3, H4.
  destruct c as [? ? ? ? ? [? ?] ? ? tg ? ?]; simpl in *.
  repeat (apply andb_true_intro; split); try reflexivity; try (apply N.ltb_lt; lia).
  induction tg; simpl; auto.
Qed.

Lemma obj_lookup_fields (h : Field -> Json) f :
  obj_lookup (field_name f) (map (fun g => (field_name g, h g)) fields) = Some (h f).
Proof. destruct f; reflexivity. Qed.

Lemma read_struct_field_to_json {A} f (r : Json -> result A DecoderError) c :
  read_struct_field (field_name f) r (config_to_json c) = r (field_json (get_field c f)).
Proof. unfold read_struct_field, config_to_json. by rewrite obj_lookup_fields. Qed.

Lemma config_from_to_json c : config_wf c = true -> config_from_json (config_to_json c) = Ok c.
Proof.
  intros (H1 & H2 & H3 & H4)%config_wf_iff.
  unfold config_from_json. rewrite !read_struct_field_to_json.
  destruct c as [? ? ? ? ? [? ?] ? ? tg ? ?]; cbn [field_json get_field fst snd] in *.
  rewrite !read_u32_to_N by done. rewrite read_seq_str_map. reflexivity.
Qed.

Lemma read_struct_field_missing {A} name (r : Json -> result A DecoderError) j n :
  Reader r -> read_struct_field name r j = Err (MissingFieldError n) ->
  n = name /\ exists o, j = JObject o /\ obj_lookup name o = None.
Proof.
  intros Hr. unfold read_struct_field.
  destruct j; try discriminate. destruct (obj_lookup name o) eqn:Hl.
  - intros H. by apply Hr in H.
  - intros [= ->]. eauto.
Qed.

Lemma read_struct_field_error {A} name (r : Json -> result A DecoderError) j e :
  Reader r -> read_struct_field name r j = Err e ->
  e = MissingFieldError name \/ reader_error e = true.
Proof.
  intros Hr. unfold read_struct_field. repeat case_match; intros Herr; simplify_eq; eauto.
Qed.

(** The readers whose errors are literals of their body. *)
Ltac reader_by_cases :=
  intros v e H; destruct v; simpl in H; repeat case_match; simplify_eq; reflexivity.

Lemma read_str_reader : Reader read_str.
Proof. reader_by_cases. Qed.

Lemma read_bool_reader : Reader read_bool.
Proof. reader_by_cases. Qed.

Lemma read_u32_reader : Reader read_u32.
Proof. reader_by_cases. Qed.

Lemma read_pair_str_reader : Reader read_pair_str.
Proof.
  intros v e H. destruct v as [| | | | |l| |]; simpl in H; simplify_eq; try reflexivity.
  destruct l as [|a [|b [|? ?]]]; simpl in H; simplify_eq; try reflexivity.
  repeat (rbind_err H; [eapply read_str_reader, H|]). discriminate.
Qed.

Lemma read_seq_str_reader : Reader read_seq_str.
Proof.
  intros v e H. destruct v; simpl in H; simplify_eq; try reflexivity.
  apply result_map_Err in H as (x & _ & Hx). by eapply read_str_reader.
Qed.

#[local] Hint Resolve read_str_reader read_pair_str_reader read_seq_str_reader
  read_bool_reader read_u32_reader : wtftw.

(** Decoding a parsed value fails only for a missing field or a value of
    the wrong shape; it never reports a parse error. *)
Lemma config_from_json_error j e :
  config_from_json j = Err e -> (exists n, e = MissingFieldError n) \/ reader_error e = true.
Proof.
  unfold config_from_json. intros H. repeat rbind_err H; try discriminate;
  (apply read_struct_field_error in H as [-> | ?]; [eauto | eauto | eauto with wtftw]).
Qed.

Lemma decode_encode_wf c : config_wf c = true -> decode (encode c) = Ok c.
Proof.
  intros Hwf. unfold decode, encode.
  rewrite from_str_print by (by apply config_to_json_canon).
  by apply config_from_to_json.
Qed.

Lemma default_config_wf home : config_wf (default_config home) = true.
Proof. reflexivity. Qed.

Lemma read_struct_field_obj_Ok {A} name (r : Json -> result A DecoderError) o a :
  read_struct_field name r (JObject o) = Ok a -> exists v, obj_lookup name o = Some v /\ r v = Ok a.
Proof. unfold read_struct_field. case_match; [eauto | discriminate]. Qed.

Lemma read_struct_field_obj {A} name (r : Json -> result A DecoderError) o v :
  obj_lookup name o = Some v -> read_struct_field name r (JObject o) = r v.
Proof. unfold read_struct_field. by intros ->. Qed.

Lemma config_from_json_object j c : config_from_json j = Ok c -> exists o, j = JObject o.
Proof. destruct j; try discriminate. eauto. Qed.

Lemma config_from_json_Ok o c : config_from_json (JObject o) = Ok c <-> object_holds o c.
Proof.
  unfold object_holds, fields. rewrite !Forall_cons. split.
  - unfold config_from_json. intros H. repeat (rbind_ok H). injection H as <-.
    repeat match goal with
           | Hf : read_struct_field _ _ _ = Ok _ |- _ =>
               apply read_struct_field_obj_Ok in Hf as (? & ? & ?)
           end.
    repeat split; try apply Forall_nil; eexists; (split; [eassumption|]); cbn [read_field get_field];
      match goal with H : ?r ?v = Ok _ |- context [?r ?v] => rewrite H end; reflexivity.
  - destruct c as [? ? ? ? ? [? ?] ? ? ? ? ?]. intros H.
    repeat match goal with
           | H : _ /\ _ |- _ => destruct H
           | H : exists _, _ |- _ => destruct H
           end.
    cbn [read_field get_field] in *.
    repeat match goal with
           | R : rmap (fun _ => VPair _ _) _ = Ok _ |- _ =>
               apply rmap_Ok_inv in R as ([? ?] & ? & ?); simplify_eq
           | R : rmap _ _ = Ok _ |- _ => apply rmap_Ok_inv in R as (? & ? & ?); simplify_eq
           end.
    unfold config_from_json.
    repeat match goal with
           | L : obj_lookup ?n o = Some ?v |- context [read_struct_field ?n ?r (JObject o)] =>
               rewrite (read_struct_field_obj n r o v L)
           end.
    repeat match goal with H : ?r ?v = Ok _ |- context [?r ?v] => rewrite H end.
    reflexivity.
Qed.

(** * Properties of the codec *)

(** C4: decoding the encoding of a record whose [u32] fields fit gives the
    record back ([decode(encode(S)) == S] of the spec). *)
Theorem decode_encode c : config_wf c = true -> decode (encode c) = Ok c.
Proof. apply decode_encode_wf. Qed.

Lemma decode_encode_witness :
  config_wf (default_config "/root") = true /\
  decode (encode (default_config "/root")) = Ok (default_config "/root").
Proof. split; [reflexivity | apply decode_encode; reflexivity]. Defined.

(** C5: the text [json::encode] writes for a record is well-formed JSON:
    [json::from_str] reads back exactly the object the derived
    [Encodable] emits, one member per field in declaration order. *)
Theorem encode_parses c : config_wf c = true -> from_str (encode c) = Ok (config_to_json c).
Proof. intros Hwf. apply from_str_print. by apply config_to_json_canon. Qed.

Lemma encode_parses_witness :
  config_wf (default_config "/root") = true /\
  from_str (encode (default_config "/root")) = Ok (config_to_json (default_config "/root")).
Proof. split; [reflexivity | apply encode_parses; reflexivity]. Defined.

(** C15: a [MissingFieldError] names a field of [Config] that the parsed
    object really lacks. *)
Theorem decode_missing_field s n :
  decode s = Err (MissingFieldError n) ->
  exists f o, n = field_name f /\ from_str s = Ok (JObject o) /\ obj_lookup n o = None.
Proof.
  unfold decode. destruct (from_str s) as [j|e]; [|discriminate].
  unfold config_from_json. intros H. repeat rbind_err H; try discriminate;
  (apply read_struct_field_missing in H as [-> (o & -> & Hl)];
   [eexists _, o; split; [reflexivity | split; [reflexivity | exact Hl]]
   | eauto with wtftw]).
Qed.

Lemma decode_missing_field_witness :
  decode "{}" = Err (MissingFieldError "focus_follows_mouse") /\
  exists f o, "focus_follows_mouse" = field_name f /\
    from_str "{}" = Ok (JObject o) /\ obj_lookup "focus_follows_mouse" o = None.
Proof.
  assert (H : decode "{}" = Err (MissingFieldError "focus_follows_mouse"))
    by (vm_compute; reflexivity).
  split; [exact H | exact (decode_missing_field "{}" "focus_follows_mouse" H)].
Defined.


(** An encoding opens with a brace, so nothing before it can read into it. *)
Lemma encode_app_head c x : exists r, (encode c ++ x)%string = String "{" r.
Proof. eexists. reflexivity. Qed.

(** A complete document with encodings appended after it no longer
    parses: the parser stops after the document and finds more text. *)
Lemma decode_app_encode t j c x :
  from_str t = Ok j ->
  decode (t ++ encode c ++ x) = Err (ParseError (SyntaxError TrailingCharacters)).
Proof.
  intros H. unfold decode. destruct (encode_app_head c x) as [r ->].
  by rewrite (from_str_app_trailing t _ j H).
Qed.

(** C26: [json::decode] returns on every text: its result is a decoded
    record, a decoding error or one of the library's syntax errors, and
    never the model's [FuelExhausted]; the fuel [from_str] gives the
    parser is enough for every input, not only for encoder output. *)
Theorem decode_total s : decode s <> Err (ParseError FuelExhausted).
Proof.
  unfold decode. pose proof (from_str_no_fuel_error s).
  destruct (from_str s) as [j|e]; [|congruence].
  intros [[? ?] | ?]%config_from_json_error; discriminate.
Qed.

(** C14: [json::decode] is all-or-nothing and reads fields by name:
    [decode s] returns [c] exactly when [s] parses to a JSON object in
    which every field of [Config] is present and reads, with the reader
    of its Rust type, as [c]'s value.  Other keys are ignored, and of two
    members with the same key the later one counts ([obj_lookup]). *)
Theorem decode_ok_iff s c :
  decode s = Ok c <-> exists o, from_str s = Ok (JObject o) /\ object_holds o c.
Proof.
  unfold decode. destruct (from_str s) as [j|e].
  - split.
    + intros H. destruct (config_from_json_object _ _ H) as [o ->].
      exists o. split; [reflexivity | by apply config_from_json_Ok].
    + intros (o & [= ->] & Ho). by apply config_from_json_Ok.
  - split; [discriminate | intros (? & ? & _); discriminate].
Qed.

Lemma decode_ok_iff_witness :
  exists o, from_str (encode (default_config "/root")) = Ok (JObject o) /\
    object_holds o (default_config "/root").
Proof.
  apply (proj1 (decode_ok_iff (encode (default_config "/root")) (default_config "/root"))).
  vm_compute. reflexivity.
Defined.

(** C16: [json::decode] reads every spelling of a record's JSON as the
    record: whitespace around the document and between its tokens, and
    strings and keys written with any escapes the parser accepts
    ([\u] escapes of single units and of surrogate pairs included), give
    back the record whose encoding they spell. *)
Theorem decode_spelled c t w1 w2 :
  config_wf c = true -> spelled (config_to_json c) t -> blank w1 -> blank w2 ->
  decode (w1 ++ t ++ w2) = Ok c.
Proof.
  intros Hc Ht Hw1 Hw2. unfold decode. rewrite (from_str_spelled _ t w1 w2) by done.
  by apply config_from_to_json.
Qed.

(** One member of a record's JSON, spelled with blanks around the colon. *)
Ltac spell_member :=
  eapply (sp_member _ _ _ " " " "); [apply spells_escape_chars | reflexivity | reflexivity |].

Lemma decode_spelled_witness :
  exists t, config_wf (default_config "/root") = true /\
    spelled (config_to_json (default_config "/root")) t /\ blank " " /\
    blank (String "010" EmptyString) /\
    decode (" " ++ t ++ String "010" EmptyString) = Ok (default_config "/root").
Proof.
  cut (exists t, spelled (config_to_json (default_config "/root")) t).
  { intros [t Ht]. exists t. split; [reflexivity|]. split; [exact Ht|].
    split; [reflexivity|]. split; [reflexivity|].
    apply decode_spelled; [reflexivity | exact Ht | reflexivity | reflexivity]. }
  eexists. cbn.
  eapply (sp_object _ _ _ EmptyString _ _ EmptyString); [reflexivity | spell_member | | reflexivity].
  { apply spelled_to_string. reflexivity. }
  do 5 (eapply (sm_cons _ _ _ EmptyString EmptyString);
        [reflexivity | reflexivity | spell_member; apply spelled_to_string; reflexivity |]).
  (* terminal_key: "\u0052eturn" *)
  eapply (sm_cons _ _ _ EmptyString EmptyString); [reflexivity | reflexivity | spell_member |].
  { cbn. apply sp_string. eapply (spells_app _ "R" _ "eturn");
      [apply (spells_code_point_eq 0x52); reflexivity | apply spells_escape_chars]. }
  do 4 (eapply (sm_cons _ _ _ EmptyString EmptyString);
        [reflexivity | reflexivity | spell_member; apply spelled_to_string; reflexivity |]).
  apply sm_nil.
Defined.

Lemma read_struct_field_fields {A} (h : Field -> Json) f (r : Json -> result A DecoderError) :
  read_struct_field (field_name f) r (JObject (map (fun g => (field_name g, h g)) fields)) = r (h f).
Proof. unfold read_struct_field. by rewrite obj_lookup_fields. Qed.

Lemma config_to_json_u32_strings_canon c : json_canon (config_to_json_u32_strings c) = true.
Proof.
  destruct c as [? ? ? ? ? [? ?] ? ? tg ? ?]. cbn.
  repeat (apply andb_true_intro; split); try reflexivity. induction tg; simpl; auto.
Qed.

(** C17: a [u32] field written as a JSON string of its decimal digits
    (["border_width": "2"]) is read as that number: the record's JSON
    with all four [u32] fields written as strings decodes to the record.
    The spec says [decode] fails for a field of the wrong shape, "a
    string where an integer is expected"; the decoder's [read_u32]
    accepts a string that [from_str::<u32>] reads. *)
Theorem decode_u32_string_fields c :
  config_wf c = true -> decode (to_string (config_to_json_u32_strings c)) = Ok c.
Proof.
  intros (H1 & H2 & H3 & H4)%config_wf_iff. unfold decode.
  rewrite from_str_print by apply config_to_json_u32_strings_canon.
  unfold config_from_json, config_to_json_u32_strings. rewrite !read_struct_field_fields.
  destruct c as [? ? ? ? ? [? ?] ? ? tg ? ?]; cbn [u32_as_string field_json get_field fst snd] in *.
  rewrite !read_u32_show by done. rewrite read_seq_str_map. reflexivity.
Qed.

Lemma decode_u32_string_fields_witness :
  config_wf (default_config "/root") = true /\
  decode (to_string (config_to_json_u32_strings (default_config "/root"))) =
    Ok (default_config "/root").
Proof. split; [reflexivity | apply decode_u32_string_fields; reflexivity]. Defined.

(** Decoding a record's JSON in which one member has been replaced: the
    other fields read back, so the result is what the replaced member
    reads as, written into that field, or the error of reading it. *)
Lemma config_from_json_at c f v :
  config_wf c = true ->
  config_from_json (config_to_json_at c f v) = rmap (set_field c f) (read_field f v).
Proof.
  intros (H1 & H2 & H3 & H4)%config_wf_iff.
  unfold config_from_json, config_to_json_at. rewrite !read_struct_field_fields.
  destruct c as [? ? ? ? ? [? ?] ? ? tg ? ?]; cbn [field_json get_field fst snd] in *.
  destruct f; repeat (case_decide; try congruence);
    rewrite ?read_u32_to_N, ?read_seq_str_map by done; cbn [read_field read_bool read_str read_pair_str rbind];
    match goal with |- context [?r v] => destruct (r v) as [[]|] end; reflexivity.
Qed.

Lemma config_to_json_at_canon c f v :
  config_wf c = true -> json_canon v = true -> json_canon (config_to_json_at c f v) = true.
Proof.
  intros Hc Hv. pose proof (config_to_json_canon c Hc) as H. revert H.
  unfold config_to_json, config_to_json_at. cbn [json_canon].
  rewrite !forallb_forall. intros H [k j] (g & [= <- <-] & Hg)%in_map_iff.
  cbn [snd]. case_decide; [done|].
  apply (H (field_name g, field_json (get_field c g))), in_map_iff. eauto.
Qed.

Lemma decode_at c f v :
  config_wf c = true -> json_canon v = true ->
  decode (to_string (config_to_json_at c f v)) = rmap (set_field c f) (read_field f v).
Proof.
  intros Hc Hv. unfold decode. rewrite from_str_print by (by apply config_to_json_at_canon).
  by apply config_from_json_at.
Qed.

Lemma read_field_u32 f v :
  f ∈ [FFocusBorderColor; FBorderColor; FBorderWidth; FSpacing] ->
  read_field f v = rmap VU32 (read_u32 v).
Proof.
  intros Hf. repeat setoid_rewrite elem_of_cons in Hf; rewrite elem_of_nil in Hf.
  by destruct Hf as [->|[->|[->|[->|[]]]]].
Qed.

(** C18: the [u32] fields at their width.  With every other field of a
    valid record in place, a [u32] field given as a JSON number [n] in
    [u64], or as the string of the digits of any natural number [n],
    decodes to [n] exactly when [n < 2^32], and otherwise fails with
    [ExpectedError]: [num::cast] and the [checked_mul]/[checked_add] of
    [from_str::<u32>] reject what does not fit instead of wrapping it.
    A negative number is always rejected. *)
Theorem decode_u32_field_width c f n :
  config_wf c = true -> f ∈ [FFocusBorderColor; FBorderColor; FBorderWidth; FSpacing] ->
  ((n < 2 ^ 64)%N ->
   decode (to_string (config_to_json_at c f (JU64 n))) =
     if (n <? 2 ^ 32)%N then Ok (set_field c f (VU32 (Z.of_N n))) else Err (ExpectedError "Number")) /\
  decode (to_string (config_to_json_at c f (JString (show_N n)))) =
    (if (n <? 2 ^ 32)%N then Ok (set_field c f (VU32 (Z.of_N n))) else Err (ExpectedError "Number")) /\
  ((0 < n <= 2 ^ 63)%N ->
   decode (to_string (config_to_json_at c f (JI64 (- Z.of_N n)))) = Err (ExpectedError "Number")).
Proof.
  intros Hc Hf.
  split; [|split]; [intros Hn| |intros Hn]; rewrite decode_at, read_field_u32 by (cbn; rewrite ?andb_true_iff, ?N.ltb_lt, ?Z.ltb_lt, ?Z.leb_le; done || lia).
  - cbn [read_u32]. by destruct (n <? 2 ^ 32)%N.
  - rewrite read_u32_show_N. by destruct (n <? 2 ^ 32)%N.
  - cbn [read_u32]. by rewrite u32_ok_false by lia.
Qed.

Lemma decode_u32_field_width_witness :
  config_wf (default_config "/root") = true /\
  FBorderWidth ∈ [FFocusBorderColor; FBorderColor; FBorderWidth; FSpacing] /\
  ((2 ^ 32 < 2 ^ 64)%N ->
   decode (to_string (config_to_json_at (default_config "/root") FBorderWidth (JU64 (2 ^ 32)))) =
     Err (ExpectedError "Number")) /\
  decode (to_string (config_to_json_at (default_config "/root") FBorderWidth
                       (JString (show_N (2 ^ 32))))) = Err (ExpectedError "Number") /\
  ((0 < 2 ^ 32 <= 2 ^ 63)%N ->
   decode (to_string (config_to_json_at (default_config "/root") FBorderWidth
                        (JI64 (- Z.of_N (2 ^ 32))))) = Err (ExpectedError "Number")).
Proof.
  assert (Hf : FBorderWidth ∈ [FFocusBorderColor; FBorderColor; FBorderWidth; FSpacing])
    by (right; right; left).
  split; [reflexivity|]. split; [exact Hf|].
  exact (decode_u32_field_width (default_config "/root") FBorderWidth (2 ^ 32) eq_refl Hf).
Defined.

(** The record's JSON around the member of a [u32] field: the members
    before it and after it do not depend on the member's value. *)
Lemma config_to_json_at_split c f :
  config_wf c = true -> f ∈ [FFocusBorderColor; FBorderColor; FBorderWidth; FSpacing] ->
  exists kv0 o1 o2,
    (forall v, config_to_json_at c f v = JObject (kv0 :: o1 ++ (field_name f, v) :: o2)) /\
    json_canon (snd kv0) = true /\ Forall (fun kv => json_canon (snd kv) = true) o1 /\
    Forall (fun kv => json_canon (snd kv) = true) o2.
Proof.
  intros (H1 & H2 & H3 & H4)%config_wf_iff Hf. apply u32_ok_range in H1, H2, H3, H4.
  repeat setoid_rewrite elem_of_cons in Hf; rewrite elem_of_nil in Hf.
  destruct Hf as [->|[->|[->|[->|[]]]]];
    [ eexists _, [], _ | eexists _, [_], _ | eexists _, [_; _], _ | eexists _, [_; _; _], _ ];
    (split; [intros v; unfold config_to_json_at; cbn [map fields];
             repeat (case_decide; try congruence); reflexivity|]);
    cbn; repeat split; repeat constructor; cbn; try apply N.ltb_lt; try lia;
    induction (tags c); simpl; auto.
Qed.

(** C19: numbers beyond the parser's width wrap around.  [parse_u64]
    accumulates the digits in a [u64] that wraps, and its overflow test
    compares with a [last_accum] that stays [0].  So a [u32] field whose
    value in the file is a decimal number [n] from [2^64] up to ten
    times it is read as [n mod 2^64]: the text is a parse error only
    when that is [0], and otherwise the field decodes to [n mod 2^64]
    when it fits in [u32] ([2^64 + 2] decodes to [2]). *)
Theorem decode_u64_wraps c f n :
  config_wf c = true -> f ∈ [FFocusBorderColor; FBorderColor; FBorderWidth; FSpacing] ->
  (2 ^ 64 <= n < 10 * 2 ^ 64)%N ->
  decode (to_string (config_to_json_at c f (JU64 n))) =
    if (n mod 2 ^ 64 =? 0)%N then Err (ParseError (SyntaxError InvalidNumber))
    else if (n mod 2 ^ 64 <? 2 ^ 32)%N then Ok (set_field c f (VU32 (Z.of_N (n mod 2 ^ 64))))
    else Err (ExpectedError "Number").
Proof.
  intros Hc Hf Hn. destruct (config_to_json_at_split c f Hc Hf) as (kv0 & o1 & o2 & Heq & H0 & H1 & H2).
  pose proof (fun m Y => parse_value_u64_wrap m n Y Hn) as HT.
  unfold decode. rewrite Heq, to_string_object_text. cbn [to_string].
  destruct (N.eqb_spec (n mod 2 ^ 64) 0) as [Hz|Hz].
  - rewrite (from_str_object_text_error _ _ _ _ _ (SyntaxError InvalidNumber)); [done..|].
    intros m Y HY. rewrite HT by done. rewrite ?Hz. reflexivity.
  - rewrite (from_str_object_text_ok _ _ _ _ (JU64 (n mod 2 ^ 64))); [|done..|].
    + rewrite <- Heq, config_from_json_at, read_field_u32 by done. cbn [read_u32].
      by destruct (n mod 2 ^ 64 <? 2 ^ 32)%N.
    + intros m Y HY. by rewrite HT.
Qed.

Lemma decode_u64_wraps_witness :
  config_wf (default_config "/root") = true /\
  FBorderWidth ∈ [FFocusBorderColor; FBorderColor; FBorderWidth; FSpacing] /\
  (2 ^ 64 <= 2 ^ 64 + 2 < 10 * 2 ^ 64)%N /\
  decode (to_string (config_to_json_at (default_config "/root") FBorderWidth (JU64 (2 ^ 64 + 2)))) =
    Ok (set_field (default_config "/root") FBorderWidth (VU32 2)).
Proof.
  assert (Hf : FBorderWidth ∈ [FFocusBorderColor; FBorderColor; FBorderWidth; FSpacing])
    by (right; right; left).
  assert (Hn : (2 ^ 64 <= 2 ^ 64 + 2 < 10 * 2 ^ 64)%N) by lia.
  split; [reflexivity|]. split; [exact Hf|]. split; [exact Hn|].
  exact (decode_u64_wraps (default_config "/root") FBorderWidth (2 ^ 64 + 2) eq_refl Hf Hn).
Defined.
