(* ===== verification/ObjectMap.v ===== *)
(** * The library's [json::Object] as a [TreeMap]

    The parser of [serialize::json] stores an object in a
    [TreeMap<String, Json>]: [Builder::build_object] inserts the members
    in text order, so a later member replaces an earlier one with the
    same key, and [Decoder::read_struct_field] looks the field up in
    that map.  [Json] and [Codec] keep the members as a list and look a
    key up with [obj_lookup] (the last occurrence wins).  This file
    models the [TreeMap] as a [gmap string Json] ([object_map]), proves
    that the list lookup is the map lookup ([object_map_lookup]), and
    shows that decoding a list of members gives the same result as
    decoding the map's own entries ([config_from_json_treemap]).  Lists
    that build the same map are related by [obj_equiv]; decoding respects
    it ([config_from_json_proper]). *)

From S2P Require Import Prelude Snapshot Json Codec.
From stdpp Require Import gmap strings fin_maps.
From Stdlib Require Import Morphisms.
Local Open Scope string_scope.

(** [Builder::build_object]: the members inserted in text order. *)
Definition object_map (o : list (string * Json)) : gmap string Json :=
  foldl (fun m kv => <[fst kv := snd kv]> m) ∅ o.

(** Two member lists are equivalent when every key reads alike, that is,
    when they build the same [TreeMap] ([obj_equiv_object_map]). *)
Definition obj_equiv (o o' : list (string * Json)) : Prop :=
  forall k, obj_lookup k o = obj_lookup k o'.

(** * Lemmas *)

Lemma obj_lookup_snoc_eq k o v : obj_lookup k (o ++ [(k, v)]) = Some v.
Proof.
  induction o as [|[k0 v0] o IH]; simpl; [by rewrite decide_True | by rewrite IH].
Qed.

Lemma obj_lookup_snoc_ne k o k' v :
  k <> k' -> obj_lookup k (o ++ [(k', v)]) = obj_lookup k o.
Proof.
  intros Hne. induction o as [|[k0 v0] o IH]; simpl; [by rewrite decide_False | by rewrite IH].
Qed.

(** The list model's lookup is a lookup in the [TreeMap] the library builds. *)
Lemma object_map_lookup o k : object_map o !! k = obj_lookup k o.
Proof.
  unfold object_map. induction o as [|[k' v] o IH] using rev_ind; [done|].
  rewrite foldl_app. simpl. destruct (decide (k' = k)) as [<-|Hne].
  - by rewrite lookup_insert_eq, obj_lookup_snoc_eq.
  - by rewrite lookup_insert_ne, obj_lookup_snoc_ne.
Qed.

Lemma obj_lookup_not_in k l : k ∉ l.*1 -> obj_lookup k l = None.
Proof.
  induction l as [|[k' v'] l IH]; intros Hk; simpl; [done|].
  rewrite fmap_cons, not_elem_of_cons in Hk. destruct Hk as [Hne Hk].
  rewrite IH by done. by rewrite decide_False.
Qed.

(** Without duplicate keys, a member list is read as the set of its pairs. *)
Lemma obj_lookup_nodup k v l : NoDup (l.*1) -> obj_lookup k l = Some v <-> (k, v) ∈ l.
Proof.
  revert v. induction l as [|[k' v'] l IH]; intros v Hnd; simpl.
  - split; [discriminate | by intros ?%elem_of_nil].
  - rewrite fmap_cons, NoDup_cons in Hnd. destruct Hnd as [Hk' Hnd]. rewrite elem_of_cons, <- IH by done.
    destruct (obj_lookup k l) eqn:E.
    + split; [intros [= ->]; by right|]. intros [[= -> ->]|?]; [|done].
      exfalso. apply Hk'. apply (list_elem_of_fmap_2 fst l (k', j)). by apply IH.
    + case_decide as Hkk; subst; split; try (intros [[= ->]|?]; congruence).
      * intros [= ->]. by left.
      * discriminate.
Qed.

Lemma obj_lookup_map_to_list k (m : gmap string Json) : obj_lookup k (map_to_list m) = m !! k.
Proof.
  destruct (m !! k) as [v|] eqn:E.
  - apply obj_lookup_nodup; [apply NoDup_fst_map_to_list | by apply elem_of_map_to_list].
  - apply obj_lookup_not_in. intros ([k' v] & -> & Hin)%list_elem_of_fmap.
    apply elem_of_map_to_list in Hin. simpl in *. congruence.
Qed.

#[export] Instance obj_equiv_equivalence : Equivalence obj_equiv.
Proof.
  split; [by intros o k | by intros o o' H k | intros o o' o'' H H' k; by rewrite H, H'].
Qed.

#[export] Instance obj_lookup_proper k : Proper (obj_equiv ==> eq) (obj_lookup k).
Proof. intros o o' H. apply H. Qed.

Lemma obj_equiv_object_map o o' : obj_equiv o o' <-> object_map o = object_map o'.
Proof.
  split; intros H.
  - apply map_eq. intros k. by rewrite !object_map_lookup, H.
  - intros k. by rewrite <- !object_map_lookup, H.
Qed.

Lemma obj_equiv_map_to_list o : obj_equiv o (map_to_list (object_map o)).
Proof. intros k. by rewrite obj_lookup_map_to_list, object_map_lookup. Qed.

Lemma read_struct_field_equiv o o' :
  obj_equiv o o' -> forall A name (r : Json -> result A DecoderError),
  read_struct_field name r (JObject o) = read_struct_field name r (JObject o').
Proof. intros H A name r. unfold read_struct_field. by rewrite H. Qed.

#[export] Instance config_from_json_proper :
  Proper (obj_equiv ==> eq) (fun o => config_from_json (JObject o)).
Proof.
  intros o o' H. unfold config_from_json. by rewrite !(read_struct_field_equiv o o' H).
Qed.

(** * Properties *)

(** The list model of an object decodes like the library's
    [TreeMap]: decoding the members as parsed gives the same result as
    decoding the entries of the map [Builder::build_object] makes of
    them (sorted by key, one entry per key, the later member kept).  So
    the association list of the model loses nothing of the library's
    behaviour on duplicate or reordered keys. *)
Theorem config_from_json_treemap o :
  config_from_json (JObject o) = config_from_json (JObject (map_to_list (object_map o))).
Proof. exact (config_from_json_proper _ _ (obj_equiv_map_to_list o)). Qed.
