(* ===== verification/Store.v ===== *)
(** * The concurrent [ConfigLock]: readers and updates interleaved

    Threads call [ConfigLock::current] (config.rs lines 43-45) and
    [Updatable::update] (lines 57-59) on one lock.  [current] takes the
    read guard ([self.conf.read()]), clones the record field by field
    ([deref().clone()], the derived [Clone]) and drops the guard at the
    end of the statement.  [update] holds [&mut self], so it starts only
    when no shared borrow (no read guard) and no other exclusive borrow
    is live, and then overwrites the record field by field
    ([self.conf = RWLock::new(new_conf)]).  Each of these actions is one
    step of [step]; any interleaving of the threads' steps is a run.

    The state keeps the lock as the code has it (the record in the slot,
    the number of live read guards, the exclusive flag) and two ghost
    fields: [prev] and [latest], the snapshots installed so far by
    [initialize] and by completed updates, [latest] the last.  A thread
    that calls [current] records the index of [latest] at call time. *)

From S2P Require Import Prelude Snapshot.

Inductive Thread :=
| ReadReq (since : nat)
| Reading (since : nat) (copied : list FieldValue)
| ReadDone (since : nat) (result : Config)
| WriteReq (new_conf : Config)
| Writing (new_conf : Config) (written : nat)
| WriteDone.

Record State := mkState {
  slot : Config;
  readers : nat;
  writer : bool;
  threads : list Thread;
  prev : list Config;
  latest : Config
}.

(** The snapshots installed so far, oldest first. *)
Definition installed (s : State) : list Config := prev s ++ [latest s].

(** The lock as [initialize] returns it. *)
Definition init (c : Config) : State := mkState c 0 false [] [] c.

Definition is_reading (t : Thread) : bool :=
  match t with Reading _ _ => true | _ => false end.

Definition is_writing (t : Thread) : bool :=
  match t with Writing _ _ => true | _ => false end.

Definition with_threads (s : State) (ts : list Thread) : State :=
  mkState (slot s) (readers s) (writer s) ts (prev s) (latest s).

Inductive step : State -> State -> Prop :=
(** A thread calls [current()]. *)
| step_call_current s :
    step s (with_threads s (threads s ++ [ReadReq (length (prev s))]))
(** A thread calls [update(new_conf)]. *)
| step_call_update s n :
    step s (with_threads s (threads s ++ [WriteReq n]))
(** [self.conf.read()]: blocks while an exclusive borrow is live. *)
| step_read_acquire s i since :
    threads s !! i = Some (ReadReq since) -> writer s = false ->
    step s (mkState (slot s) (S (readers s)) (writer s)
              (<[i := Reading since []]> (threads s)) (prev s) (latest s))
(** [clone()] copies the next field. *)
| step_read_field s i since vs f :
    threads s !! i = Some (Reading since vs) -> fields !! length vs = Some f ->
    step s (with_threads s (<[i := Reading since (vs ++ [get_field (slot s) f])]> (threads s)))
(** The clone is complete; the guard is dropped and the clone returned. *)
| step_read_release s i since vs c :
    threads s !! i = Some (Reading since vs) -> of_fields vs = Some c ->
    step s (mkState (slot s) (pred (readers s)) (writer s)
              (<[i := ReadDone since c]> (threads s)) (prev s) (latest s))
(** [&mut self]: no read guard and no other exclusive borrow is live. *)
| step_write_acquire s i n :
    threads s !! i = Some (WriteReq n) -> writer s = false -> readers s = 0 ->
    step s (mkState (slot s) (readers s) true
              (<[i := Writing n 0]> (threads s)) (prev s) (latest s))
(** The struct assignment writes the next field. *)
| step_write_field s i n k f :
    threads s !! i = Some (Writing n k) -> fields !! k = Some f ->
    step s (mkState (set_field (slot s) f (get_field n f)) (readers s) (writer s)
              (<[i := Writing n (S k)]> (threads s)) (prev s) (latest s))
(** The assignment is complete; the borrow ends. *)
| step_write_release s i n :
    threads s !! i = Some (Writing n (length fields)) ->
    step s (mkState (slot s) (readers s) false
              (<[i := WriteDone]> (threads s)) (prev s ++ [latest s]) n).

Inductive reachable : State -> Prop :=
| reachable_init c : reachable (init c)
| reachable_step s s' : reachable s -> step s s' -> reachable s'.

(** ** The invariant *)

(** What each thread knows about the lock. *)
Definition thread_ok (s : State) (t : Thread) : Prop :=
  match t with
  | ReadReq since => since < length (installed s)
  | Reading since vs =>
      since < length (installed s) /\ writer s = false /\
      length vs <= length fields /\ vs = take (length vs) (get_field (slot s) <$> fields)
  | ReadDone since c => exists j, since <= j /\ installed s !! j = Some c
  | WriteReq _ => True
  | Writing n k =>
      writer s = true /\ k <= length fields /\ slot s = copy_prefix k n (latest s)
  | WriteDone => True
  end.

Record inv (s : State) : Prop := {
  inv_readers : readers s = countb is_reading (threads s);
  inv_writers : countb is_writing (threads s) = if writer s then 1 else 0;
  inv_slot : writer s = false -> slot s = latest s;
  inv_threads : forall i t, threads s !! i = Some t -> thread_ok s t
}.

(** * Lemmas *)

Lemma thread_ok_transfer s s' t :
  slot s' = slot s -> writer s' = writer s -> prev s' = prev s -> latest s' = latest s ->
  thread_ok s t -> thread_ok s' t.
Proof.
  intros Hsl Hw Hp Hl. unfold thread_ok, installed. rewrite Hsl, Hw, Hp, Hl. done.
Qed.

(** A thread other than [i] keeps its lookup when [i] is updated. *)
Lemma lookup_insert_other (ts : list Thread) i j t t' :
  <[i := t]> ts !! j = Some t' -> i <> j -> ts !! j = Some t'.
Proof. intros H Hne. by rewrite list_lookup_insert_ne in H. Qed.

(** The threads of a state after thread [i] moves to [t]: [t] itself, or
    an unchanged thread. *)
Lemma lookup_insert_cases (ts : list Thread) i j t t' :
  <[i := t]> ts !! j = Some t' -> (i = j /\ t = t') \/ (i <> j /\ ts !! j = Some t').
Proof. intros [(? & ? & _) | (? & ?)]%list_lookup_insert_Some; [left | right]; auto. Qed.

Lemma copy_prefix_S k f n d :
  fields !! k = Some f ->
  copy_prefix (S k) n d = set_field (copy_prefix k n d) f (get_field n f).
Proof.
  intros Hf. unfold copy_prefix. rewrite (take_S_r _ _ _ Hf), foldl_app. reflexivity.
Qed.

Lemma installed_snoc s n :
  installed (mkState (slot s) (readers s) false (threads s) (prev s ++ [latest s]) n) =
  installed s ++ [n].
Proof. reflexivity. Qed.

Lemma latest_installed s : installed s !! length (prev s) = Some (latest s).
Proof. unfold installed. rewrite lookup_app_r by lia. by rewrite Nat.sub_diag. Qed.

Lemma length_installed s : length (installed s) = S (length (prev s)).
Proof. unfold installed. rewrite length_app. simpl. lia. Qed.

(** ** Each step preserves the invariant *)

Lemma inv_call s t :
  inv s -> (t = ReadReq (length (prev s)) \/ exists n, t = WriteReq n) ->
  inv (with_threads s (threads s ++ [t])).
Proof.
  intros [Hr Hw Hs Ht] Htk. constructor; simpl.
  - rewrite countb_snoc. destruct Htk as [-> | [n ->]]; simpl; lia.
  - rewrite countb_snoc, Hw. destruct Htk as [-> | [n ->]]; simpl; lia.
  - exact Hs.
  - intros i t' [[_ Hi] | [_ <-]]%lookup_snoc_Some.
    + eapply thread_ok_transfer, Ht; eauto.
    + destruct Htk as [-> | [n ->]]; simpl; [|done]. unfold installed. rewrite length_app. simpl. lia.
Qed.

Lemma inv_read_acquire s i since :
  inv s -> threads s !! i = Some (ReadReq since) -> writer s = false ->
  inv (mkState (slot s) (S (readers s)) (writer s)
         (<[i := Reading since []]> (threads s)) (prev s) (latest s)).
Proof.
  intros [Hr Hw Hs Ht] Hi Hwr. pose proof (Ht _ _ Hi) as Hok. constructor; simpl.
  - pose proof (countb_insert is_reading _ _ (Reading since []) _ Hi). simpl in *. lia.
  - pose proof (countb_insert is_writing _ _ (Reading since []) _ Hi). simpl in *. lia.
  - exact Hs.
  - intros j t [[<- <-] | [Hne Hj]]%lookup_insert_cases.
    + cbn [thread_ok] in Hok |- *. unfold installed in *. simpl.
      repeat split; try done; lia.
    + eapply thread_ok_transfer, Ht; eauto.
Qed.

Lemma inv_read_field s i since vs f :
  inv s -> threads s !! i = Some (Reading since vs) -> fields !! length vs = Some f ->
  inv (with_threads s (<[i := Reading since (vs ++ [get_field (slot s) f])]> (threads s))).
Proof.
  intros [Hr Hw Hs Ht] Hi Hf. pose proof (Ht _ _ Hi) as (Hsince & Hwr & Hlen & Hvs).
  constructor; simpl.
  - pose proof (countb_insert is_reading _ _ (Reading since (vs ++ [get_field (slot s) f])) _ Hi).
    simpl in *. lia.
  - pose proof (countb_insert is_writing _ _ (Reading since (vs ++ [get_field (slot s) f])) _ Hi).
    simpl in *. lia.
  - exact Hs.
  - intros j t [[<- <-] | [Hne Hj]]%lookup_insert_cases.
    + unfold with_threads, installed in *. cbn [thread_ok slot writer prev latest].
      apply lookup_lt_Some in Hf as Hlt. rewrite length_app, Nat.add_1_r. cbn [length].
      repeat split; [done | done | lia |].
      rewrite (take_S_r _ _ (get_field (slot s) f)); [by rewrite <- Hvs|].
      by rewrite list_lookup_fmap, Hf.
    + eapply thread_ok_transfer, Ht; eauto.
Qed.

(** A thread that holds no guard and no exclusive borrow only depends on
    the installed snapshots, which only grow. *)
Lemma thread_ok_grow s s' t l :
  is_reading t = false -> is_writing t = false -> installed s' = installed s ++ l ->
  thread_ok s t -> thread_ok s' t.
Proof.
  intros Hr Hw Hinst. destruct t; simpl in *; try done; rewrite Hinst.
  - rewrite length_app. lia.
  - intros (j & Hj & Hc). exists j. split; [done|]. by apply lookup_app_l_Some.
Qed.

(** While an exclusive borrow is live, the only thread that is not
    passive is the writer that holds it. *)
Lemma writer_alone s i n k j t :
  inv s -> threads s !! i = Some (Writing n k) -> threads s !! j = Some t -> i <> j ->
  is_reading t = false /\ is_writing t = false.
Proof.
  intros [Hr Hw Hs Ht] Hi Hj Hne. pose proof (Ht _ _ Hi) as (Hwr & _).
  rewrite Hwr in Hw. split.
  - destruct t; try done. destruct (Ht _ _ Hj) as (_ & Hf & _). congruence.
  - destruct (is_writing t) eqn:Ht'; [|done].
    exfalso. apply Hne. eapply (countb_one is_writing); eauto.
Qed.

Lemma inv_read_release s i since vs c :
  inv s -> threads s !! i = Some (Reading since vs) -> of_fields vs = Some c ->
  inv (mkState (slot s) (pred (readers s)) (writer s)
         (<[i := ReadDone since c]> (threads s)) (prev s) (latest s)).
Proof.
  intros [Hr Hw Hs Ht] Hi Hc. pose proof (Ht _ _ Hi) as (Hsince & Hwr & Hlen & Hvs).
  constructor; simpl.
  - pose proof (countb_insert is_reading _ _ (ReadDone since c) _ Hi). simpl in *. lia.
  - pose proof (countb_insert is_writing _ _ (ReadDone since c) _ Hi). simpl in *. lia.
  - exact Hs.
  - intros j t [[<- <-] | [Hne Hj]]%lookup_insert_cases.
    + rewrite (of_fields_length _ _ Hc), take_ge in Hvs by (rewrite length_fmap, length_fields; lia).
      rewrite Hvs, of_fields_fmap, Hs in Hc by done. injection Hc as <-.
      exists (length (prev s)). split; [rewrite length_installed in Hsince; lia|].
      exact (latest_installed (mkState _ _ _ _ _ _)).
    + eapply thread_ok_transfer, Ht; eauto.
Qed.

Lemma inv_write_acquire s i n :
  inv s -> threads s !! i = Some (WriteReq n) -> writer s = false -> readers s = 0 ->
  inv (mkState (slot s) (readers s) true (<[i := Writing n 0]> (threads s)) (prev s) (latest s)).
Proof.
  intros [Hr Hw Hs Ht] Hi Hwr H0. rewrite Hwr in Hw. constructor; simpl.
  - pose proof (countb_insert is_reading _ _ (Writing n 0) _ Hi). simpl in *. lia.
  - pose proof (countb_insert is_writing _ _ (Writing n 0) _ Hi). simpl in *. lia.
  - discriminate.
  - intros j t [[<- <-] | [Hne Hj]]%lookup_insert_cases.
    + simpl. split; [done|]. split; [cbn; lia|]. by apply Hs.
    + eapply (thread_ok_grow s _ _ []), Ht; eauto.
      * eapply (countb_zero is_reading); eauto. lia.
      * eapply (countb_zero is_writing); eauto.
      * by rewrite app_nil_r.
Qed.

Lemma inv_write_field s i n k f :
  inv s -> threads s !! i = Some (Writing n k) -> fields !! k = Some f ->
  inv (mkState (set_field (slot s) f (get_field n f)) (readers s) (writer s)
         (<[i := Writing n (S k)]> (threads s)) (prev s) (latest s)).
Proof.
  intros Hinv Hi Hf. pose proof Hinv as [Hr Hw Hs Ht].
  pose proof (Ht _ _ Hi) as (Hwr & Hk & Hsl). constructor; simpl.
  - pose proof (countb_insert is_reading _ _ (Writing n (S k)) _ Hi). simpl in *. lia.
  - pose proof (countb_insert is_writing _ _ (Writing n (S k)) _ Hi). simpl in *. lia.
  - congruence.
  - intros j t [[<- <-] | [Hne Hj]]%lookup_insert_cases.
    + apply lookup_lt_Some in Hf as Hlt. cbn [thread_ok writer slot latest].
      split; [done|]. split; [lia|].
      by rewrite (copy_prefix_S _ f), Hsl.
    + destruct (writer_alone s i n k j t) as [Hrd Hwt]; auto.
      eapply (thread_ok_grow s _ _ []), Ht; eauto. by rewrite app_nil_r.
Qed.

Lemma inv_write_release s i n :
  inv s -> threads s !! i = Some (Writing n (length fields)) ->
  inv (mkState (slot s) (readers s) false (<[i := WriteDone]> (threads s))
         (prev s ++ [latest s]) n).
Proof.
  intros Hinv Hi. pose proof Hinv as [Hr Hw Hs Ht].
  pose proof (Ht _ _ Hi) as (Hwr & _ & Hsl). rewrite Hwr in Hw. constructor; simpl.
  - pose proof (countb_insert is_reading _ _ WriteDone _ Hi). simpl in *. lia.
  - pose proof (countb_insert is_writing _ _ WriteDone _ Hi). simpl in *. lia.
  - intros _. by rewrite Hsl, copy_prefix_all.
  - intros j t [[<- <-] | [Hne Hj]]%lookup_insert_cases; [done|].
    destruct (writer_alone s i n (length fields) j t) as [Hrd Hwt]; auto.
    eapply (thread_ok_grow s _ _ [n]), Ht; eauto.
Qed.

Lemma inv_init c : inv (init c).
Proof. constructor; simpl; try done. Qed.

Lemma inv_step s s' : inv s -> step s s' -> inv s'.
Proof.
  intros Hinv Hstep. destruct Hstep.
  - apply inv_call; auto.
  - apply inv_call; eauto.
  - eapply inv_read_acquire; eauto.
  - eapply inv_read_field; eauto.
  - eapply inv_read_release; eauto.
  - eapply inv_write_acquire; eauto.
  - eapply inv_write_field; eauto.
  - eapply inv_write_release; eauto.
Qed.

Lemma reachable_inv s : reachable s -> inv s.
Proof. induction 1; eauto using inv_init, inv_step. Qed.

(** ** Runs of one call *)

Inductive steps : State -> State -> Prop :=
| steps_refl s : steps s s
| steps_step s s' s'' : step s s' -> steps s' s'' -> steps s s''.

(** The state after a [current()] call by a new thread that runs from
    start to end while no other thread steps. *)
Definition seq_current (s : State) : State :=
  with_threads s (threads s ++ [ReadDone (length (prev s)) (slot s)]).

(** The state after an [update(n)] call by a new thread that runs from
    start to end while no other thread steps. *)
Definition seq_update (s : State) (n : Config) : State :=
  mkState n (readers s) false (threads s ++ [WriteDone]) (prev s ++ [latest s]) n.

Lemma steps_trans s1 s2 s3 : steps s1 s2 -> steps s2 s3 -> steps s1 s3.
Proof. induction 1; eauto using steps. Qed.

(** A step changes only the thread that takes it, and a thread that has
    returned from [current()] takes no step. *)
Lemma reachable_steps s s' : reachable s -> steps s s' -> reachable s'.
Proof. intros Hr Hs. induction Hs; eauto using reachable. Qed.

Lemma with_threads_id s : with_threads s (threads s) = s.
Proof. by destruct s. Qed.

Lemma insert_snoc_end {A} (l : list A) x y : <[length l := x]> (l ++ [y]) = l ++ [x].
Proof. rewrite <- (Nat.add_0_r (length l)) at 1. by rewrite insert_app_r. Qed.

Lemma steps_read_fields s i since m :
  threads s !! i = Some (Reading since (take m (get_field (slot s) <$> fields))) ->
  steps s (with_threads s (<[i := Reading since (get_field (slot s) <$> fields)]> (threads s))).
Proof.
  remember (length fields - m) as n eqn:Hn. revert s m Hn.
  induction n as [|n IH]; intros s m Hn Hi.
  - rewrite take_ge in Hi by (rewrite length_fmap; lia).
    rewrite list_insert_id, with_threads_id by done. constructor.
  - destruct (lookup_lt_is_Some_2 fields m) as [f Hf]; [lia|].
    eapply steps_step.
    { apply (step_read_field s i since _ f Hi).
      rewrite length_take_le; [done | rewrite length_fmap; lia]. }
    set (s' := with_threads s _).
    assert (Hi' : threads s' !! i =
                  Some (Reading since (take (S m) (get_field (slot s') <$> fields)))).
    { subst s'. cbn [threads slot with_threads].
      rewrite list_lookup_insert_eq by (eapply lookup_lt_Some; eauto).
      rewrite (take_S_r _ _ (get_field (slot s) f)); [done|].
      by rewrite list_lookup_fmap, Hf. }
    specialize (IH s' (S m) ltac:(lia) Hi'). subst s'.
    cbn [threads slot with_threads] in IH. by rewrite list_insert_insert_eq in IH.
Qed.

(** A reader that holds the guard finishes its clone by its own steps. *)
Lemma steps_finish_read s i since m :
  threads s !! i = Some (Reading since (take m (get_field (slot s) <$> fields))) ->
  steps s (mkState (slot s) (pred (readers s)) (writer s)
             (<[i := ReadDone since (slot s)]> (threads s)) (prev s) (latest s)).
Proof.
  intros Hi. pose proof (lookup_lt_Some _ _ _ Hi) as Hlt.
  eapply steps_trans; [exact (steps_read_fields s i since m Hi)|].
  eapply steps_step.
  { apply (step_read_release (with_threads s (<[i := Reading since (get_field (slot s) <$> fields)]>
                                                (threads s))) i since
                                 (get_field (slot s) <$> fields) (slot s));
      [cbn; by rewrite list_lookup_insert_eq | apply of_fields_fmap]. }
  cbn. rewrite list_insert_insert_eq. constructor.
Qed.

Lemma steps_current s : writer s = false -> steps s (seq_current s).
Proof.
  intros Hw. set (i := length (threads s)). set (since := length (prev s)).
  eapply steps_step; [apply step_call_current|].
  eapply steps_step.
  { apply (step_read_acquire _ i since); [|done]. simpl. by apply list_lookup_middle. }
  eapply steps_trans.
  { apply (steps_finish_read _ i since 0). cbn.
    rewrite list_lookup_insert_eq; [done|]. rewrite length_app. simpl. lia. }
  subst i since. unfold seq_current, with_threads. cbn.
  rewrite list_insert_insert_eq, insert_snoc_end. constructor.
Qed.
Lemma steps_write_fields s i n m :
  threads s !! i = Some (Writing n m) -> slot s = copy_prefix m n (latest s) ->
  m <= length fields ->
  steps s (mkState n (readers s) (writer s) (<[i := Writing n (length fields)]> (threads s))
             (prev s) (latest s)).
Proof.
  remember (length fields - m) as k eqn:Hk. revert s m Hk.
  induction k as [|k IH]; intros s m Hk Hi Hsl Hm.
  - assert (m = length fields) as -> by lia.
    rewrite copy_prefix_all in Hsl. rewrite list_insert_id by done.
    destruct s; simpl in *; subst. constructor.
  - destruct (lookup_lt_is_Some_2 fields m) as [f Hf]; [lia|].
    eapply steps_step; [apply (step_write_field s i n m f Hi Hf)|].
    specialize (IH (mkState (set_field (slot s) f (get_field n f)) (readers s) (writer s)
                      (<[i := Writing n (S m)]> (threads s)) (prev s) (latest s)) (S m)).
    cbn [slot readers writer threads prev latest] in IH. rewrite list_insert_insert_eq in IH. apply IH; [lia| | |lia].
    + apply list_lookup_insert_eq. eapply lookup_lt_Some; eauto.
    + by rewrite (copy_prefix_S _ f), Hsl.
Qed.

(** A pending update that finds no read guard and no other writer runs to
    its end by its own steps and installs its record. *)
Lemma steps_run_update s i n :
  threads s !! i = Some (WriteReq n) -> writer s = false -> readers s = 0 ->
  slot s = latest s ->
  steps s (mkState n (readers s) false (<[i := WriteDone]> (threads s)) (prev s ++ [latest s]) n).
Proof.
  intros Hi Hw Hr Hsl. pose proof (lookup_lt_Some _ _ _ Hi) as Hlt.
  eapply steps_step; [by apply (step_write_acquire _ i n)|].
  eapply steps_trans.
  { apply (steps_write_fields _ i n 0); [| |cbn; lia].
    - cbn. by rewrite list_lookup_insert_eq.
    - exact Hsl. }
  eapply steps_step.
  { apply (step_write_release _ i n). cbn. rewrite list_lookup_insert_eq; [done|].
    by rewrite length_insert. }
  cbn. rewrite !list_insert_insert_eq. constructor.
Qed.

Lemma steps_update s n :
  writer s = false -> readers s = 0 -> slot s = latest s -> steps s (seq_update s n).
Proof.
  intros Hw Hr Hsl. set (i := length (threads s)).
  eapply steps_step; [apply (step_call_update s n)|].
  eapply steps_trans.
  { apply (steps_run_update _ i n); [cbn; by apply list_lookup_middle | done..]. }
  subst i. unfold seq_update. cbn. rewrite insert_snoc_end, Hr. constructor.
Qed.

(** Every reader that holds the guard while no update does finishes by
    its own steps; the threads that are not reading keep their state. *)
Lemma steps_drain_readers k s :
  readers s = k -> reachable s -> writer s = false ->
  exists s', steps s s' /\ readers s' = 0 /\ writer s' = false /\ slot s' = slot s /\
    prev s' = prev s /\ latest s' = latest s /\
    (forall j t, threads s !! j = Some t -> is_reading t = false -> threads s' !! j = Some t).
Proof.
  revert s. induction k as [|k IH]; intros s Hk Hr Hw.
  { exists s. split; [constructor|]. repeat split; auto. }
  pose proof (reachable_inv _ Hr) as Hinv.
  destruct (countb_pos is_reading (threads s)) as (j & t & Hj & Ht);
    [rewrite <- (inv_readers _ Hinv); lia|].
  destruct t as [|since vs| | | |]; try discriminate.
  destruct (inv_threads _ Hinv _ _ Hj) as (_ & _ & _ & Hvs).
  rewrite Hvs in Hj. pose proof (steps_finish_read _ _ _ _ Hj) as Hrun.
  pose proof (reachable_steps _ _ Hr Hrun) as Hr1.
  edestruct IH as (s' & Hs' & H0 & Hw' & Hsl & Hp & Hl & Hkeep); [|exact Hr1|exact Hw|].
  { cbn. lia. }
  exists s'. split; [by eapply steps_trans|]. cbn in *. repeat split; try congruence.
  intros j' t' Hj' Ht'. apply Hkeep; [|done]. cbn.
  rewrite list_lookup_insert_ne; [done|]. intros ->. rewrite Hj in Hj'. injection Hj' as <-.
  discriminate.
Qed.

(** An update in the middle of its assignment finishes by its own steps;
    the threads that are not writing keep their state. *)
Lemma steps_finish_writer s :
  reachable s -> writer s = true ->
  exists s', steps s s' /\ writer s' = false /\ readers s' = readers s /\
    (forall j t, threads s !! j = Some t -> is_writing t = false -> threads s' !! j = Some t).
Proof.
  intros Hr Hw. pose proof (reachable_inv _ Hr) as Hinv.
  destruct (countb_pos is_writing (threads s)) as (j & t & Hj & Ht);
    [rewrite (inv_writers _ Hinv), Hw; lia|].
  destruct t as [| | | |n k|]; try discriminate.
  destruct (inv_threads _ Hinv _ _ Hj) as (_ & Hk & Hsl).
  pose proof (lookup_lt_Some _ _ _ Hj) as Hlt.
  eexists. split.
  { eapply steps_trans; [exact (steps_write_fields _ _ _ _ Hj Hsl Hk)|].
    eapply steps_step; [|constructor].
    apply (step_write_release _ j n). cbn. by rewrite list_lookup_insert_eq. }
  cbn. split; [done|]. split; [done|].
  intros j' t' Hj' Ht'. rewrite !list_lookup_insert_ne; [done| |];
    intros ->; rewrite Hj in Hj'; injection Hj' as <-; discriminate.
Qed.

Lemma update_eventually_free s i n :
  reachable s -> threads s !! i = Some (WriteReq n) -> writer s = false ->
  exists s', steps s s' /\ threads s' !! i = Some WriteDone /\ latest s' = n.
Proof.
  intros Hr Hi Hw.
  destruct (steps_drain_readers _ s eq_refl Hr Hw) as (s1 & Hs1 & H0 & Hw1 & _ & _ & _ & Hkeep).
  pose proof (Hkeep _ _ Hi eq_refl) as Hi1.
  pose proof (inv_slot _ (reachable_inv _ (reachable_steps _ _ Hr Hs1)) Hw1) as Hsl.
  eexists. split; [eapply steps_trans; [exact Hs1 | exact (steps_run_update _ _ _ Hi1 Hw1 H0 Hsl)]|].
  cbn. split; [|done]. apply list_lookup_insert_eq. eapply lookup_lt_Some; eauto.
Qed.
(** The sequential view of a state: the snapshot last installed. *)
Definition abs (s : State) : ConfigLock := {| conf := latest s |}.

(** ** The history of installed snapshots only grows *)

(** A step installs at most one snapshot, and [latest] changes only
    when it does. *)
Lemma step_history s s' :
  step s s' ->
  (prev s' = prev s /\ latest s' = latest s) \/ prev s' = prev s ++ [latest s].
Proof. destruct 1; simpl; auto. Qed.

Lemma steps_history s s' :
  steps s s' ->
  (prev s' = prev s /\ latest s' = latest s) \/ exists l, prev s' = prev s ++ latest s :: l.
Proof.
  induction 1 as [s|s s1 s2 Hst _ IH]; [by left|].
  destruct (step_history _ _ Hst) as [[Hp Hl]|Hp];
    destruct IH as [[Hp' Hl']|[l Hp']].
  - left. split; congruence.
  - right. exists l. congruence.
  - right. exists []. congruence.
  - right. exists (latest s1 :: l). rewrite Hp', Hp, <- app_assoc. reflexivity.
Qed.

(** A run that installs nothing leaves [latest] as it was. *)
Lemma steps_same_history s s' : steps s s' -> prev s' = prev s -> latest s' = latest s.
Proof.
  intros Hs Hp. destruct (steps_history _ _ Hs) as [[_ Hl]|[l Hl]]; [done|].
  apply (f_equal length) in Hl. rewrite Hp, length_app in Hl. simpl in Hl. lia.
Qed.

(** A read that began after the last installed snapshot returns it. *)
Lemma read_since_latest s i since c :
  reachable s -> threads s !! i = Some (ReadDone since c) -> length (prev s) <= since ->
  c = latest s.
Proof.
  intros Hr Hi Hs. destruct (inv_threads _ (reachable_inv _ Hr) _ _ Hi) as (j & Hj & Hc).
  pose proof (lookup_lt_Some _ _ _ Hc) as Hlt. rewrite length_installed in Hlt.
  assert (j = length (prev s)) as -> by lia.
  rewrite latest_installed in Hc. congruence.
Qed.

(** * Properties of the concurrent lock *)

(** C1: in every reachable state, a [current()] call that has returned
    returned a snapshot that was installed whole, by [initialize] or by
    a completed [update], and not one older than the last snapshot
    installed when the call began: no torn read, no stale read. *)
Theorem current_returns_installed s i since c :
  reachable s -> threads s !! i = Some (ReadDone since c) ->
  exists j, since <= j /\ installed s !! j = Some c.
Proof. intros Hr Hi. exact (inv_threads _ (reachable_inv _ Hr) _ _ Hi). Qed.

Lemma current_returns_installed_witness :
  exists j, 0 <= j /\
    installed (seq_current (init (default_config "/root"))) !! j = Some (default_config "/root").
Proof.
  apply (current_returns_installed (seq_current (init (default_config "/root"))) 0 0).
  - apply (reachable_steps (init (default_config "/root"))); [constructor | apply steps_current; reflexivity].
  - reflexivity.
Defined.

(** C2: a [current()] call that began after the last completed [update]
    (no update completed while it ran) returns exactly the snapshot that
    update installed: no earlier snapshot is observable after a completed
    swap. *)
Theorem current_after_update s i c :
  reachable s -> threads s !! i = Some (ReadDone (length (prev s)) c) -> c = latest s.
Proof. intros Hr Hi. exact (read_since_latest _ _ _ _ Hr Hi (le_n _)). Qed.

Definition two_configs_state : State :=
  seq_current (seq_update (init (default_config "/root")) (default_config "/home/u")).

Lemma current_after_update_witness :
  reachable two_configs_state /\
  threads two_configs_state !! 1 = Some (ReadDone (length (prev two_configs_state))
                                                  (default_config "/home/u")) /\
  default_config "/home/u" = latest two_configs_state.
Proof.
  assert (Hr : reachable two_configs_state).
  { apply (reachable_steps (init (default_config "/root"))); [constructor|].
    eapply steps_trans; [apply steps_update; reflexivity|].
    apply steps_current. reflexivity. }
  split; [exact Hr|]. split; [reflexivity|].
  apply (current_after_update two_configs_state 1); [exact Hr | reflexivity].
Defined.

(** C3: concurrent [current] calls agree.  Every [current] call that
    began once the snapshot [latest s] was in effect, and finished in a
    run from [s] in which no [update] completed, returned that same
    snapshot, however its field-by-field clone interleaved with the
    other threads and with a pending writer. *)
Theorem concurrent_reads_agree s s' i j since1 since2 c1 c2 :
  reachable s -> steps s s' -> prev s' = prev s ->
  threads s' !! i = Some (ReadDone since1 c1) -> threads s' !! j = Some (ReadDone since2 c2) ->
  length (prev s) <= since1 -> length (prev s) <= since2 ->
  c1 = latest s /\ c2 = latest s.
Proof.
  intros Hr Hs Hp Hi Hj H1 H2. pose proof (reachable_steps _ _ Hr Hs) as Hr'.
  rewrite <- (steps_same_history _ _ Hs Hp), <- Hp in *.
  split; eapply read_since_latest; eauto.
Qed.

(** Two threads call [current] while a third one waits to [update]:
    both reads complete before the update, and return the same record. *)
Definition two_readers_state : State :=
  with_threads (seq_current (seq_current (init (default_config "/root"))))
    [ReadDone 0 (default_config "/root"); ReadDone 0 (default_config "/root");
     WriteReq (default_config "/tmp")].

Lemma concurrent_reads_agree_witness :
  reachable (init (default_config "/root")) /\
  steps (init (default_config "/root")) two_readers_state /\
  prev two_readers_state = prev (init (default_config "/root")) /\
  default_config "/root" = latest (init (default_config "/root")) /\
  default_config "/root" = latest (init (default_config "/root")).
Proof.
  assert (Hs : steps (init (default_config "/root")) two_readers_state).
  { eapply steps_trans; [apply steps_current; reflexivity|].
    eapply steps_trans; [apply steps_current; reflexivity|].
    eapply steps_step; [apply step_call_update|]. apply steps_refl. }
  split; [constructor|]. split; [exact Hs|]. split; [reflexivity|].
  apply (concurrent_reads_agree _ two_readers_state 0 1 0 0); [constructor|exact Hs|..];
    reflexivity.
Defined.

(** C20: while an [update] holds [&mut self], no read guard is live and
    no other update runs: reads and writes of the slot never overlap. *)
Theorem update_excludes_readers s :
  reachable s -> writer s = true -> readers s = 0 /\ countb is_writing (threads s) = 1.
Proof.
  intros Hr Hw. destruct (reachable_inv _ Hr) as [Hrd Hwr _ Ht].
  rewrite Hw in Hwr. split; [|done]. rewrite Hrd. apply countb_all_false.
  intros i t Hi. destruct t; try done. destruct (Ht _ _ Hi) as (_ & Hf & _). congruence.
Qed.

(** The state in which an [update] call has taken the exclusive borrow. *)
Definition writing_state : State :=
  mkState (default_config "/root") 0 true [Writing (default_config "/home/u") 0] []
    (default_config "/root").

Lemma writing_state_reachable : reachable writing_state.
Proof.
  pose (s1 := with_threads (init (default_config "/root")) [WriteReq (default_config "/home/u")]).
  assert (H1 : reachable s1).
  { apply (reachable_step (init (default_config "/root"))); [constructor|].
    exact (step_call_update _ (default_config "/home/u")). }
  exact (reachable_step _ _ H1
           (step_write_acquire s1 0 (default_config "/home/u") eq_refl eq_refl eq_refl)).
Qed.

Lemma update_excludes_readers_witness :
  reachable writing_state /\ writer writing_state = true /\
  readers writing_state = 0 /\ countb is_writing (threads writing_state) = 1.
Proof.
  split; [exact writing_state_reachable|]. split; [reflexivity|].
  apply (update_excludes_readers writing_state writing_state_reachable). reflexivity.
Defined.

(** C23: a [current()] call issued while no [update] holds the lock runs
    to completion by its own steps, whatever the other threads do later,
    and returns the record in the slot. *)
Theorem current_completes s :
  writer s = false ->
  steps s (seq_current s) /\
  threads (seq_current s) !! length (threads s) = Some (ReadDone (length (prev s)) (slot s)).
Proof. intros Hw. split; [by apply steps_current | by apply list_lookup_middle]. Qed.

Lemma current_completes_witness :
  writer (init (default_config "/root")) = false /\
  steps (init (default_config "/root")) (seq_current (init (default_config "/root"))).
Proof.
  split; [reflexivity|]. apply (current_completes (init (default_config "/root"))).
  reflexivity.
Defined.

(** C24: run one call at a time from a reachable state, the concurrent
    lock implements the [SnapshotStore] contract of the sequential
    [ConfigLock]: [current()] returns [store_current] of the sequential
    view, [update(n)] moves the view to [store_replace _ n], and both runs
    stay reachable. *)
Theorem seq_calls_refine s n :
  reachable s -> writer s = false -> readers s = 0 ->
  reachable (seq_current s) /\
  threads (seq_current s) !! length (threads s)
    = Some (ReadDone (length (prev s)) (store_current (abs s))) /\
  reachable (seq_update s n) /\ abs (seq_update s n) = store_replace (abs s) n.
Proof.
  intros Hr Hw H0. pose proof (inv_slot _ (reachable_inv _ Hr) Hw) as Hsl.
  split; [eapply reachable_steps; [exact Hr | by apply steps_current]|].
  split; [simpl; rewrite <- Hsl; by apply list_lookup_middle|].
  split; [eapply reachable_steps; [exact Hr | by apply steps_update]|].
  reflexivity.
Qed.

Lemma seq_calls_refine_witness :
  reachable (seq_update (init (default_config "/root")) (default_config "/home/u")) /\
  abs (seq_update (init (default_config "/root")) (default_config "/home/u"))
  = store_replace (abs (init (default_config "/root"))) (default_config "/home/u").
Proof.
  destruct (seq_calls_refine (init (default_config "/root")) (default_config "/home/u"))
    as (_ & _ & Hr & Habs); [constructor | reflexivity | reflexivity |].
  split; [exact Hr | exact Habs].
Defined.

(** C21: no deadlock for writers.  In every reachable state, a pending
    [update(n)] can be brought to its end by the steps of the threads
    already in the lock and its own: an update in the middle of its
    assignment finishes, the readers that hold the guard finish their
    clones and drop it, and then the update takes the exclusive borrow,
    assigns every field and installs [n]. *)
Theorem update_eventually s i n :
  reachable s -> threads s !! i = Some (WriteReq n) ->
  exists s', steps s s' /\ threads s' !! i = Some WriteDone /\ latest s' = n.
Proof.
  intros Hr Hi. destruct (writer s) eqn:Hw; [|by apply update_eventually_free].
  destruct (steps_finish_writer _ Hr Hw) as (s1 & Hs1 & Hw1 & _ & Hkeep).
  destruct (update_eventually_free s1 i n) as (s' & ? & ?);
    [by eapply reachable_steps | by apply Hkeep | done |].
  exists s'. split; [by eapply steps_trans|done].
Qed.

(** C22: no deadlock for readers.  In every reachable state, a pending
    [current()] call can be brought to its end: an update in the middle of
    its assignment finishes, then the call takes the read guard, clones
    the record field by field and returns the clone. *)
Theorem current_eventually s i since :
  reachable s -> threads s !! i = Some (ReadReq since) ->
  exists s' c, steps s s' /\ threads s' !! i = Some (ReadDone since c).
Proof.
  intros Hr Hi.
  assert (exists s1, steps s s1 /\ writer s1 = false /\ threads s1 !! i = Some (ReadReq since))
    as (s1 & Hs1 & Hw1 & Hi1).
  { destruct (writer s) eqn:Hw; [|exists s; split; [constructor | done]].
    destruct (steps_finish_writer _ Hr Hw) as (s1 & ? & ? & _ & Hkeep).
    exists s1. split; [done|]. split; [done|]. by apply Hkeep. }
  pose proof (lookup_lt_Some _ _ _ Hi1) as Hlt.
  set (s2 := mkState (slot s1) (S (readers s1)) (writer s1)
               (<[i := Reading since []]> (threads s1)) (prev s1) (latest s1)).
  assert (Hi2 : threads s2 !! i = Some (Reading since (take 0 (get_field (slot s2) <$> fields))))
    by (cbn; by rewrite list_lookup_insert_eq).
  eexists _, (slot s1). split.
  { eapply steps_trans; [exact Hs1|].
    eapply steps_step; [exact (step_read_acquire _ _ _ Hi1 Hw1)|].
    exact (steps_finish_read _ _ _ _ Hi2). }
  cbn. rewrite list_insert_insert_eq. by apply list_lookup_insert_eq.
Qed.

(** An update in the middle of its assignment, a [current()] call and a
    second [update] waiting for the lock. *)
Definition pending_state : State :=
  with_threads writing_state
    [Writing (default_config "/home/u") 0; ReadReq 0; WriteReq (default_config "/tmp")].

Lemma pending_state_reachable : reachable pending_state.
Proof.
  pose (s1 := with_threads writing_state [Writing (default_config "/home/u") 0; ReadReq 0]).
  assert (H1 : reachable s1)
    by exact (reachable_step _ _ writing_state_reachable (step_call_current writing_state)).
  exact (reachable_step _ _ H1 (step_call_update s1 (default_config "/tmp"))).
Qed.

Lemma update_eventually_witness :
  reachable pending_state /\ threads pending_state !! 2 = Some (WriteReq (default_config "/tmp")) /\
  exists s', steps pending_state s' /\ threads s' !! 2 = Some WriteDone /\
             latest s' = default_config "/tmp".
Proof.
  split; [exact pending_state_reachable|]. split; [reflexivity|].
  apply (update_eventually pending_state 2); [exact pending_state_reachable | reflexivity].
Defined.

Lemma current_eventually_witness :
  reachable pending_state /\ threads pending_state !! 1 = Some (ReadReq 0) /\
  exists s' c, steps pending_state s' /\ threads s' !! 1 = Some (ReadDone 0 c).
Proof.
  split; [exact pending_state_reachable|]. split; [reflexivity|].
  apply (current_eventually pending_state 1 0); [exact pending_state_reachable | reflexivity].
Defined.

