(* ===== verification/Initialize.v ===== *)
(** * [Config::initialize]: startup load and repair

    config.rs lines 64-101.  The file system is a function from paths to
    contents ([None]: no file).  The operating system's answer to each
    call ([homedir], [File::open_mode], [read_to_string], [write_str],
    [fsync]) is part of the environment [Env], so that every I/O outcome
    can be chosen.  A [File] handle has the file's content and a cursor,
    as a Rust [File] does: [read_to_string] leaves the cursor at the end,
    and [write_str] writes at the cursor; a failed [write_str] may have
    written a prefix of its buffer.  [.unwrap()] on an error is a
    panic, an outcome of its own; [info!] appends to the log.
    [restart] runs [initialize] several times in a row on the file system
    each run leaves, as successive starts of the window manager do.
    The last section hands the installed record to the [Store] model of
    the lock, as [initialize]'s caller does. *)

From S2P Require Import Prelude Snapshot Json Codec Store.
Local Open Scope string_scope.

Inductive IoError := PermissionDenied | InvalidInput | OtherIoError.

Record Env := mkEnv {
  homedir : option string;
  open_error : option IoError;
  read_error : option IoError;
  write_error : option (IoError * nat);
  fsync_error : option IoError
}.

Definition Fs := string -> option string.

Definition fs_set (fs : Fs) (p : string) (c : string) : Fs :=
  fun q => if decide (q = p) then Some c else fs q.

(** An open file: its path, its content and the cursor. *)
Record File := mkFile { path : string; content : string; pos : nat }.

Definition config_path (home : string) : string := home ++ "/.wtftwrc".

(** [File::open_mode(path, Open, ReadWrite)]: the cursor at the start;
    the file is created, empty, when it does not exist. *)
Definition open_mode (env : Env) (fs : Fs) (p : string) : result (File * Fs) IoError :=
  match open_error env with
  | Some e => Err e
  | None =>
      match fs p with
      | Some c => Ok (mkFile p c 0, fs)
      | None => Ok (mkFile p EmptyString 0, fs_set fs p EmptyString)
      end
  end.

(** [read_to_string]: from the cursor to the end; the cursor moves to
    the end. *)
Definition read_to_string (env : Env) (f : File) : result (string * File) IoError :=
  match read_error env with
  | Some e => Err e
  | None =>
      Ok (substring (pos f) (String.length (content f) - pos f) (content f),
          mkFile (path f) (content f) (String.length (content f)))
  end.

(** The content after [data] is written at the cursor of [f]: the bytes
    overwrite what is there and extend the file past its end. *)
Definition write_at (f : File) (data : string) : string :=
  substring 0 (pos f) (content f) ++ data ++
  substring (pos f + String.length data)
    (String.length (content f) - (pos f + String.length data)) (content f).

(** [write_str]: on success the whole buffer is written and the cursor
    moves past it.  [File::write] loops over [write(2)] until the buffer
    is written or a call fails, so a failure ([Some (e, k)]) may come
    after the first [k] bytes reached the file.  The file system after
    the call is returned with the result, since the caller may ignore
    the result but not the bytes. *)
Definition write_str (env : Env) (fs : Fs) (f : File) (data : string)
  : Fs * result File IoError :=
  match write_error env with
  | Some (e, k) => (fs_set fs (path f) (write_at f (substring 0 k data)), Err e)
  | None =>
      (fs_set fs (path f) (write_at f data),
       Ok (mkFile (path f) (write_at f data) (pos f + String.length data)))
  end.

(** [fsync] changes no content; its result is ignored by the code. *)
Definition fsync (env : Env) (f : File) : result unit IoError :=
  match fsync_error env with
  | Some e => Err e
  | None => Ok tt
  end.

Definition corrupt_msg : string := "config file is corrupted. falling back to default.".

(** What [initialize] ends with: a panic of an [unwrap], or the lock;
    both with the file system and the log at that point. *)
Inductive Outcome :=
| Panicked (at_call : string) (fs : Fs) (log : list string)
| Initialized (lock : ConfigLock) (fs : Fs) (log : list string).

Definition initialize (env : Env) (fs : Fs) : Outcome :=
  match homedir env with
  | None => Panicked "homedir" fs []
  | Some home =>
      let conf := default_config home in
      match open_mode env fs (config_path home) with
      | Err _ => Panicked "open_mode" fs []
      | Ok (conf_file, fs1) =>
          match read_to_string env conf_file with
          | Err _ => Panicked "read_to_string" fs1 []
          | Ok (text, conf_file1) =>
              match decode text with
              | Ok v => Initialized {| conf := v |} fs1 []
              | Err _ =>
                  let fs2 := fst (write_str env fs1 conf_file1 (encode conf)) in
                  let _ := fsync env conf_file1 in
                  Initialized {| conf := conf |} fs2 [corrupt_msg]
              end
          end
      end
  end.

(** The window manager started [k + 1] times in a row, each start on the
    file system the previous one left (a driver of the model, not code of
    [config.rs]). *)
Fixpoint restart (env : Env) (fs : Fs) (k : nat) : Outcome :=
  match k with
  | O => initialize env fs
  | S k' =>
      match initialize env fs with
      | Initialized _ fs' _ => restart env fs' k'
      | o => o
      end
  end.

(** * Lemmas *)

Lemma substring_empty n s : substring n 0 s = EmptyString.
Proof. revert s. induction n; intros [|c s]; simpl; auto. Qed.

Lemma read_to_string_start env f :
  read_error env = None -> pos f = 0 ->
  read_to_string env f = Ok (content f, mkFile (path f) (content f) (String.length (content f))).
Proof.
  intros Hr Hp. unfold read_to_string. rewrite Hr, Hp, Nat.sub_0_r, substring_full.
  reflexivity.
Qed.

(** Writing at the end of the file appends. *)
(** At the end of the file, writing appends. *)
Lemma write_at_end f data :
  pos f = String.length (content f) -> write_at f data = content f ++ data.
Proof.
  intros Hp. unfold write_at. rewrite Hp.
  replace (String.length (content f) - (String.length (content f) + String.length data))
    with 0 by lia.
  by rewrite substring_full, substring_empty, str_app_nil_r.
Qed.

Lemma write_str_end env fs f data :
  write_error env = None -> pos f = String.length (content f) ->
  fst (write_str env fs f data) = fs_set fs (path f) (content f ++ data).
Proof. intros Hw Hp. unfold write_str. by rewrite Hw, write_at_end. Qed.

Lemma write_str_end_error env fs f data e k :
  write_error env = Some (e, k) -> pos f = String.length (content f) ->
  fst (write_str env fs f data) = fs_set fs (path f) (content f ++ substring 0 k data).
Proof. intros Hw Hp. unfold write_str. by rewrite Hw, write_at_end. Qed.

Lemma fs_set_eq fs p c : fs_set fs p c p = Some c.
Proof. unfold fs_set. by rewrite decide_True. Qed.

Lemma fs_set_ne fs p q c : q <> p -> fs_set fs p c q = fs q.
Proof. intros Hne. unfold fs_set. by rewrite decide_False. Qed.

Lemma decode_empty : decode EmptyString = Err (ParseError (SyntaxError EOFWhileParsingValue)).
Proof. reflexivity. Qed.

(** The part of [initialize] after the read: decode, or log and repair. *)
Lemma initialize_read env fs home text f fs1 :
  homedir env = Some home ->
  open_mode env fs (config_path home) = Ok (f, fs1) ->
  read_to_string env f = Ok (text, mkFile (path f) (content f) (String.length (content f))) ->
  initialize env fs =
  match decode text with
  | Ok v => Initialized {| conf := v |} fs1 []
  | Err _ =>
      Initialized {| conf := default_config home |}
        (fst (write_str env fs1 (mkFile (path f) (content f) (String.length (content f)))
                (encode (default_config home)))) [corrupt_msg]
  end.
Proof. intros Hh Ho Hr. unfold initialize. rewrite Hh, Ho, Hr. reflexivity. Qed.

Lemma open_existing env fs p c :
  open_error env = None -> fs p = Some c -> open_mode env fs p = Ok (mkFile p c 0, fs).
Proof. intros Ho Hc. unfold open_mode. by rewrite Ho, Hc. Qed.

Lemma open_missing env fs p :
  open_error env = None -> fs p = None ->
  open_mode env fs p = Ok (mkFile p EmptyString 0, fs_set fs p EmptyString).
Proof. intros Ho Hc. unfold open_mode. by rewrite Ho, Hc. Qed.

(** A file whose content does not decode: the default is loaded, the
    message logged, and the default's encoding appended to the file. *)
Lemma initialize_repair env fs home text :
  homedir env = Some home -> open_error env = None -> read_error env = None ->
  write_error env = None -> fs (config_path home) = Some text -> is_ok (decode text) = false ->
  initialize env fs =
  Initialized {| conf := default_config home |}
    (fs_set fs (config_path home) (text ++ encode (default_config home))) [corrupt_msg].
Proof.
  intros Hh Ho Hr Hw Hf Hd.
  rewrite (initialize_read env fs home text (mkFile (config_path home) text 0) fs);
    [| done | by apply open_existing | by apply read_to_string_start].
  destruct (decode text); [discriminate|]. by rewrite write_str_end.
Qed.

(** A file whose content decodes: its record is installed, nothing is
    logged, nothing is written. *)
Lemma initialize_decoded env fs home text c :
  homedir env = Some home -> open_error env = None -> read_error env = None ->
  fs (config_path home) = Some text -> decode text = Ok c ->
  initialize env fs = Initialized {| conf := c |} fs [].
Proof.
  intros Hh Ho Hr Hf Hd.
  rewrite (initialize_read env fs home text (mkFile (config_path home) text 0) fs);
    [| done | by apply open_existing | by apply read_to_string_start].
  by rewrite Hd.
Qed.

(** * Properties of [initialize] *)

(** C6: a file that holds a valid encoding of [S]: the lock holds [S],
    nothing is logged and the file system is left as it was. *)
Theorem initialize_valid_file env fs home text c :
  homedir env = Some home -> open_error env = None -> read_error env = None ->
  fs (config_path home) = Some text -> decode text = Ok c ->
  initialize env fs = Initialized {| conf := c |} fs [].
Proof. apply initialize_decoded. Qed.

Lemma initialize_valid_file_witness :
  initialize (mkEnv (Some "/root") None None None None)
    (fs_set (fun _ => None) (config_path "/root") (encode (default_config "/home/u")))
  = Initialized {| conf := default_config "/home/u" |}
      (fs_set (fun _ => None) (config_path "/root") (encode (default_config "/home/u"))) [].
Proof.
  apply (initialize_valid_file _ _ "/root" (encode (default_config "/home/u")));
    [reflexivity | reflexivity | reflexivity | apply fs_set_eq | vm_compute; reflexivity].
Defined.

(** A missing file is created and repaired with the default. *)
Lemma initialize_missing env fs home :
  homedir env = Some home -> open_error env = None -> read_error env = None ->
  write_error env = None -> fs (config_path home) = None ->
  exists fs', initialize env fs = Initialized {| conf := default_config home |} fs' [corrupt_msg] /\
    fs' (config_path home) = Some (encode (default_config home)) /\
    decode (encode (default_config home)) = Ok (default_config home) /\
    (forall q, q <> config_path home -> fs' q = fs q).
Proof.
  intros Hh Ho Hr Hw Hf.
  rewrite (initialize_read env fs home EmptyString (mkFile (config_path home) EmptyString 0)
             (fs_set fs (config_path home) EmptyString));
    [| done | by apply open_missing | by apply read_to_string_start].
  rewrite decode_empty, write_str_end by done. eexists. split; [reflexivity|].
  split; [apply fs_set_eq|]. split; [apply decode_encode_wf, default_config_wf|].
  intros q Hq. by rewrite !fs_set_ne.
Qed.

(** C8: no file: it is created, the default is loaded, the message is
    logged, and the file ends up holding the default's encoding, which
    decodes back to the default; no other path is touched. *)
Theorem initialize_missing_file env fs home :
  homedir env = Some home -> open_error env = None -> read_error env = None ->
  write_error env = None -> fs (config_path home) = None ->
  exists fs', initialize env fs = Initialized {| conf := default_config home |} fs' [corrupt_msg] /\
    fs' (config_path home) = Some (encode (default_config home)) /\
    decode (encode (default_config home)) = Ok (default_config home) /\
    (forall q, q <> config_path home -> fs' q = fs q).
Proof. apply initialize_missing. Qed.

Lemma initialize_missing_file_witness :
  exists fs', initialize (mkEnv (Some "/root") None None None None) (fun _ => None)
    = Initialized {| conf := default_config "/root" |} fs' [corrupt_msg] /\
    fs' (config_path "/root") = Some (encode (default_config "/root")) /\
    decode (encode (default_config "/root")) = Ok (default_config "/root") /\
    (forall q, q <> config_path "/root" -> fs' q = None).
Proof.
  apply (initialize_missing_file (mkEnv (Some "/root") None None None None) (fun _ => None));
    reflexivity.
Defined.

(** C9: a file whose content does not decode: the default is loaded and
    the message logged, and the default's encoding is written at the
    cursor, which [read_to_string] left at the end: it is appended to the
    corrupt content, which stays in the file. *)
Theorem initialize_corrupt_file env fs home text :
  homedir env = Some home -> open_error env = None -> read_error env = None ->
  write_error env = None -> fs (config_path home) = Some text -> is_ok (decode text) = false ->
  exists fs', initialize env fs = Initialized {| conf := default_config home |} fs' [corrupt_msg] /\
    fs' (config_path home) = Some (text ++ encode (default_config home)) /\
    (forall q, q <> config_path home -> fs' q = fs q).
Proof.
  intros Hh Ho Hr Hw Hf Hd. rewrite (initialize_repair env fs home text) by done.
  eexists. split; [reflexivity|]. split; [apply fs_set_eq|].
  intros q Hq. by rewrite fs_set_ne.
Qed.

Lemma initialize_corrupt_file_witness :
  exists fs', initialize (mkEnv (Some "/root") None None None None)
    (fs_set (fun _ => None) (config_path "/root") "{")
    = Initialized {| conf := default_config "/root" |} fs' [corrupt_msg] /\
    fs' (config_path "/root") = Some ("{" ++ encode (default_config "/root")) /\
    (forall q, q <> config_path "/root" ->
       fs' q = fs_set (fun _ => None) (config_path "/root") "{" q).
Proof.
  apply (initialize_corrupt_file _ _ "/root" "{");
    [reflexivity | reflexivity | reflexivity | reflexivity | apply fs_set_eq
    | vm_compute; reflexivity].
Defined.

Definition plain_env : Env := mkEnv (Some "/root") None None None None.

(** C25: a failed write-back is swallowed.  When [write_str] fails
    after [k] bytes of the default's encoding reached the file (none, some
    or all but one), [initialize] neither panics nor logs the failure:
    it still loads the default and logs only the corrupt-file message,
    and the file keeps its content followed by those [k] bytes. *)
Theorem initialize_write_error_swallowed env fs home text e k :
  homedir env = Some home -> open_error env = None -> read_error env = None ->
  write_error env = Some (e, k) -> fs (config_path home) = Some text ->
  is_ok (decode text) = false ->
  initialize env fs =
    Initialized {| conf := default_config home |}
      (fs_set fs (config_path home) (text ++ substring 0 k (encode (default_config home))))
      [corrupt_msg].
Proof.
  intros Hh Ho Hr Hw Hf Hd.
  rewrite (initialize_read env fs home text (mkFile (config_path home) text 0) fs);
    [| done | by apply open_existing | by apply read_to_string_start].
  destruct (decode text); [discriminate|]. by rewrite (write_str_end_error _ _ _ _ e k).
Qed.

Lemma initialize_write_error_swallowed_witness :
  initialize (mkEnv (Some "/root") None None (Some (PermissionDenied, 5)) None)
    (fs_set (fun _ => None) (config_path "/root") "{")
  = Initialized {| conf := default_config "/root" |}
      (fs_set (fs_set (fun _ => None) (config_path "/root") "{") (config_path "/root")
         ("{" ++ substring 0 5 (encode (default_config "/root")))) [corrupt_msg].
Proof.
  apply (initialize_write_error_swallowed _ _ "/root" "{" PermissionDenied 5);
    [reflexivity | reflexivity | reflexivity | reflexivity | apply fs_set_eq
    | vm_compute; reflexivity].
Defined.

(** A file that holds a JSON document which is not a configuration,
    followed by any number of encodings, does not decode. *)
Lemma decode_document_repeat text j i c :
  from_str text = Ok j -> is_ok (config_from_json j) = false ->
  is_ok (decode (text ++ str_repeat i (encode c))) = false.
Proof.
  intros Hj Hc. destruct i as [|i]; cbn [str_repeat].
  - rewrite str_app_nil_r. unfold decode. by rewrite Hj.
  - by rewrite (decode_app_encode text j).
Qed.

Lemma restart_repairs env fs home text j k i :
  homedir env = Some home -> open_error env = None -> read_error env = None ->
  write_error env = None -> from_str text = Ok j -> is_ok (config_from_json j) = false ->
  fs (config_path home) = Some (text ++ str_repeat i (encode (default_config home))) ->
  exists fs', restart env fs k = Initialized {| conf := default_config home |} fs' [corrupt_msg] /\
    fs' (config_path home) = Some (text ++ str_repeat (S k + i) (encode (default_config home))) /\
    (forall q, q <> config_path home -> fs' q = fs q).
Proof.
  intros Hh Ho Hr Hw Hj Hc. revert fs i.
  induction k as [|k IH]; intros fs i Hf; cbn [restart];
    rewrite (initialize_repair env fs home _) by eauto using decode_document_repeat.
  - eexists. split; [reflexivity|]. split; [|by intros q Hq; rewrite fs_set_ne].
    by rewrite fs_set_eq, str_app_assoc, str_repeat_snoc.
  - destruct (IH (fs_set fs (config_path home)
                 ((text ++ str_repeat i (encode (default_config home))) ++
                  encode (default_config home))) (S i)) as (fs' & Hrun & Hf' & Hq).
    { by rewrite fs_set_eq, str_app_assoc, str_repeat_snoc. }
    exists fs'. split; [exact Hrun|]. split; [rewrite Hf'; do 3 f_equal; lia|].
    intros q Hne. by rewrite Hq, fs_set_ne.
Qed.

(** C10: the repair never converges.  Started on a file that holds a
    complete JSON document which is not a configuration, every one of
    [k + 1] starts in a row loads the default, logs the message and
    appends one more encoding of the default after what is there; the
    file then holds the document and [k + 1] encodings, still does not
    decode, and no other path is touched.  The file never becomes valid
    and grows on every start. *)
Theorem repair_never_converges env fs home text j k :
  homedir env = Some home -> open_error env = None -> read_error env = None ->
  write_error env = None -> fs (config_path home) = Some text ->
  from_str text = Ok j -> is_ok (config_from_json j) = false ->
  exists fs', restart env fs k = Initialized {| conf := default_config home |} fs' [corrupt_msg] /\
    fs' (config_path home) = Some (text ++ str_repeat (S k) (encode (default_config home))) /\
    is_ok (decode (text ++ str_repeat (S k) (encode (default_config home)))) = false /\
    (forall q, q <> config_path home -> fs' q = fs q).
Proof.
  intros Hh Ho Hr Hw Hf Hj Hc.
  destruct (restart_repairs env fs home text j k 0) as (fs' & Hrun & Hf' & Hq); try done.
  { by rewrite str_app_nil_r. }
  exists fs'. rewrite Nat.add_0_r in Hf'. repeat split; try done.
  by apply (decode_document_repeat text j).
Qed.

Lemma repair_never_converges_witness :
  exists fs', restart plain_env (fs_set (fun _ => None) (config_path "/root") "{}") 2
    = Initialized {| conf := default_config "/root" |} fs' [corrupt_msg] /\
    fs' (config_path "/root") = Some ("{}" ++ str_repeat 3 (encode (default_config "/root"))) /\
    is_ok (decode ("{}" ++ str_repeat 3 (encode (default_config "/root")))) = false /\
    (forall q, q <> config_path "/root" ->
       fs' q = fs_set (fun _ => None) (config_path "/root") "{}" q).
Proof.
  apply (repair_never_converges plain_env _ "/root" "{}" (JObject []) 2);
    [reflexivity | reflexivity | reflexivity | reflexivity | apply fs_set_eq
    | reflexivity | reflexivity].
Defined.

(** C13: exactly which failures stop the window manager: [initialize]
    panics if and only if [homedir], [File::open_mode] or
    [read_to_string] fails (their results are unwrapped); a failure of
    [write_str] or [fsync] never does.  The spec requires that
    [initialize] never fail the process. *)
Theorem initialize_panics_iff env fs :
  (exists at_call fs' log, initialize env fs = Panicked at_call fs' log) <->
  homedir env = None \/ open_error env <> None \/ read_error env <> None.
Proof.
  unfold initialize, open_mode, read_to_string.
  destruct (homedir env) as [home|]; [|split; [by left | eauto]].
  destruct (open_error env) as [e|]; [split; [intros _; right; by left | eauto]|].
  destruct (read_error env) as [e|].
  - split; [intros _; by right; right|]. intros _. destruct (fs (config_path home)); eauto.
  - split; [|intros [?|[?|?]]; done]. intros (at_call & fs' & log & H).
    revert H. repeat case_match; congruence.
Qed.

Lemma initialize_panics_iff_witness :
  exists at_call fs' log,
    initialize (mkEnv None None None None None) (fun _ => None) = Panicked at_call fs' log.
Proof. apply (initialize_panics_iff (mkEnv None None None None None)). by left. Defined.

(** C11: where the repair does work: a blank configuration file (empty,
    or whitespace only) does not decode, so [initialize] loads the
    default, logs the message and appends the default's encoding; that
    encoding is then the whole document, and the next start loads the
    default from the file without a message and leaves the file as it is.
    This is the blank-file direction only; [repair_never_converges] shows
    that the append does not repair a file holding a complete JSON
    document. *)
Theorem repair_blank_file env fs home text :
  homedir env = Some home -> open_error env = None -> read_error env = None ->
  write_error env = None -> fs (config_path home) = Some text -> skip_ws text = EmptyString ->
  exists fs', initialize env fs = Initialized {| conf := default_config home |} fs' [corrupt_msg] /\
    fs' (config_path home) = Some (text ++ encode (default_config home)) /\
    initialize env fs' = Initialized {| conf := default_config home |} fs' [].
Proof.
  intros Hh Ho Hr Hw Hf Hb.
  rewrite (initialize_repair env fs home text) by (try done; unfold decode; by rewrite from_str_blank).
  eexists. split; [reflexivity|]. split; [apply fs_set_eq|].
  apply (initialize_decoded _ _ home (text ++ encode (default_config home)));
    [done | done | done | apply fs_set_eq |].
  unfold decode. erewrite from_str_blank_prefix; [| done |].
  - apply config_from_to_json, default_config_wf.
  - apply from_str_print, config_to_json_canon, default_config_wf.
Qed.

Lemma repair_blank_file_witness :
  exists fs', initialize plain_env (fs_set (fun _ => None) (config_path "/root") " ")
    = Initialized {| conf := default_config "/root" |} fs' [corrupt_msg] /\
    fs' (config_path "/root") = Some (" " ++ encode (default_config "/root")) /\
    initialize plain_env fs' = Initialized {| conf := default_config "/root" |} fs' [].
Proof.
  apply (repair_blank_file plain_env _ "/root" " ");
    [reflexivity | reflexivity | reflexivity | reflexivity | apply fs_set_eq | reflexivity].
Defined.

(** ** Startup and the lock *)

(** C7: a hand-edited configuration file is loaded as written, and is
    what the window manager reads.  Whatever whitespace surrounds the
    record's JSON or separates its tokens, and however its strings are
    escaped, [initialize] installs the record, leaves the file as it is
    and logs nothing; from then on, until an [update] completes, every
    [current()] call on the lock, in any interleaving of threads,
    returns that record. *)
Theorem startup_current_reads_file env fs home c t w1 w2 s i since c' :
  homedir env = Some home -> open_error env = None -> read_error env = None ->
  fs (config_path home) = Some (w1 ++ t ++ w2) ->
  config_wf c = true -> spelled (config_to_json c) t -> blank w1 -> blank w2 ->
  initialize env fs = Initialized {| conf := c |} fs [] /\
  (steps (init c) s -> prev s = [] -> threads s !! i = Some (ReadDone since c') -> c' = c).
Proof.
  intros Hh Ho Hr Hf Hc Ht Hw1 Hw2. split.
  - apply (initialize_decoded _ _ home (w1 ++ t ++ w2)); [done..|].
    unfold decode. rewrite (from_str_spelled _ t w1 w2) by done. by apply config_from_to_json.
  - intros Hs Hp Hi. change c with (latest (init c)).
    rewrite <- (steps_same_history _ _ Hs Hp).
    apply (read_since_latest s i since); [exact (reachable_steps _ _ (reachable_init c) Hs) | exact Hi | rewrite Hp; simpl; lia].
Qed.

Lemma startup_current_reads_file_witness :
  let fs := fs_set (fun _ => None) (config_path "/root")
              (encode (default_config "/home/u") ++ String "010" EmptyString) in
  initialize plain_env fs = Initialized {| conf := default_config "/home/u" |} fs [] /\
  (steps (init (default_config "/home/u")) (seq_current (init (default_config "/home/u"))) ->
   prev (seq_current (init (default_config "/home/u"))) = [] ->
   threads (seq_current (init (default_config "/home/u"))) !! 0 =
     Some (ReadDone 0 (default_config "/home/u")) ->
   default_config "/home/u" = default_config "/home/u").
Proof.
  cbv zeta.
  apply (startup_current_reads_file plain_env _ "/root" _ (encode (default_config "/home/u"))
           EmptyString (String "010" EmptyString) (seq_current (init (default_config "/home/u")))
           0 0 (default_config "/home/u"));
    [reflexivity | reflexivity | reflexivity | apply fs_set_eq | reflexivity
    | apply spelled_to_string, config_to_json_canon; reflexivity | reflexivity | reflexivity].
Defined.

(** ** A missing file is repaired for good *)

(** Once the file decodes, every later start loads it silently and
    leaves the file system as it is. *)
Lemma restart_decoded env fs home text c k :
  homedir env = Some home -> open_error env = None -> read_error env = None ->
  fs (config_path home) = Some text -> decode text = Ok c ->
  restart env fs k = Initialized {| conf := c |} fs [].
Proof.
  intros Hh Ho Hr Hf Hd. pose proof (initialize_decoded env fs home text c Hh Ho Hr Hf Hd) as Hi.
  destruct k; cbn [restart]; rewrite Hi; [done|].
  induction k as [|k IH]; cbn [restart]; by rewrite ?Hi.
Qed.

(** C12: unlike a corrupt file, a missing configuration file is
    repaired for good.  The first start creates it, writes the default
    encoding, loads the default and logs the corrupt-file message; every
    later start, any number of them, loads the default without a
    message and leaves the file system as it is. *)
Theorem missing_file_repaired env fs home k :
  homedir env = Some home -> open_error env = None -> read_error env = None ->
  write_error env = None -> fs (config_path home) = None ->
  exists fs', initialize env fs = Initialized {| conf := default_config home |} fs' [corrupt_msg] /\
    restart env fs' k = Initialized {| conf := default_config home |} fs' [].
Proof.
  intros Hh Ho Hr Hw Hf.
  destruct (initialize_missing env fs home Hh Ho Hr Hw Hf) as (fs' & Hi & Hf' & Hd & _).
  exists fs'. split; [done|]. by apply (restart_decoded _ _ home (encode (default_config home))).
Qed.

Lemma missing_file_repaired_witness :
  exists fs', initialize plain_env (fun _ => None) =
      Initialized {| conf := default_config "/root" |} fs' [corrupt_msg] /\
    restart plain_env fs' 3 = Initialized {| conf := default_config "/root" |} fs' [].
Proof. apply (missing_file_repaired plain_env _ "/root" 3); reflexivity. Defined.
